(** * redox::Buffer — a shallow embedding of [core/buffer.h]

    The C++ class template

      template<class ValueType, class Allocator, class GrowthPolicy> class Buffer

    is embedded as a state-and-exception monad over the object's three fields
    ([_reserved], [_size], [_data]), a block-structured heap and a trace of
    the calls made to the collaborators (allocator, growth policy, element
    constructors and destructors).  Template parameters become the variables
    of a section. *)

From Stdlib Require Import NArith Lia String.
From Stdlib.Strings Require Import Byte.
From stdpp Require Import base option list.

Set Default Proof Using "Type".
Open Scope N_scope.

(** ** Machine integers and pointers *)

(** [std::size_t] of the 64-bit target: a natural number below [2^64];
    [size_wrap] is the wrap-around of unsigned arithmetic. *)
Definition SIZE_MAX : N := 2 ^ 64 - 1.
Definition size_wrap (n : N) : N := n mod 2 ^ 64.

(** A [ValueType*]: null, or the start of a heap block. Element [i] of the
    block at [p] is the C++ expression [p + i]. *)
Inductive ptr := nullptr | Ptr (blk : nat).

#[export] Instance ptr_eq_dec : EqDecision ptr.
Proof. solve_decision. Defined.

(** What a method call can end in: normal return, a C++ exception in flight
    (the state is the one at the throw), or undefined behaviour. *)
Inductive exn :=
  | AllocationFailure
  | Exception (what : string).

Inductive outcome (S A : Type) :=
  | Ok (a : A) (s : S)
  | Throw (e : exn) (s : S)
  | Undefined.
Arguments Ok {S A} a s.
Arguments Throw {S A} e s.
Arguments Undefined {S A}.

Definition M (S A : Type) := S -> outcome S A.

Definition ret {S A} (a : A) : M S A := fun s => Ok a s.
Definition bind {S A B} (m : M S A) (k : A -> M S B) : M S B :=
  fun s => match m s with
           | Ok a s' => k a s'
           | Throw e s' => Throw e s'
           | Undefined => Undefined
           end.
Definition throw {S A} (e : exn) : M S A := fun s => Throw e s.

Declare Scope cpp_scope.
Delimit Scope cpp_scope with cpp.
Notation "x <- m ;; k" := (bind m (fun x => k))
  (at level 100, m at next level, right associativity) : cpp_scope.
Notation "m ;; k" := (bind m (fun _ => k))
  (at level 100, right associativity) : cpp_scope.
Open Scope cpp_scope.

(** [for (elm = lo; elm < lo + count; ++elm) body(elm)] *)
Fixpoint for_range {S} (elm : N) (count : nat) (body : N -> M S unit) : M S unit :=
  match count with
  | O => ret tt
  | S k => body elm;; for_range (elm + 1) k body
  end.

(** [for (const auto& v : values) body(v)] *)
Fixpoint for_each {S V} (values : list V) (body : V -> M S unit) : M S unit :=
  match values with
  | [] => ret tt
  | v :: rest => body v;; for_each rest body
  end.

(** ** The element type *)

(** What the container uses of [ValueType]: its size and object
    representation (for [memcpy]), whether [std::is_trivially_destructible_v]
    holds, its default constructor, and a constructor from arguments (for
    [emplace]). The copy constructor gives the new object the value of its
    source; so does the move constructor, which leaves the source in the
    state [moved_from]. *)
Class ValueType (T : Type) := {
  sizeof : nat;
  to_bytes : T -> list byte;
  of_bytes : list byte -> option T;
  is_trivially_destructible : bool;
  default_value : T;
  CtorArgs : Type;
  construct : CtorArgs -> T;
  moved_from : T -> T;
}.

(** ** Calls to the collaborators, in program order *)
Inductive event :=
  | EvGrowth (size : N)                  (* GrowthPolicy fn; fn(size) *)
  | EvAllocate (n : N) (p : ptr)         (* Allocator::allocate(n) returned p *)
  | EvDeallocate (p : ptr)               (* Allocator::deallocate(p) *)
  | EvConstruct (p : ptr) (i : N)        (* new (p + i) ValueType(...) *)
  | EvRelocate (src dst : ptr) (i : N)   (* new (dst + i) ValueType(std::move(src[i])) *)
  | EvDestroy (p : ptr) (i : N).         (* (p + i)->~ValueType() *)

(** The arguments of the growth-policy calls in a trace, in order. *)
Definition policy_calls (t : list event) : list N :=
  omap (λ e, match e with EvGrowth n => Some n | _ => None end) t.

(** Whether an event is a call of the allocator, or of the growth policy. *)
Definition is_allocator_call (e : event) : bool :=
  match e with EvAllocate _ _ | EvDeallocate _ => true | _ => false end.
Definition is_policy_call (e : event) : bool :=
  match e with EvGrowth _ => true | _ => false end.

(** The three data members, in declaration order. *)
Record Buffer := mkBuffer { _reserved : N; _size : N; _data : ptr }.

(** A storage slot holds an object or is uninitialised; a block is an array
    of slots; a released block stays in the heap as [None]. *)
Abbreviation slot T := (option T).
Abbreviation block T := (list (option T)).
Abbreviation heap_t T := (list (option (list (option T)))).

Section BufferTemplate.

Context {T : Type} `{ValueType T}.

Record state := mkState { this : Buffer; heap : heap_t T; trace : list event }.

(** The template parameter [GrowthPolicy], called as [fn(size)]
    ([core/allocation/growth_policy.h] is not among the sources). *)
Variable next_capacity : N -> N.

(** What the template parameter [Allocator] can provide: whether a request
    for [n] slots can be met in a given heap. *)
Variable can_allocate : heap_t T -> N -> bool.

(** The build configuration: whether [RDX_DEBUG] is defined. *)
Variable RDX_DEBUG : bool.

Local Abbreviation Mb := (M state).

Definition log (e : event) : Mb unit :=
  fun s => Ok tt (mkState (this s) (heap s) (trace s ++ [e])).

Definition get {A} (f : Buffer -> A) : Mb A := fun s => Ok (f (this s)) s.

Definition set_this (b : Buffer) : Mb unit :=
  fun s => Ok tt (mkState b (heap s) (trace s)).
Definition set_reserved (n : N) : Mb unit :=
  fun s => Ok tt (mkState (mkBuffer n (_size (this s)) (_data (this s))) (heap s) (trace s)).
Definition set_size (n : N) : Mb unit :=
  fun s => Ok tt (mkState (mkBuffer (_reserved (this s)) n (_data (this s))) (heap s) (trace s)).
Definition set_data (p : ptr) : Mb unit :=
  fun s => Ok tt (mkState (mkBuffer (_reserved (this s)) (_size (this s)) p) (heap s) (trace s)).

(** *** Memory *)

Definition load (p : ptr) (i : N) : Mb (slot T) :=
  fun s => match p with
           | nullptr => Undefined
           | Ptr k => match heap s !! k with
                      | Some (Some blk) =>
                          match blk !! N.to_nat i with
                          | Some v => Ok v s
                          | None => Undefined
                          end
                      | _ => Undefined
                      end
           end.

Definition store (p : ptr) (i : N) (v : slot T) : Mb unit :=
  fun s => match p with
           | nullptr => Undefined
           | Ptr k => match heap s !! k with
                      | Some (Some blk) =>
                          if decide (N.to_nat i < length blk)%nat
                          then Ok tt (mkState (this s)
                                        (<[k := Some (<[N.to_nat i := v]> blk)]> (heap s))
                                        (trace s))
                          else Undefined
                      | _ => Undefined
                      end
           end.

(** Modelled from the spec: [Allocator::allocate(n)] of the allocator
    capability ([core/allocation/default_allocator.h] is not among the
    sources), "allocate(count) -> raw storage for count elements": a fresh
    block of [n] uninitialised slots, never null, or the failure, thrown as
    an exception. *)
Definition allocate (n : N) : Mb ptr :=
  fun s => if can_allocate (heap s) n
           then let p := Ptr (length (heap s)) in
                Ok p (mkState (this s)
                        (heap s ++ [Some (replicate (N.to_nat n) None)])
                        (trace s ++ [EvAllocate n p]))
           else Throw AllocationFailure s.

(** Modelled from the spec: [Allocator::deallocate(p)] of the allocator
    capability, "releasing previously obtained raw storage". Releasing the
    null pointer does nothing ([_realloc] on a default-constructed buffer
    and [~Buffer()] on a moved-from one rely on it); releasing anything else
    that is not a live block is undefined. *)
Definition deallocate (p : ptr) : Mb unit :=
  fun s => match p with
           | nullptr => Ok tt (mkState (this s) (heap s) (trace s ++ [EvDeallocate p]))
           | Ptr k => match heap s !! k with
                      | Some (Some _) =>
                          Ok tt (mkState (this s) (<[k := None]> (heap s))
                                   (trace s ++ [EvDeallocate p]))
                      | _ => Undefined
                      end
           end.

(** [new (p + i) ValueType(v)] *)
Definition construct_at (p : ptr) (i : N) (v : T) : Mb unit :=
  store p i (Some v);; log (EvConstruct p i).

(** [new (dst + i) ValueType(std::move(src[i]))]: the slot's content moves
    over as it is. ([_realloc] destroys and releases the source right
    after, so the state it is left in is not recorded.) *)
Definition move_construct (dst src : ptr) (i : N) : Mb unit :=
  v <- load src i;; store dst i v;; log (EvRelocate src dst i).

(** [(p + i)->~ValueType()]: the object's lifetime ends. *)
Definition destroy_at (p : ptr) (i : N) : Mb unit :=
  store p i None;; log (EvDestroy p i).

(** *** Arguments passed by reference

    [push] and [emplace] take their argument as a reference ([const
    ValueType&], [ValueType&&], [Args&&...]); the object behind it is read
    when the element's constructor runs, not when the call is made. That
    object is one of the caller's that lies in no heap block (a local, a
    temporary, a literal), given by its value, or the element [p[i]] of a
    heap block, which is what [operator[]] returns. *)
Inductive reference :=
  | Outside (v : T)
  | Stored (p : ptr) (i : N).

(** How [std::forward<T>(element)] passes it on: as an lvalue (the copy
    constructor runs) or as an rvalue (the move constructor runs). *)
Inductive category := lvalue | rvalue.

(** [ValueType(std::forward<T>(element))], up to the value of the new
    object: the constructor reads the object [element] refers to now; where
    no object lives, that is undefined. The move constructor leaves a
    source in a heap block in its moved-from state (a source outside the
    heap is the caller's matter). *)
Definition forward (cat : category) (element : reference) : Mb T :=
  match element with
  | Outside v => ret v
  | Stored p i =>
      o <- load p i;;
      match o with
      | None => fun _ => Undefined
      | Some v =>
          match cat with
          | lvalue => ret v
          | rvalue => store p i (Some (moved_from v));; ret v
          end
      end
  end.

(** The arguments of [emplace(args...)]: objects outside the heap, from
    which [ValueType(args...)] builds the element, or one element of a heap
    block, for the copy or the move constructor. *)
Inductive arguments :=
  | Args (args : CtorArgs)
  | Element (cat : category) (p : ptr) (i : N).

Definition forward_args (args : arguments) : Mb T :=
  match args with
  | Args a => ret (construct a)
  | Element cat p i => forward cat (Stored p i)
  end.

(** *** [std::memcpy] over typed storage *)

(** The object representation of a slot: the bytes of its object, or
    [sizeof] indeterminate bytes. *)
Definition slot_bytes (v : slot T) : list (option byte) :=
  match v with
  | Some x => Some <$> to_bytes x
  | None => replicate sizeof None
  end.

Definition block_bytes (blk : block T) : list (option byte) :=
  concat (slot_bytes <$> blk).

(** Reading [sizeof] bytes back as an element: an object when all bytes are
    determinate and form a value of the type. *)
Definition slot_of_bytes (bs : list (option byte)) : slot T :=
  mapM id bs ≫= of_bytes.

Fixpoint block_of_bytes (slots : nat) (bs : list (option byte)) : block T :=
  match slots with
  | O => []
  | S k => slot_of_bytes (take sizeof bs) :: block_of_bytes k (drop sizeof bs)
  end.

(** [std::memcpy(dst, src, n)]: copies [n] BYTES. [src] is the memory the
    source pointer points to. Copying nothing is a no-op. *)
Definition memcpy (dst : ptr) (src : list byte) (n : N) : Mb unit :=
  if n =? 0 then ret tt
  else fun s =>
    match dst with
    | nullptr => Undefined
    | Ptr k =>
        match heap s !! k with
        | Some (Some blk) =>
            let old := block_bytes blk in
            if decide (N.to_nat n ≤ length old ∧ N.to_nat n ≤ length src)%nat
            then Ok tt (mkState (this s)
                          (<[k := Some (block_of_bytes (length blk)
                                          ((Some <$> take (N.to_nat n) src)
                                             ++ drop (N.to_nat n) old))]> (heap s))
                          (trace s))
            else Undefined
        | _ => Undefined
        end
    end.

(** ** The private members *)

Definition _dealloc : Mb unit :=
  d <- get _data;;
  deallocate d.

(** [if constexpr (!is_trivially_destructible_v<ValueType>)
       for (auto& c : *this) c.~ValueType();]
    The range is [begin(), end()) = [_data, _data + _size). *)
Definition _destruct : Mb unit :=
  if is_trivially_destructible then ret tt
  else
    first <- get _data;;
    count <- get _size;;
    for_range 0 (N.to_nat count) (fun i => destroy_at first i).

(** [new (_data + _size++) ValueType(std::forward<T>(element))]: the
    post-increment is part of the placement argument, so it happens before
    the constructor runs; the constructor then reads [element]. The
    template parameter [T] is the value category. *)
Definition _push_no_checks (cat : category) (element : reference) : Mb unit :=
  d <- get _data;;
  i <- get _size;;
  set_size (size_wrap (i + 1));;
  v <- forward cat element;;
  construct_at d i v.

Definition _emplace_no_checks (args : arguments) : Mb unit :=
  d <- get _data;;
  i <- get _size;;
  set_size (size_wrap (i + 1));;
  v <- forward_args args;;
  construct_at d i v.

Definition _realloc (reserve : N) : Mb ptr :=
  dest <- allocate reserve;;
  src <- get _data;;
  count <- get _size;;
  for_range 0 (N.to_nat count) (fun elm => move_construct dest src elm);;
  _destruct;;
  _dealloc;;
  ret dest.

(** ** The public members *)

Definition reserve (reserve : N) : Mb unit :=
  r <- get _reserved;;
  if r <? reserve then
    d <- _realloc reserve;;
    set_data d;;
    set_reserved reserve
  else ret tt.

Definition _grow_if_needed : Mb unit :=
  sz <- get _size;;
  r <- get _reserved;;
  if sz =? r then
    log (EvGrowth sz);;
    reserve (next_capacity sz)
  else ret tt.

Definition resize (size : N) : Mb unit :=
  reserve size;;
  old <- get _size;;
  d <- get _data;;
  for_range old (N.to_nat (size - old)) (fun elm => construct_at d elm default_value);;
  set_size size.

(** Both overloads, [push(const ValueType&)] and [push(ValueType&&)], and
    [emplace]. The reference is only passed on: the storage may have been
    reallocated by the time the constructor reads through it. *)
Definition push (element : reference) : Mb unit :=
  _grow_if_needed;;
  _push_no_checks lvalue element.

Definition push_move (element : reference) : Mb unit :=
  _grow_if_needed;;
  _push_no_checks rvalue element.

Definition emplace (args : arguments) : Mb unit :=
  _grow_if_needed;;
  _emplace_no_checks args.

Definition clear : Mb unit :=
  set_size 0;;
  _destruct.

(** [~Buffer()] *)
Definition destructor : Mb unit :=
  _destruct;;
  _dealloc.

(** [operator[]], mutable and const: the result is the reference
    [_data[index]], given as the pointer and the index. *)
Definition index_op (index : N) : Mb (ptr * N) :=
  sz <- get _size;;
  if RDX_DEBUG && (sz <=? index)
  then throw (Exception "index out of bounds")
  else d <- get _data;; ret (d, index).

Definition index_op_const (index : N) : Mb (ptr * N) :=
  sz <- get _size;;
  if RDX_DEBUG && (sz <=? index)
  then throw (Exception "index out of bounds")
  else d <- get _data;; ret (d, index).

(** *** Constructors (they initialise [this], whatever it held) *)

Definition Buffer_default : Mb unit :=
  set_this (mkBuffer 0 0 nullptr).

Definition Buffer_sized (size : N) : Mb unit :=
  Buffer_default;;
  resize size.

(** [Buffer(const ValueType* start, size_type length)]; [start] is given by
    the objects it points to. *)
Definition Buffer_range (start : list T) (length : N) : Mb unit :=
  Buffer_default;;
  reserve length;;
  d <- get _data;;
  memcpy d (concat (to_bytes <$> start)) length;;
  set_size length.

Definition Buffer_list (values : list T) : Mb unit :=
  Buffer_default;;
  reserve (N.of_nat (length values));;
  for_each values (fun v => _push_no_checks lvalue (Outside v)).

(** *** Introspection *)

Definition data (b : Buffer) : ptr := _data b.
Definition size (b : Buffer) : N := _size b.
Definition capacity (b : Buffer) : N := _reserved b.
Definition byte_size (b : Buffer) : N := size_wrap (_size b * N.of_nat sizeof).
Definition empty (b : Buffer) : bool := _size b =? 0.

(** Iterating [begin(), end()): the slots [_data[0 .. _size)]. *)
Definition elements (s : state) : block T :=
  match _data (this s) with
  | nullptr => []
  | Ptr k => match heap s !! k with
             | Some (Some blk) => take (N.to_nat (_size (this s))) blk
             | _ => []
             end
  end.

(** ** Several Buffer objects

    The objects of a program, named by their position, share one heap.
    Move construction and move assignment involve two of them, which may be
    the same object. *)
Record machine := mkMachine {
  objects : list Buffer;
  m_heap : heap_t T;
  m_trace : list event
}.

Local Abbreviation Mm := (M machine).

(** [o.f] and [o.f = v] *)
Definition field {A} (o : nat) (f : Buffer -> A) : Mm A :=
  fun m => match objects m !! o with
           | Some b => Ok (f b) m
           | None => Undefined
           end.

Definition assign (o : nat) (upd : Buffer -> Buffer) : Mm unit :=
  fun m => match objects m !! o with
           | Some b => Ok tt (mkMachine (<[o := upd b]> (objects m)) (m_heap m) (m_trace m))
           | None => Undefined
           end.

Definition with_reserved (n : N) (b : Buffer) := mkBuffer n (_size b) (_data b).
Definition with_size (n : N) (b : Buffer) := mkBuffer (_reserved b) n (_data b).
Definition with_data (p : ptr) (b : Buffer) := mkBuffer (_reserved b) (_size b) p.

(** [Buffer& operator=(Buffer&& ref)], statement by statement. *)
Definition move_assign (self ref : nat) : Mm unit :=
  d <- field ref _data;; assign self (with_data d);;
  s <- field ref _size;; assign self (with_size s);;
  r <- field ref _reserved;; assign self (with_reserved r);;
  assign ref (with_data nullptr);;
  assign ref (with_size 0);;
  assign ref (with_reserved 0).

(** [Buffer(Buffer&& ref)]: the new object is created from [ref]'s fields
    by the member initialisers, then [ref] is reset. Returns the new object. *)
Definition move_ctor (ref : nat) : Mm nat :=
  r <- field ref _reserved;;
  s <- field ref _size;;
  d <- field ref _data;;
  self <- (fun m => Ok (length (objects m))
             (mkMachine (objects m ++ [mkBuffer r s d]) (m_heap m) (m_trace m)));;
  assign ref (with_data nullptr);;
  assign ref (with_size 0);;
  assign ref (with_reserved 0);;
  ret self.

(** A member function called on object [o]. An exception leaves the object
    as it was at the throw. *)
Definition call {A} (o : nat) (method : Mb A) : Mm A :=
  fun m => match objects m !! o with
           | None => Undefined
           | Some b =>
               match method (mkState b (m_heap m) (m_trace m)) with
               | Ok a s => Ok a (mkMachine (<[o := this s]> (objects m)) (heap s) (trace s))
               | Throw e s => Throw e (mkMachine (<[o := this s]> (objects m)) (heap s) (trace s))
               | Undefined => Undefined
               end
           end.

(** A new object built by one of the constructors above. These delegate to
    [Buffer()], so when the rest of the constructor throws, the object is
    complete and its destructor runs before the exception leaves; the
    object never becomes visible. Returns the new object. *)
Definition new_object (ctor : Mb unit) : Mm nat :=
  fun m => match ctor (mkState (mkBuffer 0 0 nullptr) (m_heap m) (m_trace m)) with
           | Ok _ s => Ok (length (objects m))
                         (mkMachine (objects m ++ [this s]) (heap s) (trace s))
           | Throw e s =>
               match destructor s with
               | Ok _ s' => Throw e (mkMachine (objects m) (heap s') (trace s'))
               | _ => Undefined
               end
           | Undefined => Undefined
           end.

(** ** Vocabulary of the specification *)

(** A buffer is well formed in a heap when [_size <= _reserved] and its
    storage is null with no capacity, or a live block of [_reserved] slots. *)
Definition owns (b : Buffer) (h : heap_t T) : Prop :=
  match _data b with
  | nullptr => _reserved b = 0
  | Ptr k => 0 < _reserved b ∧
             ∃ blk, h !! k = Some (Some blk) ∧ length blk = N.to_nat (_reserved b)
  end.

Definition valid (s : state) : Prop :=
  _size (this s) <= _reserved (this s) ∧ owns (this s) (heap s).

(** The heap after [Allocator::deallocate(p)]. *)
Definition release (p : ptr) (h : heap_t T) : heap_t T :=
  match p with
  | nullptr => h
  | Ptr k => <[k := None]> h
  end.

(** The indices [0, 1, ..., n-1] of a loop over [n] elements. *)
Definition indices (n : N) : list N := N.of_nat <$> seq 0 (N.to_nat n).

(** The events of [_destruct()] over [n] elements at [p]. *)
Definition destroy_events (p : ptr) (n : N) : list event :=
  if is_trivially_destructible then [] else EvDestroy p <$> indices n.

(** The state after a [reserve(n)] that reallocates. *)
Definition grown (n : N) (s : state) : state :=
  let p := Ptr (length (heap s)) in
  let old := _data (this s) in
  let count := _size (this s) in
  mkState (mkBuffer n count p)
    (release old
       (heap s ++ [Some (elements s ++ replicate (N.to_nat n - N.to_nat count) None)]))
    (trace s ++ [EvAllocate n p] ++ (EvRelocate old p <$> indices count)
             ++ destroy_events old count ++ [EvDeallocate old]).

(** The heap after a store of [v] to [p + i]. *)
Definition written (p : ptr) (i : N) (v : slot T) (h : heap_t T) : heap_t T :=
  match p with
  | nullptr => h
  | Ptr k => match h !! k with
             | Some (Some blk) => <[k := Some (<[N.to_nat i := v]> blk)]> h
             | _ => h
             end
  end.

(** The state after [_push_no_checks(v)] when there is room. *)
Definition appended (v : T) (s : state) : state :=
  let b := this s in
  mkState (mkBuffer (_reserved b) (size_wrap (_size b + 1)) (_data b))
    (written (_data b) (_size b) (Some v) (heap s))
    (trace s ++ [EvConstruct (_data b) (_size b)]).

(** The state after a call of the growth policy has been recorded. *)
Definition noted (e : event) (s : state) : state :=
  mkState (this s) (heap s) (trace s ++ [e]).

(** The three ways to insert one element at the end, with an argument of
    the caller's that lies in no heap block. *)
Inductive insertion :=
  | ByCopy (v : T)
  | ByMove (v : T)
  | InPlace (args : CtorArgs).

Definition inserted (op : insertion) : T :=
  match op with
  | ByCopy v | ByMove v => v
  | InPlace args => construct args
  end.

Definition insert (op : insertion) : Mb unit :=
  match op with
  | ByCopy v => push (Outside v)
  | ByMove v => push_move (Outside v)
  | InPlace args => emplace (Args args)
  end.

(** The state after the constructor of a new element has read the element
    [p[i]], of value [v], as its source: a move leaves it moved-from. *)
Definition moved_out (cat : category) (p : ptr) (i : N) (v : T) (s : state) : state :=
  match cat with
  | lvalue => s
  | rvalue => mkState (this s) (written p i (Some (moved_from v)) (heap s)) (trace s)
  end.

(** An insertion as a program writes it for a buffer [b]: with an argument
    that lies in no heap block, or with an element of [b] itself, as in
    [b.push(b[i])], [b.push(std::move(b[i]))], [b.emplace(b[i])] and
    [b.emplace(std::move(b[i]))]. The reference [b[i]] is taken before the
    call. *)
Inductive member := Push | Emplace.

Inductive statement :=
  | Detached (op : insertion)
  | OfItself (f : member) (cat : category) (index : N).

Definition execute (c : statement) : Mb unit :=
  match c with
  | Detached op => insert op
  | OfItself f cat index =>
      r <- index_op index;;
      match f, cat with
      | Push, lvalue => push (Stored (fst r) (snd r))
      | Push, rvalue => push_move (Stored (fst r) (snd r))
      | Emplace, _ => emplace (Element cat (fst r) (snd r))
      end
  end.

(** What a sequence of such insertions is expected to leave, on the plain
    list [l] of the buffer's elements and its capacity [cap]. The value
    passed is the argument's at the time of the call; an element passed as
    an rvalue is left moved-from; the new element goes to the end. *)
Definition passed (l : list T) (c : statement) : option T :=
  match c with
  | Detached op => Some (inserted op)
  | OfItself _ _ index => l !! N.to_nat index
  end.

Definition left_behind (l : list T) (c : statement) : list T :=
  match c with
  | OfItself _ rvalue index => alter moved_from (N.to_nat index) l
  | _ => l
  end.

(** The capacity after an insertion at [size] elements. *)
Definition capacity_after (cap size : N) : N :=
  if size =? cap then next_capacity size else cap.

(** The insertion does not reallocate the storage its argument lies in: the
    argument is outside the heap, or there is room for one more element. *)
Definition argument_stays (cap : N) (l : list T) (c : statement) : bool :=
  match c with
  | Detached _ => true
  | OfItself _ _ _ => N.of_nat (length l) <? cap
  end.


(** The public operations of a program on its Buffer objects: the five
    constructors, move assignment, and the member functions that modify. *)
Inductive operation :=
  | NewDefault
  | NewSized (n : N)
  | NewRange (start : list T) (length : N)
  | NewList (values : list T)
  | NewMoved (ref : nat)
  | MoveAssign (self ref : nat)
  | Insert (o : nat) (op : insertion)
  | Reserve (o : nat) (n : N)
  | Resize (o : nat) (n : N)
  | Clear (o : nat).

Definition discard {A} (m : Mm A) : Mm unit := _ <- m;; ret tt.

Definition perform (op : operation) : Mm unit :=
  match op with
  | NewDefault => discard (new_object Buffer_default)
  | NewSized n => discard (new_object (Buffer_sized n))
  | NewRange start length => discard (new_object (Buffer_range start length))
  | NewList values => discard (new_object (Buffer_list values))
  | NewMoved ref => discard (move_ctor ref)
  | MoveAssign self ref => move_assign self ref
  | Insert o op => call o (insert op)
  | Reserve o n => call o (reserve n)
  | Resize o n => call o (resize n)
  | Clear o => call o clear
  end.

(** The machine states a program can be in: from the start, after any
    number of operations that returned or threw. *)
Inductive reachable : machine -> Prop :=
  | reach_start : reachable (mkMachine [] [] [])
  | reach_return m op m' :
      reachable m -> perform op m = Ok tt m' -> reachable m'
  | reach_throw m op e m' :
      reachable m -> perform op m = Throw e m' -> reachable m'.

(** Every object is well formed in the shared heap, and no two objects
    point to the same block. *)
Definition well_formed (m : machine) : Prop :=
  (∀ o b, objects m !! o = Some b → valid (mkState b (m_heap m) (m_trace m)))
  ∧ (∀ o1 o2 b1 b2 k, o1 ≠ o2 →
       objects m !! o1 = Some b1 → objects m !! o2 = Some b2 →
       _data b1 = Ptr k → _data b2 ≠ Ptr k).

(** What a member function may do to the heap: the object stays well
    formed, its storage is the former one or a block allocated since, and
    the other blocks are as before. *)
Definition steps_within (s s' : state) : Prop :=
  valid s'
  ∧ (length (heap s) ≤ length (heap s'))%nat
  ∧ (∀ k, _data (this s') = Ptr k →
          _data (this s) = Ptr k ∨ (length (heap s) ≤ k)%nat)
  ∧ (∀ k, _data (this s) ≠ Ptr k → (k < length (heap s))%nat →
          heap s' !! k = heap s !! k).

(** The state a call ends in, by return or by exception. *)
Definition ends_in {S A} (r : outcome S A) (s' : S) : Prop :=
  (∃ a, r = Ok a s') ∨ (∃ e, r = Throw e s').

End BufferTemplate.

Arguments state T : clear implicits.
Arguments machine T : clear implicits.

(** ** Element types used in the repository and in the examples below *)

(** [i8], the element of [Buffer<i8>] in [io::File::read] and [Shader]. *)
#[export] Instance i8_ValueType : ValueType byte := {|
  sizeof := 1;
  to_bytes b := [b];
  of_bytes bs := match bs with [b] => Some b | _ => None end;
  is_trivially_destructible := true;
  default_value := x00;
  CtorArgs := byte;
  construct b := b;
  moved_from b := b;
|}.

(** A 16-bit unsigned integer, little endian: trivially copyable, two bytes. *)
Record u16 := mk_u16 { u16_lo : byte; u16_hi : byte }.

#[export] Instance u16_ValueType : ValueType u16 := {|
  sizeof := 2;
  to_bytes v := [u16_lo v; u16_hi v];
  of_bytes bs := match bs with [lo; hi] => Some (mk_u16 lo hi) | _ => None end;
  is_trivially_destructible := true;
  default_value := mk_u16 x00 x00;
  CtorArgs := u16;
  construct v := v;
  moved_from v := v;
|}.

(** A class type with a user-provided destructor, in the style of [Shader]:
    it wraps one byte-sized handle. Declaring the destructor leaves the
    class without a move constructor, so moving from it copies. *)
Record Handle := mkHandle { handle : byte }.

#[export] Instance Handle_ValueType : ValueType Handle := {|
  sizeof := 1;
  to_bytes v := [handle v];
  of_bytes bs := match bs with [b] => Some (mkHandle b) | _ => None end;
  is_trivially_destructible := false;
  default_value := mkHandle x00;
  CtorArgs := byte;
  construct b := mkHandle b;
  moved_from v := v;
|}.



(** The growth policy of the spec's scenario: double, minimum 4. *)
Definition double_min4 (size : N) : N := N.max 4 (2 * size).

(** An allocator that always succeeds, and one with room for [limit] slots
    per request. *)
Definition always_allocate {T} (h : list (option (list (option T)))) (n : N) : bool := true.
Definition allocate_upto {T} (limit : N) (h : list (option (list (option T)))) (n : N) : bool :=
  n <=? limit.

(** Raw storage for one object, an empty heap, nothing called yet. *)
Definition fresh {T} `{ValueType T} : state T := mkState (mkBuffer 0 0 nullptr) [] [].


(** ** Concrete buffers and programs *)

(** A [Buffer<i8>] filled to its capacity of four. *)
Definition full4 : state byte :=
  mkState (mkBuffer 4 4 (Ptr 0))
    [Some [Some "a"%byte; Some "b"%byte; Some "c"%byte; Some "d"%byte]]
    [EvGrowth 0; EvAllocate 4 (Ptr 0); EvDeallocate nullptr;
     EvConstruct (Ptr 0) 0; EvConstruct (Ptr 0) 1;
     EvConstruct (Ptr 0) 2; EvConstruct (Ptr 0) 3].

(** A [Buffer<Handle>] with two live elements, as [Buffer{h1, h2}] builds it. *)
Definition two_handles : state Handle :=
  mkState (mkBuffer 2 2 (Ptr 0))
    [Some [Some (mkHandle x01); Some (mkHandle x02)]]
    [EvAllocate 2 (Ptr 0); EvDeallocate nullptr;
     EvConstruct (Ptr 0) 0; EvConstruct (Ptr 0) 1].

(** Two [Buffer<i8>] objects: object 0 owns block 0, object 1 owns block 1. *)
Definition two_buffers : machine byte :=
  mkMachine [mkBuffer 1 1 (Ptr 0); mkBuffer 2 2 (Ptr 1)]
    [Some [Some "x"%byte]; Some [Some "y"%byte; Some "z"%byte]]
    [].

(** Three insertions, one of each kind. *)
Definition abc : list (@insertion byte i8_ValueType) :=
  [ByCopy "a"%byte; ByMove "b"%byte; InPlace (T:=byte) "c"%byte].




(** A program: build a buffer from a list, push a fifth element (which
    reallocates), move it into a new object, and clear that one. *)
Definition program : list (@operation byte i8_ValueType) :=
  [NewList ["a"; "b"; "c"; "d"]%byte;
   Insert 0 (ByCopy "e"%byte);
   NewMoved 0;
   Clear 1].

Definition after_program : machine byte :=
  mkMachine [mkBuffer 0 0 nullptr; mkBuffer 8 0 (Ptr 1)]
    [None;
     Some [Some "a"; Some "b"; Some "c"; Some "d"; Some "e"; None; None; None]%byte]
    [EvAllocate 4 (Ptr 0); EvDeallocate nullptr;
     EvConstruct (Ptr 0) 0; EvConstruct (Ptr 0) 1;
     EvConstruct (Ptr 0) 2; EvConstruct (Ptr 0) 3;
     EvGrowth 4; EvAllocate 8 (Ptr 1);
     EvRelocate (Ptr 0) (Ptr 1) 0; EvRelocate (Ptr 0) (Ptr 1) 1;
     EvRelocate (Ptr 0) (Ptr 1) 2; EvRelocate (Ptr 0) (Ptr 1) 3;
     EvDeallocate (Ptr 0); EvConstruct (Ptr 1) 4].

(** Three insertions of [Handle]s, one of each kind. *)
Definition three_handles : list (@insertion Handle Handle_ValueType) :=
  [ByCopy (mkHandle x01); ByMove (mkHandle x02); InPlace (T:=Handle) x03].

(** ** Counting element constructions and destructions *)

(** An object comes to life by placement construction, of a new element or
    of one relocated from the old storage; it ends by a destructor call. *)
Definition is_construction (e : event) : bool :=
  match e with EvConstruct _ _ | EvRelocate _ _ _ => true | _ => false end.
Definition is_destruction (e : event) : bool :=
  match e with EvDestroy _ _ => true | _ => false end.

Definition count_events (f : event → bool) (t : list event) : nat :=
  length (List.filter f t).

Definition constructions (t : list event) : nat := count_events is_construction t.
Definition destructions (t : list event) : nat := count_events is_destruction t.

(** ** The lifetime of the object in one slot *)

(** Whether an event begins the lifetime of an object in the slot [p[i]]
    (by placement construction there, of a new element or of a relocated
    one), or ends it (by a destructor call on it). *)
Definition constructs_at (p : ptr) (i : N) (e : event) : bool :=
  match e with
  | EvConstruct q j | EvRelocate _ q j => bool_decide (q = p ∧ j = i)
  | _ => false
  end.

Definition destroys_at (p : ptr) (i : N) (e : event) : bool :=
  match e with
  | EvDestroy q j => bool_decide (q = p ∧ j = i)
  | _ => false
  end.

(** The events of a trace that concern the slot [p[i]], in order. *)
Definition history (p : ptr) (i : N) (t : list event) : list event :=
  List.filter (λ e, constructs_at p i e || destroys_at p i e) t.

(** The slot was never used, or one object was constructed in it and later
    destroyed, once. *)
Definition settled (p : ptr) (i : N) (t : list event) : Prop :=
  history p i t = []
  ∨ ∃ c, constructs_at p i c = true ∧ history p i t = [c; EvDestroy p i].

(** What the calls [d] that a buffer has made so far say about the slots:
    each of its live slots holds the one object constructed there; the
    slots behind them, those of blocks not yet allocated and the null
    pointer have no history; every other slot is settled. *)
Definition accounted {T} (b : Buffer) (h : heap_t T) (d : list event) : Prop :=
  (∀ i, i < _size b →
        ∃ c, constructs_at (_data b) i c = true ∧ history (_data b) i d = [c])
  ∧ (∀ i, _size b <= i → history (_data b) i d = [])
  ∧ (∀ k i, (length h ≤ k)%nat → history (Ptr k) i d = [])
  ∧ (∀ i, history nullptr i d = [])
  ∧ (∀ p i, p ≠ _data b → settled p i d).

(** The blocks a buffer has allocated since the heap was [h0] lie after
    [h0], and the only one of them still allocated is the buffer's storage. *)
Definition confined {T} (h0 : heap_t T) (b : Buffer) (h : heap_t T) : Prop :=
  ∃ l, h = h0 ++ l
       ∧ (∀ k, _data b = Ptr k → (length h0 ≤ k)%nat)
       ∧ (∀ i blk, l !! i = Some (Some blk) → _data b = Ptr (length h0 + i)).

(** * Properties *)

Section BufferProperties.

Context {T : Type} `{VT : ValueType T}.
Variable next_capacity : N -> N.
Variable can_allocate : heap_t T -> N -> bool.

Local Abbreviation reserve' := (reserve can_allocate).

Implicit Types (s : state T) (b : Buffer) (h : heap_t T) (p : ptr) (blk : block T).

Lemma state_eta s : mkState (this s) (heap s) (trace s) = s.
Proof. by destruct s. Qed.

Lemma buffer_eta b : mkBuffer (_reserved b) (_size b) (_data b) = b.
Proof. by destruct b. Qed.

(** *** Running the monad *)

Lemma bind_Ok {S A B} (m : M S A) (k : A → M S B) (st st' : S) a :
  m st = Ok a st' → bind m k st = k a st'.
Proof. unfold bind. by intros ->. Qed.

Lemma bind_Throw {S A B} (m : M S A) (k : A → M S B) (st st' : S) e :
  m st = Throw e st' → bind m k st = Throw e st'.
Proof. unfold bind. by intros ->. Qed.

Lemma bind_get {A B} (f : Buffer → A) (k : A → M (state T) B) s :
  bind (get f) k s = k (f (this s)) s.
Proof. done. Qed.

(** *** Memory and element operations *)

Lemma store_eq k (i : N) v s blk :
  heap s !! k = Some (Some blk) →
  (N.to_nat i < length blk)%nat →
  store (Ptr k) i v s
  = Ok tt (mkState (this s) (<[k := Some (<[N.to_nat i := v]> blk)]> (heap s)) (trace s)).
Proof.
  intros Hk Hi. unfold store. rewrite Hk.
  by destruct (decide (N.to_nat i < length blk)%nat).
Qed.

Lemma move_construct_eq ks kd (i : N) s src dst v :
  heap s !! ks = Some (Some src) →
  heap s !! kd = Some (Some dst) →
  src !! N.to_nat i = Some v →
  (N.to_nat i < length dst)%nat →
  move_construct (Ptr kd) (Ptr ks) i s
  = Ok tt (mkState (this s) (<[kd := Some (<[N.to_nat i := v]> dst)]> (heap s))
             (trace s ++ [EvRelocate (Ptr ks) (Ptr kd) i])).
Proof.
  intros Hs Hd Hv Hi. unfold move_construct.
  erewrite bind_Ok; [|unfold load; by rewrite Hs, Hv].
  erewrite bind_Ok; [|by apply store_eq].
  done.
Qed.

Lemma construct_at_eq k (i : N) v s blk :
  heap s !! k = Some (Some blk) →
  (N.to_nat i < length blk)%nat →
  construct_at (Ptr k) i v s
  = Ok tt (mkState (this s) (<[k := Some (<[N.to_nat i := Some v]> blk)]> (heap s))
             (trace s ++ [EvConstruct (Ptr k) i])).
Proof.
  intros Hk Hi. unfold construct_at.
  erewrite bind_Ok; [|by apply store_eq]. done.
Qed.

Lemma destroy_at_eq k (i : N) s blk :
  heap s !! k = Some (Some blk) →
  (N.to_nat i < length blk)%nat →
  destroy_at (Ptr k) i s
  = Ok tt (mkState (this s) (<[k := Some (<[N.to_nat i := None]> blk)]> (heap s))
             (trace s ++ [EvDestroy (Ptr k) i])).
Proof.
  intros Hk Hi. unfold destroy_at.
  erewrite bind_Ok; [|by apply store_eq]. done.
Qed.

(** *** The loops *)

Lemma relocate_loop ks kd (c : nat) : ∀ (i : nat) s src dst,
  ks ≠ kd →
  heap s !! ks = Some (Some src) →
  heap s !! kd = Some (Some dst) →
  (i + c ≤ length src)%nat →
  (i + c ≤ length dst)%nat →
  for_range (N.of_nat i) c (move_construct (Ptr kd) (Ptr ks)) s
  = Ok tt (mkState (this s)
             (<[kd := Some (take i dst ++ take c (drop i src) ++ drop (i + c) dst)]> (heap s))
             (trace s ++ ((λ j, EvRelocate (Ptr ks) (Ptr kd) (N.of_nat j)) <$> seq i c))).
Proof.
  induction c as [|c IH]; intros i s src dst Hne Hs Hd Hls Hld; simpl.
  - rewrite Nat.add_0_r, take_drop, app_nil_r.
    rewrite list_insert_id by done. by rewrite state_eta.
  - destruct (lookup_lt_is_Some_2 src i) as [v Hv]; [lia|].
    erewrite bind_Ok;
      [|eapply move_construct_eq; rewrite ?Nat2N.id; eauto; lia].
    rewrite Nat2N.id.
    replace (N.of_nat i + 1) with (N.of_nat (S i)) by lia.
    rewrite (IH (S i) _ src (<[i := v]> dst)); simpl; try done.
    + f_equal. f_equal.
      * rewrite list_insert_insert_eq. f_equal. f_equal.
        rewrite (take_S_r _ _ v) by (rewrite list_lookup_insert_eq; [done|lia]).
        rewrite take_insert_ge by lia.
        rewrite <- app_assoc. f_equal. simpl.
        rewrite (drop_S _ v i Hv). simpl. f_equal. f_equal.
        rewrite drop_insert_lt by lia. f_equal. lia.
      * by rewrite <- app_assoc.
    + by rewrite list_lookup_insert_ne.
    + rewrite list_lookup_insert_eq; [done|]. by eapply lookup_lt_Some.
    + lia.
    + rewrite length_insert. lia.
Qed.

(** A loop whose body stores [x] in slot [i] of block [k] and records one
    event fills the slots it runs over. *)
Lemma fill_loop k (x : slot T) (ev : N → event) (body : N → M (state T) unit) :
  (∀ (i : N) s blk, heap s !! k = Some (Some blk) → (N.to_nat i < length blk)%nat →
     body i s = Ok tt (mkState (this s) (<[k := Some (<[N.to_nat i := x]> blk)]> (heap s))
                         (trace s ++ [ev i]))) →
  ∀ (c i : nat) s blk,
  heap s !! k = Some (Some blk) →
  (i + c ≤ length blk)%nat →
  for_range (N.of_nat i) c body s
  = Ok tt (mkState (this s)
             (<[k := Some (take i blk ++ replicate c x ++ drop (i + c) blk)]> (heap s))
             (trace s ++ ((λ j, ev (N.of_nat j)) <$> seq i c))).
Proof.
  intros Hbody. induction c as [|c IH]; intros i s blk Hk Hl; simpl.
  - rewrite Nat.add_0_r, take_drop, app_nil_r.
    rewrite list_insert_id by done. by rewrite state_eta.
  - erewrite bind_Ok; [|eapply Hbody; rewrite ?Nat2N.id; eauto; lia].
    rewrite Nat2N.id.
    replace (N.of_nat i + 1) with (N.of_nat (S i)) by lia.
    rewrite (IH (S i) _ (<[i := x]> blk)); simpl.
    + f_equal. f_equal.
      * rewrite list_insert_insert_eq. f_equal. f_equal.
        rewrite (take_S_r _ _ x) by (rewrite list_lookup_insert_eq; [done|lia]).
        rewrite take_insert_ge by lia.
        rewrite <- app_assoc. f_equal. simpl. f_equal. f_equal.
        rewrite drop_insert_lt by lia. f_equal. lia.
      * by rewrite <- app_assoc.
    + rewrite list_lookup_insert_eq; [done|]. by eapply lookup_lt_Some.
    + rewrite length_insert. lia.
Qed.

Lemma destroy_loop k (c i : nat) s blk :
  heap s !! k = Some (Some blk) →
  (i + c ≤ length blk)%nat →
  for_range (N.of_nat i) c (destroy_at (Ptr k)) s
  = Ok tt (mkState (this s)
             (<[k := Some (take i blk ++ replicate c None ++ drop (i + c) blk)]> (heap s))
             (trace s ++ ((λ j, EvDestroy (Ptr k) (N.of_nat j)) <$> seq i c))).
Proof.
  apply (fill_loop k None (EvDestroy (Ptr k))).
  intros. by apply destroy_at_eq.
Qed.

Lemma construct_loop k v (c i : nat) s blk :
  heap s !! k = Some (Some blk) →
  (i + c ≤ length blk)%nat →
  for_range (N.of_nat i) c (λ elm, construct_at (Ptr k) elm v) s
  = Ok tt (mkState (this s)
             (<[k := Some (take i blk ++ replicate c (Some v) ++ drop (i + c) blk)]> (heap s))
             (trace s ++ ((λ j, EvConstruct (Ptr k) (N.of_nat j)) <$> seq i c))).
Proof.
  apply (fill_loop k (Some v) (EvConstruct (Ptr k))).
  intros. by apply construct_at_eq.
Qed.

Lemma indices_fmap {B} (f : N → B) (n : N) :
  (λ j, f (N.of_nat j)) <$> seq 0 (N.to_nat n) = f <$> indices n.
Proof. unfold indices. by rewrite <- list_fmap_compose. Qed.

(** [_destruct(); _dealloc();] as in [~Buffer()] and at the end of
    [_realloc]: the elements are destroyed and the storage is released. *)
Lemma destructor_eq s :
  match _data (this s) with
  | nullptr => _size (this s) = 0
  | Ptr b => ∃ blk, heap s !! b = Some (Some blk) ∧
                    (N.to_nat (_size (this s)) ≤ length blk)%nat
  end →
  destructor s
  = Ok tt (mkState (this s) (release (_data (this s)) (heap s))
             (trace s ++ destroy_events (_data (this s)) (_size (this s))
                      ++ [EvDeallocate (_data (this s))])).
Proof.
  intros Hown. unfold destructor, _destruct, destroy_events.
  destruct (_data (this s)) as [|b] eqn:Hd.
  - assert (Hnop : (if is_trivially_destructible then ret tt
                    else first <- get _data;; count <- get _size;;
                         for_range 0 (N.to_nat count) (λ i, destroy_at first i)) s
                   = Ok tt s).
    { destruct is_trivially_destructible; [done|].
      rewrite !bind_get, Hown. done. }
    rewrite (bind_Ok _ _ _ _ _ Hnop).
    unfold _dealloc. rewrite bind_get, Hd, Hown. simpl.
    by destruct is_trivially_destructible.
  - destruct Hown as (blk & Hb & Hl).
    destruct is_trivially_destructible.
    + rewrite (bind_Ok _ _ s s tt) by done.
      unfold _dealloc. rewrite bind_get, Hd. unfold deallocate. by rewrite Hb.
    + erewrite bind_Ok.
      2:{ rewrite !bind_get, Hd.
          apply (destroy_loop b _ 0 s blk Hb). simpl. lia. }
      unfold _dealloc. rewrite bind_get. simpl. rewrite Hd. unfold deallocate. simpl.
      rewrite list_lookup_insert_eq by (by eapply lookup_lt_Some).
      rewrite list_insert_insert_eq, indices_fmap, <- app_assoc. done.
Qed.

Lemma destruct_dealloc_eq {A} (k : M (state T) A) s :
  match _data (this s) with
  | nullptr => _size (this s) = 0
  | Ptr b => ∃ blk, heap s !! b = Some (Some blk) ∧
                    (N.to_nat (_size (this s)) ≤ length blk)%nat
  end →
  (_destruct;; _dealloc;; k) s
  = k (mkState (this s) (release (_data (this s)) (heap s))
         (trace s ++ destroy_events (_data (this s)) (_size (this s))
                  ++ [EvDeallocate (_data (this s))])).
Proof.
  intros Hown. pose proof (destructor_eq s Hown) as Heq.
  unfold destructor, bind in *.
  destruct (_destruct s) as [[] s1| |]; [|done..].
  by rewrite Heq.
Qed.

(** *** [reserve] *)

Lemma reserve_noop n s : n <= _reserved (this s) → reserve' n s = Ok tt s.
Proof.
  intros Hn. unfold reserve. rewrite bind_get.
  by destruct (N.ltb_spec (_reserved (this s)) n); [lia|].
Qed.

Lemma reserve_fail n s :
  _reserved (this s) < n → can_allocate (heap s) n = false →
  reserve' n s = Throw AllocationFailure s.
Proof.
  intros Hn Hfail. unfold reserve. rewrite bind_get.
  destruct (N.ltb_spec (_reserved (this s)) n); [|lia].
  apply bind_Throw. unfold _realloc. apply bind_Throw.
  unfold allocate. by rewrite Hfail.
Qed.

Lemma adopt_eq p n s :
  (set_data p;; set_reserved n) s
  = Ok tt (mkState (mkBuffer n (_size (this s)) p) (heap s) (trace s)).
Proof. done. Qed.

Lemma reserve_grow n s :
  valid s → _reserved (this s) < n → can_allocate (heap s) n = true →
  reserve' n s = Ok tt (grown n s).
Proof.
  intros [Hsz Hown] Hn Hok. unfold reserve. rewrite bind_get.
  destruct (N.ltb_spec (_reserved (this s)) n); [|lia].
  unfold _realloc, grown, elements, owns in *.
  set (new := Some (replicate (N.to_nat n) None) : option (block T)).
  assert (Halloc : allocate can_allocate n s
            = Ok (Ptr (length (heap s)))
                (mkState (this s) (heap s ++ [new])
                   (trace s ++ [EvAllocate n (Ptr (length (heap s)))]))).
  { unfold allocate. by rewrite Hok. }
  destruct (_data (this s)) as [|k] eqn:Hd.
  - assert (_size (this s) = 0) as Hz by lia.
    erewrite bind_Ok.
    2:{ erewrite bind_Ok by exact Halloc. rewrite !bind_get. simpl. rewrite Hz. simpl.
        erewrite bind_Ok by done.
        rewrite destruct_dealloc_eq; simpl; rewrite ?Hd; done. }
    rewrite Hz. unfold new, destroy_events. simpl. rewrite Nat.sub_0_r.
    rewrite adopt_eq. simpl. rewrite Hz.
    destruct is_trivially_destructible; simpl; by rewrite <- app_assoc.
  - destruct Hown as (Hpos & blk & Hk & Hlen).
    assert (k < length (heap s))%nat as Hlt by (by eapply lookup_lt_Some).
    erewrite bind_Ok.
    2:{ erewrite bind_Ok by exact Halloc. rewrite !bind_get. simpl. rewrite Hd.
        erewrite bind_Ok.
        2:{ apply (relocate_loop k (length (heap s)) _ 0 _ blk (replicate (N.to_nat n) None)); simpl.
            - lia.
            - by rewrite lookup_app_l.
            - by rewrite list_lookup_middle.
            - lia.
            - rewrite length_replicate. lia. }
        rewrite destruct_dealloc_eq; simpl; rewrite ?Hd.
        - done.
        - exists blk. split; [|lia].
          rewrite list_lookup_insert_ne by lia. by rewrite lookup_app_l. }
    rewrite adopt_eq. simpl. rewrite Hk. f_equal. f_equal.
    + f_equal. rewrite drop_0, drop_replicate.
      replace (length (heap s)) with (length (heap s) + 0)%nat at 1 by lia.
      by rewrite insert_app_r.
    + rewrite indices_fmap, <- !app_assoc. done.
Qed.

Lemma elements_length s :
  valid s → length (elements s) = N.to_nat (_size (this s)).
Proof.
  intros [Hsz Hown]. unfold elements, owns in *.
  destruct (_data (this s)) as [|k]; simpl; [lia|].
  destruct Hown as (_ & blk & -> & Hlen). rewrite length_take. lia.
Qed.

Lemma grown_valid n s : valid s → _reserved (this s) < n → valid (grown n s).
Proof.
  intros Hv Hn. pose proof (elements_length s Hv) as Hlen.
  destruct Hv as [Hsz Hown]. split; simpl; [lia|].
  unfold owns in *. simpl. split; [lia|].
  eexists. split.
  - destruct (_data (this s)) as [|k]; simpl.
    + by apply list_lookup_middle.
    + destruct Hown as (_ & blk & Hk & _).
      apply lookup_lt_Some in Hk.
      rewrite list_lookup_insert_ne by lia. by apply list_lookup_middle.
  - rewrite length_app, length_replicate. lia.
Qed.

Lemma grown_elements n s :
  valid s → _reserved (this s) < n → elements (grown n s) = elements s.
Proof.
  intros Hv Hn. pose proof (elements_length s Hv) as Hlen.
  destruct Hv as [Hsz Hown]. unfold elements at 1. simpl.
  assert (release (_data (this s))
            (heap s ++ [Some (elements s ++
               replicate (N.to_nat n - N.to_nat (_size (this s))) None)])
          !! length (heap s)
          = Some (Some (elements s ++
               replicate (N.to_nat n - N.to_nat (_size (this s))) None))) as ->.
  { unfold owns in Hown. destruct (_data (this s)) as [|k]; simpl.
    - by apply list_lookup_middle.
    - destruct Hown as (_ & blk & Hk & _). apply lookup_lt_Some in Hk.
      rewrite list_lookup_insert_ne by lia. by apply list_lookup_middle. }
  by rewrite take_app_length'.
Qed.

(** *** Insertion at the end *)

Lemma push_no_checks_eq cat v s :
  valid s → _size (this s) < _reserved (this s) →
  _push_no_checks cat (Outside v) s = Ok tt (appended v s).
Proof.
  intros [Hsz Hown] Hroom. unfold _push_no_checks, appended, written, owns in *.
  rewrite !bind_get.
  destruct (_data (this s)) as [|k] eqn:Hd; [lia|].
  destruct Hown as (_ & blk & Hk & Hlen).
  erewrite bind_Ok by done.
  erewrite bind_Ok by done.
  erewrite construct_at_eq; simpl; eauto; [|lia].
  by rewrite Hk, Hd.
Qed.

Lemma appended_valid v s :
  valid s → _size (this s) < _reserved (this s) → valid (appended v s).
Proof.
  intros [Hsz Hown] Hroom. split; simpl.
  - unfold size_wrap. pose proof (N.Div0.mod_le (_size (this s) + 1) (2 ^ 64)). lia.
  - unfold owns, written in *. simpl.
    destruct (_data (this s)) as [|k]; [done|].
    destruct Hown as (Hpos & blk & Hk & Hlen). split; [done|].
    rewrite Hk. eexists. split.
    + apply list_lookup_insert_eq. by eapply lookup_lt_Some.
    + by rewrite length_insert.
Qed.

Lemma appended_elements v s :
  valid s → _size (this s) < _reserved (this s) → _size (this s) < SIZE_MAX →
  elements (appended v s) = elements s ++ [Some v].
Proof.
  intros [Hsz Hown] Hroom Hmax. unfold elements, appended, written, owns in *. simpl.
  destruct (_data (this s)) as [|k]; [lia|].
  destruct Hown as (Hpos & blk & Hk & Hlen). rewrite Hk.
  rewrite list_lookup_insert_eq by (by eapply lookup_lt_Some).
  unfold size_wrap, SIZE_MAX in *. rewrite N.mod_small by lia.
  replace (N.to_nat (_size (this s) + 1)) with (S (N.to_nat (_size (this s)))) by lia.
  rewrite (take_S_r _ _ (Some v)) by (apply list_lookup_insert_eq; lia).
  by rewrite take_insert_ge.
Qed.

Lemma appended_size v s :
  _size (this s) < SIZE_MAX → _size (this (appended v s)) = _size (this s) + 1.
Proof. intros Hmax. simpl. unfold size_wrap, SIZE_MAX in *. apply N.mod_small. lia. Qed.

Lemma grow_room s :
  _size (this s) ≠ _reserved (this s) →
  _grow_if_needed next_capacity can_allocate s = Ok tt s.
Proof.
  intros Hne. unfold _grow_if_needed. rewrite !bind_get.
  by destruct (N.eqb_spec (_size (this s)) (_reserved (this s))).
Qed.

Lemma grow_full s :
  _size (this s) = _reserved (this s) →
  _grow_if_needed next_capacity can_allocate s
  = reserve' (next_capacity (_size (this s))) (noted (EvGrowth (_size (this s))) s).
Proof.
  intros Heq. unfold _grow_if_needed. rewrite !bind_get.
  by destruct (N.eqb_spec (_size (this s)) (_reserved (this s))).
Qed.

(** All three insertions run [_grow_if_needed] and then construct the new
    element in slot [_size]. *)
Lemma insert_unfold op s :
  insert next_capacity can_allocate op s
  = (_grow_if_needed next_capacity can_allocate;;
     _push_no_checks lvalue (Outside (inserted op))) s.
Proof. by destruct op. Qed.

Lemma insert_room op s :
  valid s → _size (this s) < _reserved (this s) →
  insert next_capacity can_allocate op s = Ok tt (appended (inserted op) s).
Proof.
  intros Hv Hroom. rewrite insert_unfold.
  erewrite bind_Ok by (apply grow_room; lia).
  by apply push_no_checks_eq.
Qed.

Lemma noted_valid e s : valid s → valid (noted e s).
Proof. done. Qed.

Lemma insert_full op s :
  valid s → _size (this s) = _reserved (this s) →
  _size (this s) < next_capacity (_size (this s)) →
  can_allocate (heap s) (next_capacity (_size (this s))) = true →
  insert next_capacity can_allocate op s
  = Ok tt (appended (inserted op)
             (grown (next_capacity (_size (this s)))
                (noted (EvGrowth (_size (this s))) s))).
Proof.
  intros Hv Heq Hpol Hal. rewrite insert_unfold.
  erewrite bind_Ok.
  2:{ rewrite grow_full by done. apply reserve_grow; simpl; [done|lia|done]. }
  apply push_no_checks_eq.
  - apply grown_valid; simpl; [done|lia].
  - simpl. lia.
Qed.

(** *** Growth-policy calls in a trace *)

Lemma policy_calls_app t1 t2 :
  policy_calls (t1 ++ t2) = policy_calls t1 ++ policy_calls t2.
Proof. apply omap_app. Qed.

Lemma policy_calls_cons e t :
  policy_calls (e :: t)
  = match e with EvGrowth n => [n] | _ => [] end ++ policy_calls t.
Proof. by destruct e. Qed.

Lemma policy_calls_none {I} (f : I → event) (l : list I) :
  (∀ i, is_policy_call (f i) = false) → policy_calls (f <$> l) = [].
Proof.
  intros Hf. induction l as [|i l IH]; [done|].
  rewrite fmap_cons. change (f i :: (f <$> l)) with ([f i] ++ (f <$> l)).
  rewrite policy_calls_app, IH, app_nil_r.
  specialize (Hf i). by destruct (f i).
Qed.

Lemma policy_calls_destroy p n : policy_calls (destroy_events p n) = [].
Proof.
  unfold destroy_events. destruct is_trivially_destructible; [done|].
  by apply policy_calls_none.
Qed.

(** *** Several objects *)

Lemma field_eq {A} (o : nat) (f : Buffer → A) (m : machine T) b :
  objects m !! o = Some b → field o f m = Ok (f b) m.
Proof. unfold field. by intros ->. Qed.

Lemma assign_eq (o : nat) upd (m : machine T) b :
  objects m !! o = Some b →
  assign o upd m = Ok tt (mkMachine (<[o := upd b]> (objects m)) (m_heap m) (m_trace m)).
Proof. unfold assign. by intros ->. Qed.

(** Move assignment between two different objects. *)
Lemma move_assign_eq (self ref : nat) (m : machine T) x_self x_ref :
  self ≠ ref →
  objects m !! self = Some x_self →
  objects m !! ref = Some x_ref →
  move_assign self ref m
  = Ok tt (mkMachine (<[ref := mkBuffer 0 0 nullptr]> (<[self := x_ref]> (objects m)))
             (m_heap m) (m_trace m)).
Proof.
  intros Hne Hself Href. unfold move_assign.
  pose proof (lookup_lt_Some _ _ _ Hself) as Hls.
  pose proof (lookup_lt_Some _ _ _ Href) as Hlr.
  erewrite bind_Ok by (by apply field_eq).
  erewrite bind_Ok by (by apply assign_eq).
  erewrite bind_Ok by (apply field_eq; simpl; by rewrite list_lookup_insert_ne).
  erewrite bind_Ok by (apply assign_eq; simpl; by rewrite list_lookup_insert_eq).
  erewrite bind_Ok by (apply field_eq; simpl; by rewrite !list_lookup_insert_ne).
  erewrite bind_Ok
    by (apply assign_eq; simpl; by rewrite list_lookup_insert_eq by (by rewrite length_insert)).
  erewrite bind_Ok by (apply assign_eq; simpl; by rewrite !list_lookup_insert_ne).
  erewrite bind_Ok
    by (apply assign_eq; simpl; by rewrite list_lookup_insert_eq by (by rewrite !length_insert)).
  erewrite assign_eq
    by (simpl; by rewrite list_lookup_insert_eq by (by rewrite !length_insert)).
  simpl. rewrite !list_insert_insert_eq. destruct x_ref. done.
Qed.

(** Move assignment of an object to itself. *)
Lemma move_assign_self (o : nat) (m : machine T) x :
  objects m !! o = Some x →
  move_assign o o m
  = Ok tt (mkMachine (<[o := mkBuffer 0 0 nullptr]> (objects m)) (m_heap m) (m_trace m)).
Proof.
  intros Ho. unfold move_assign.
  pose proof (lookup_lt_Some _ _ _ Ho) as Hl.
  erewrite bind_Ok by (by apply field_eq).
  erewrite bind_Ok by (by apply assign_eq).
  erewrite bind_Ok by (apply field_eq; simpl; by rewrite list_lookup_insert_eq).
  erewrite bind_Ok by (apply assign_eq; simpl; by rewrite list_lookup_insert_eq).
  erewrite bind_Ok
    by (apply field_eq; simpl; by rewrite list_lookup_insert_eq by (by rewrite length_insert)).
  erewrite bind_Ok
    by (apply assign_eq; simpl; by rewrite list_lookup_insert_eq by (by rewrite length_insert)).
  erewrite bind_Ok
    by (apply assign_eq; simpl; by rewrite list_lookup_insert_eq by (by rewrite !length_insert)).
  erewrite bind_Ok
    by (apply assign_eq; simpl; by rewrite list_lookup_insert_eq by (by rewrite !length_insert)).
  erewrite assign_eq
    by (simpl; by rewrite list_lookup_insert_eq by (by rewrite !length_insert)).
  simpl. by rewrite !list_insert_insert_eq.
Qed.

Lemma move_ctor_eq (ref : nat) (m : machine T) x_ref :
  objects m !! ref = Some x_ref →
  move_ctor ref m
  = Ok (length (objects m))
      (mkMachine (<[ref := mkBuffer 0 0 nullptr]> (objects m) ++ [x_ref])
         (m_heap m) (m_trace m)).
Proof.
  intros Href. unfold move_ctor.
  pose proof (lookup_lt_Some _ _ _ Href) as Hl.
  do 3 erewrite bind_Ok by (by apply field_eq).
  erewrite bind_Ok by done.
  erewrite bind_Ok by (apply assign_eq; simpl; by rewrite lookup_app_l).
  erewrite bind_Ok
    by (apply assign_eq; simpl; by rewrite list_lookup_insert_eq by (rewrite length_app; lia)).
  erewrite bind_Ok
    by (apply assign_eq; simpl;
        by rewrite list_lookup_insert_eq by (rewrite length_insert, length_app; lia)).
  unfold ret. simpl. rewrite !list_insert_insert_eq, insert_app_l by done.
  destruct x_ref. done.
Qed.

(** The destructor of an empty buffer: the only call it makes is
    [Allocator::deallocate(nullptr)]. *)
Lemma destructor_empty (h : heap_t T) t :
  destructor (mkState (mkBuffer 0 0 nullptr) h t)
  = Ok tt (mkState (mkBuffer 0 0 nullptr) h (t ++ [EvDeallocate nullptr])).
Proof.
  rewrite destructor_eq by done. simpl.
  unfold destroy_events. by destruct is_trivially_destructible.
Qed.

(** *** What the member functions touch *)

Lemma steps_refl s : valid s → steps_within s s.
Proof. intros Hv. split; [done|]. split; [done|]. split; [by left|done]. Qed.

Lemma steps_trans s1 s2 s3 :
  steps_within s1 s2 → steps_within s2 s3 → steps_within s1 s3.
Proof.
  intros (_ & Hl12 & Hd12 & Hf12) (Hv3 & Hl23 & Hd23 & Hf23).
  split; [done|]. split; [lia|]. split.
  - intros k Hk. destruct (Hd23 k Hk) as [Hk2|Hk2]; [by apply Hd12|right; lia].
  - intros k Hne Hlt. rewrite Hf23; [by apply Hf12| |lia].
    intros Hk2. destruct (Hd12 k Hk2); [done|lia].
Qed.

(** A change of the object's own block that keeps its length, and of
    [_size] within the capacity. *)
Lemma steps_own s sz (h' : heap_t T) t :
  valid s → sz <= _reserved (this s) →
  match _data (this s) with
  | nullptr => h' = heap s
  | Ptr k => ∃ blk blk', heap s !! k = Some (Some blk) ∧ length blk' = length blk
                         ∧ h' = <[k := Some blk']> (heap s)
  end →
  steps_within s (mkState (mkBuffer (_reserved (this s)) sz (_data (this s))) h' t).
Proof.
  intros [Hsz Hown] Hle Hh. unfold steps_within, valid, owns in *. simpl.
  destruct (_data (this s)) as [|k].
  - subst h'. repeat split; done.
  - destruct Hown as (Hpos & blk0 & Hk0 & Hlen0).
    destruct Hh as (blk & blk' & Hk & Hlen & ->). simplify_eq.
    pose proof (lookup_lt_Some _ _ _ Hk0) as Hlt.
    split; [split; [done|split; [done|]]|].
    + exists blk'. split; [by apply list_lookup_insert_eq|lia].
    + split; [by rewrite length_insert|]. split; [by left|].
      intros k' Hne _. apply list_lookup_insert_ne. congruence.
Qed.

Lemma steps_noted e s : valid s → steps_within s (noted e s).
Proof. intros Hv. split; [done|]. split; [done|]. split; [by left|done]. Qed.

Lemma steps_grown n s :
  valid s → _reserved (this s) < n → steps_within s (grown n s).
Proof.
  intros Hv Hn. split; [by apply grown_valid|].
  destruct Hv as [Hsz Hown]. unfold owns in Hown. simpl.
  split; [|split].
  - destruct (_data (this s)); simpl; rewrite ?length_insert, length_app; lia.
  - intros k [= <-]. by right.
  - intros k Hne Hlt. destruct (_data (this s)) as [|k0]; simpl.
    + by rewrite lookup_app_l.
    + rewrite list_lookup_insert_ne by congruence. by rewrite lookup_app_l.
Qed.

Lemma steps_appended v s :
  valid s → _size (this s) < _reserved (this s) → steps_within s (appended v s).
Proof.
  intros Hv Hroom. unfold appended.
  apply steps_own; [done| |].
  - unfold size_wrap. pose proof (N.Div0.mod_le (_size (this s) + 1) (2 ^ 64)). lia.
  - destruct Hv as [Hsz Hown]. unfold owns, written in *.
    destruct (_data (this s)) as [|k]; [done|].
    destruct Hown as (_ & blk & Hk & _). rewrite Hk.
    eexists _, _. split; [done|]. split; [|done]. by rewrite length_insert.
Qed.

Lemma ends_in_Ok {S A} (a : A) (st st' : S) : ends_in (Ok a st) st' → st' = st.
Proof. by intros [[? [= _ ->]]|[? [=]]]. Qed.

Lemma ends_in_Throw {S A} e (st st' : S) : ends_in (Throw (A:=A) e st) st' → st' = st.
Proof. by intros [[? [=]]|[? [= _ ->]]]. Qed.

Lemma ends_in_Undefined {S A} (st' : S) : ¬ ends_in (Undefined (A:=A)) st'.
Proof. by intros [[? [=]]|[? [=]]]. Qed.

Lemma reserve_steps n s s' :
  valid s → ends_in (reserve' n s) s' → steps_within s s'.
Proof.
  intros Hv Hend.
  destruct (N.le_gt_cases n (_reserved (this s))) as [Hle|Hgt].
  - rewrite reserve_noop in Hend by done.
    apply ends_in_Ok in Hend as ->. by apply steps_refl.
  - destruct (can_allocate (heap s) n) eqn:Hal.
    + rewrite reserve_grow in Hend by done.
      apply ends_in_Ok in Hend as ->. by apply steps_grown.
    + rewrite reserve_fail in Hend by done.
      apply ends_in_Throw in Hend as ->. by apply steps_refl.
Qed.

(** Without room the placement construction is out of bounds. *)
Lemma push_no_checks_full cat v s :
  valid s → _size (this s) = _reserved (this s) →
  _push_no_checks cat (Outside v) s = Undefined.
Proof.
  intros [Hsz Hown] Hfull. unfold _push_no_checks, owns in *. rewrite !bind_get.
  erewrite bind_Ok by done. unfold construct_at, bind, store. simpl.
  destruct (_data (this s)) as [|k]; [done|].
  destruct Hown as (_ & blk & -> & Hlen).
  by destruct (decide (N.to_nat (_size (this s)) < length blk)%nat); [lia|].
Qed.

Lemma insert_steps op s s' :
  valid s → ends_in (insert next_capacity can_allocate op s) s' → steps_within s s'.
Proof.
  intros Hv Hend. rewrite insert_unfold in Hend.
  destruct (N.eq_dec (_size (this s)) (_reserved (this s))) as [Heq|Hne].
  - set (r := next_capacity (_size (this s))) in *.
    set (s0 := noted (EvGrowth (_size (this s))) s) in *.
    assert (_grow_if_needed next_capacity can_allocate s = reserve' r s0) as Hgrow
      by (by apply grow_full).
    apply (steps_trans _ s0); [by apply steps_noted|].
    destruct (N.le_gt_cases r (_reserved (this s0))) as [Hle|Hgt].
    + erewrite bind_Ok in Hend by (rewrite Hgrow; by apply reserve_noop).
      rewrite push_no_checks_full in Hend by done.
      by apply ends_in_Undefined in Hend.
    + destruct (can_allocate (heap s0) r) eqn:Hal.
      * erewrite bind_Ok in Hend by (rewrite Hgrow; by apply reserve_grow).
        assert (valid (grown r s0)) as Hv1 by (by apply grown_valid).
        rewrite push_no_checks_eq in Hend; [|done|simpl in *; lia].
        apply ends_in_Ok in Hend as ->.
        apply (steps_trans _ (grown r s0)); [by apply steps_grown|].
        apply steps_appended; [done|simpl in *; lia].
      * erewrite bind_Throw in Hend by (rewrite Hgrow; by apply reserve_fail).
        apply ends_in_Throw in Hend as ->. by apply steps_refl.
  - assert (_size (this s) < _reserved (this s)) as Hroom by (destruct Hv; lia).
    erewrite bind_Ok in Hend by (by apply grow_room).
    rewrite push_no_checks_eq in Hend by done.
    apply ends_in_Ok in Hend as ->. by apply steps_appended.
Qed.

(** [clear()] only sets [_size] to 0: when [_destruct()] runs, the range
    [begin(), end()) is already empty. *)
Lemma clear_eq s :
  clear s = Ok tt (mkState (mkBuffer (_reserved (this s)) 0 (_data (this s)))
                     (heap s) (trace s)).
Proof.
  unfold clear. erewrite bind_Ok by done. unfold _destruct.
  destruct is_trivially_destructible; [done|].
  by rewrite !bind_get.
Qed.

Lemma clear_steps s s' : valid s → ends_in (clear s) s' → steps_within s s'.
Proof.
  intros Hv Hend. rewrite clear_eq in Hend. apply ends_in_Ok in Hend as ->.
  apply steps_own; [done|lia|].
  destruct Hv as [_ Hown]. unfold owns in Hown.
  destruct (_data (this s)) as [|k]; [done|].
  destruct Hown as (_ & blk & Hk & _).
  exists blk, blk. split; [done|]. split; [done|]. by rewrite list_insert_id.
Qed.

Lemma ends_in_bind {S A B} (m : M S A) (k : A → M S B) (st st' : S) :
  ends_in (bind m k st) st' →
  (∃ e, m st = Throw e st') ∨ (∃ a st1, m st = Ok a st1 ∧ ends_in (k a st1) st').
Proof.
  unfold bind. destruct (m st) as [a st1|e st1|] eqn:Hm; intros Hend.
  - right. by exists a, st1.
  - left. apply ends_in_Throw in Hend as ->. by exists e.
  - by apply ends_in_Undefined in Hend.
Qed.

Lemma reserve_size n s s1 :
  valid s → reserve' n s = Ok tt s1 → _size (this s1) = _size (this s).
Proof.
  intros Hv Hrun.
  destruct (N.le_gt_cases n (_reserved (this s))) as [Hle|Hgt].
  - rewrite reserve_noop in Hrun by done. by simplify_eq.
  - destruct (can_allocate (heap s) n) eqn:Hal.
    + rewrite reserve_grow in Hrun by done. by simplify_eq.
    + by rewrite reserve_fail in Hrun.
Qed.

Lemma reserve_capacity n s s1 :
  valid s → reserve' n s = Ok tt s1 → n <= _reserved (this s1).
Proof.
  intros Hv Hrun.
  destruct (N.le_gt_cases n (_reserved (this s))) as [Hle|Hgt].
  - rewrite reserve_noop in Hrun by done. by simplify_eq.
  - destruct (can_allocate (heap s) n) eqn:Hal.
    + rewrite reserve_grow in Hrun by done. simplify_eq. done.
    + by rewrite reserve_fail in Hrun.
Qed.

(** The second half of [resize(n)]: default-construct the slots
    [_size, n) and set [_size]. *)
Lemma resize_fill_steps n s s' :
  valid s → n <= _reserved (this s) →
  ends_in ((old <- get _size;;
            d <- get _data;;
            for_range old (N.to_nat (n - old)) (λ elm, construct_at d elm default_value);;
            set_size n) s) s' →
  steps_within s s'.
Proof.
  intros Hv Hn. rewrite !bind_get. pose proof Hv as [Hsz Hown].
  unfold owns in Hown. destruct (_data (this s)) as [|k] eqn:Hd.
  - replace (N.to_nat (n - _size (this s))) with 0%nat by lia. simpl.
    intros Hend. apply ends_in_Ok in Hend as ->. simpl.
    apply steps_own; [done|done|]. by rewrite Hd.
  - destruct Hown as (Hpos & blk & Hk & Hlen).
    rewrite <- (N2Nat.id (_size (this s))) at 1.
    erewrite bind_Ok by (apply (construct_loop k); [done|lia]).
    intros Hend. apply ends_in_Ok in Hend as ->. simpl.
    apply steps_own; [done|done|]. rewrite Hd.
    eexists _, _. split; [done|]. split; [|done].
    rewrite !length_app, length_take, length_replicate, length_drop. lia.
Qed.

Lemma resize_steps n s s' :
  valid s → ends_in (resize can_allocate n s) s' → steps_within s s'.
Proof.
  intros Hv Hend. unfold resize in Hend.
  apply ends_in_bind in Hend as [[e Hthrow]|([] & s1 & Hrun & Hend)].
  - apply reserve_steps with (n := n); [done|]. right. by exists e.
  - assert (steps_within s s1) as H1
      by (apply reserve_steps with (n := n); [done|left; by exists tt]).
    apply (steps_trans _ s1); [done|].
    apply resize_fill_steps with (n := n); [by destruct H1| |done].
    by eapply reserve_capacity.
Qed.

Lemma length_block_of_bytes (slots : nat) bs :
  length (block_of_bytes slots bs) = slots.
Proof. revert bs. induction slots as [|k IH]; intros bs; simpl; [done|]. by rewrite IH. Qed.

Lemma memcpy_steps src n s s' :
  valid s → ends_in (memcpy (_data (this s)) src n s) s' →
  this s' = this s ∧ trace s' = trace s
  ∧ match _data (this s) with
    | nullptr => heap s' = heap s
    | Ptr k => ∃ blk blk', heap s !! k = Some (Some blk) ∧ length blk' = length blk
                           ∧ heap s' = <[k := Some blk']> (heap s)
    end.
Proof.
  intros [_ Hown] Hend. unfold memcpy, owns in *.
  destruct (n =? 0).
  - apply ends_in_Ok in Hend as ->. split; [done|split; [done|]].
    destruct (_data (this s)) as [|k]; [done|].
    destruct Hown as (_ & blk & Hk & _).
    exists blk, blk. split; [done|split; [done|]]. by rewrite list_insert_id.
  - destruct (_data (this s)) as [|k]; [by apply ends_in_Undefined in Hend|].
    destruct Hown as (_ & blk & Hk & _). rewrite Hk in Hend.
    destruct (decide _); [|by apply ends_in_Undefined in Hend].
    apply ends_in_Ok in Hend as ->. simpl. split; [done|split; [done|]].
    eexists _, _. split; [done|]. split; [|done]. apply length_block_of_bytes.
Qed.

(** *** The constructors, run on raw storage for the object *)

Lemma Buffer_sized_steps n raw (h : heap_t T) t s' :
  ends_in (Buffer_sized can_allocate n (mkState raw h t)) s' →
  steps_within (mkState (mkBuffer 0 0 nullptr) h t) s'.
Proof.
  intros Hend. unfold Buffer_sized in Hend.
  erewrite bind_Ok in Hend by done.
  eapply resize_steps; [|done]. split; simpl; [lia|done].
Qed.

Lemma Buffer_range_steps start len raw (h : heap_t T) t s' :
  ends_in (Buffer_range can_allocate start len (mkState raw h t)) s' →
  steps_within (mkState (mkBuffer 0 0 nullptr) h t) s'.
Proof.
  intros Hend. unfold Buffer_range in Hend.
  erewrite bind_Ok in Hend by done.
  set (s0 := mkState (mkBuffer 0 0 nullptr) h t) in *.
  assert (valid s0) as Hv0 by (split; simpl; [lia|done]).
  apply ends_in_bind in Hend as [[e Hthrow]|([] & s1 & Hrun & Hend)].
  - apply reserve_steps with (n := len); [done|]. right. by exists e.
  - assert (steps_within s0 s1) as H1
      by (apply reserve_steps with (n := len); [done|left; by exists tt]).
    pose proof (reserve_capacity _ _ _ Hv0 Hrun) as Hcap.
    apply (steps_trans _ s1); [done|].
    rewrite bind_get in Hend.
    apply ends_in_bind in Hend as [[e Hthrow]|([] & s2 & Hcopy & Hend)].
    + destruct (memcpy_steps (concat (to_bytes <$> start)) len s1 s') as (Hthis & _ & Hheap);
        [by destruct H1|right; by exists e|].
      destruct s' as [b' h' t']. simpl in *. subst b'.
      rewrite <- (buffer_eta (this s1)).
      pose proof H1 as (Hv1 & _).
      apply steps_own; [done|by destruct Hv1|done].
    + destruct (memcpy_steps (concat (to_bytes <$> start)) len s1 s2) as (Hthis & _ & Hheap);
        [by destruct H1|left; by exists tt|].
      apply ends_in_Ok in Hend as ->. simpl. rewrite Hthis.
      apply steps_own; [by destruct H1|done|done].
Qed.

Lemma push_list_steps (values : list T) : ∀ s,
  valid s →
  _size (this s) + N.of_nat (length values) <= _reserved (this s) →
  ∃ s', for_each values (λ v, _push_no_checks lvalue (Outside v)) s = Ok tt s'
        ∧ steps_within s s'.
Proof.
  induction values as [|v values IH]; intros s Hv Hroom.
  - exists s. split; [done|by apply steps_refl].
  - simpl length in Hroom.
    assert (_size (this s) < _reserved (this s)) as Hlt by lia.
    destruct (IH (appended v s)) as (s' & Hrun & Hsteps).
    { by apply appended_valid. }
    { simpl. unfold size_wrap.
      pose proof (N.Div0.mod_le (_size (this s) + 1) (2 ^ 64)). lia. }
    exists s'. split.
    + simpl. erewrite bind_Ok by (by apply push_no_checks_eq). done.
    + apply (steps_trans _ (appended v s)); [by apply steps_appended|done].
Qed.

Lemma Buffer_list_steps values raw (h : heap_t T) t s' :
  ends_in (Buffer_list can_allocate values (mkState raw h t)) s' →
  steps_within (mkState (mkBuffer 0 0 nullptr) h t) s'.
Proof.
  intros Hend. unfold Buffer_list in Hend.
  erewrite bind_Ok in Hend by done.
  set (s0 := mkState (mkBuffer 0 0 nullptr) h t) in *.
  assert (valid s0) as Hv0 by (split; simpl; [lia|done]).
  apply ends_in_bind in Hend as [[e Hthrow]|([] & s1 & Hrun & Hend)].
  - apply reserve_steps with (n := N.of_nat (length values)); [done|]. right. by exists e.
  - assert (steps_within s0 s1) as H1
      by (apply reserve_steps with (n := N.of_nat (length values));
          [done|left; by exists tt]).
    pose proof (reserve_capacity _ _ _ Hv0 Hrun) as Hcap.
    assert (_size (this s1) = 0) as Hz
      by (by rewrite (reserve_size _ _ _ Hv0 Hrun)).
    destruct (push_list_steps values s1) as (s2 & Hrun2 & H2); [by destruct H1|lia|].
    rewrite Hrun2 in Hend. apply ends_in_Ok in Hend as ->.
    by apply (steps_trans _ s1).
Qed.

(** *** Well-formedness of all objects is preserved *)

Lemma valid_frame b (h h' : heap_t T) t t' :
  valid (mkState b h t) →
  (∀ k, _data b = Ptr k → h' !! k = h !! k) →
  valid (mkState b h' t').
Proof.
  intros [Hsz Hown] Hsame. split; [done|]. unfold owns in *. simpl in *.
  destruct (_data b) as [|k]; [done|]. by rewrite Hsame.
Qed.

Lemma valid_block_lt b (h : heap_t T) t k :
  valid (mkState b h t) → _data b = Ptr k → (k < length h)%nat.
Proof.
  intros [_ Hown] Hd. unfold owns in Hown. simpl in Hown. rewrite Hd in Hown.
  destruct Hown as (_ & blk & Hk & _). by eapply lookup_lt_Some.
Qed.

(** The machine after object [o] went from [b] to the state [s1]. *)
Lemma well_formed_update (m : machine T) o b s1 :
  well_formed m →
  objects m !! o = Some b →
  steps_within (mkState b (m_heap m) (m_trace m)) s1 →
  well_formed (mkMachine (<[o := this s1]> (objects m)) (heap s1) (trace s1)).
Proof.
  intros [Hvalid Hdisj] Ho (Hv1 & Hlen & Hdata & Hframe). simpl in *.
  pose proof (lookup_lt_Some _ _ _ Ho) as Hlt.
  split; simpl.
  - intros o' b' Ho'. destruct (decide (o' = o)) as [->|Hne].
    + rewrite list_lookup_insert_eq in Ho' by done. simplify_eq. by destruct s1.
    + rewrite list_lookup_insert_ne in Ho' by done.
      apply (valid_frame _ (m_heap m) _ (m_trace m)); [by eapply Hvalid|].
      intros k Hk. apply Hframe.
      * intros Hb. by apply (Hdisj o o' b b' k).
      * eapply valid_block_lt; [by eapply Hvalid|done].
  - assert (∀ o' b' k, o' ≠ o → objects m !! o' = Some b' →
              _data (this s1) = Ptr k → _data b' ≠ Ptr k) as Hfresh.
    { intros o' b' k Hne Ho' Hk Hk'.
      pose proof (valid_block_lt _ _ _ _ (Hvalid _ _ Ho') Hk').
      destruct (Hdata k Hk) as [Hold|Hnew]; [|lia].
      by apply (Hdisj o o' b b' k). }
    intros o1 o2 b1 b2 k Hne H1 H2 Hk1 Hk2.
    destruct (decide (o1 = o)) as [->|Hne1]; destruct (decide (o2 = o)) as [->|Hne2].
    + done.
    + rewrite list_lookup_insert_eq in H1 by done.
      rewrite list_lookup_insert_ne in H2 by done. simplify_eq.
      by apply (Hfresh o2 b2 k).
    + rewrite list_lookup_insert_ne in H1 by done.
      rewrite list_lookup_insert_eq in H2 by done. simplify_eq.
      by apply (Hfresh o1 b1 k).
    + rewrite list_lookup_insert_ne in H1, H2 by done.
      by apply (Hdisj o1 o2 b1 b2 k).
Qed.

Lemma call_preserves {A} o (method : M (state T) A) (m m' : machine T) :
  well_formed m →
  (∀ s s', valid s → ends_in (method s) s' → steps_within s s') →
  ends_in (call o method m) m' →
  well_formed m'.
Proof.
  intros Hwf Hmethod Hend. unfold call in Hend.
  destruct (objects m !! o) as [b|] eqn:Ho; [|by apply ends_in_Undefined in Hend].
  pose proof (proj1 Hwf _ _ Ho) as Hv.
  destruct (method _) as [a s1|e s1|] eqn:Hrun.
  - apply ends_in_Ok in Hend as ->.
    apply (well_formed_update m o b s1); [done|done|].
    apply Hmethod; [done|]. left. by exists a.
  - apply ends_in_Throw in Hend as ->.
    apply (well_formed_update m o b s1); [done|done|].
    apply Hmethod; [done|]. right. by exists e.
  - by apply ends_in_Undefined in Hend.
Qed.

Lemma new_object_preserves (ctor : M (state T) unit) (m m' : machine T) :
  well_formed m →
  (∀ h t s', ends_in (ctor (mkState (mkBuffer 0 0 nullptr) h t)) s' →
             steps_within (mkState (mkBuffer 0 0 nullptr) h t) s') →
  ends_in (discard (new_object ctor) m) m' →
  well_formed m'.
Proof.
  intros [Hvalid Hdisj] Hctor Hend. unfold discard in Hend.
  assert (∀ s1 t', steps_within (mkState (mkBuffer 0 0 nullptr) (m_heap m) (m_trace m)) s1 →
            ∀ o b, objects m !! o = Some b →
                   valid (mkState b (heap s1) t')
                   ∧ ∀ k, _data (this s1) = Ptr k → _data b ≠ Ptr k) as Hothers.
  { intros s1 t' (Hv1 & Hlen & Hdata & Hframe) o b Ho. simpl in *. split.
    - apply (valid_frame _ (m_heap m) _ (m_trace m)); [by eapply Hvalid|].
      intros k Hk. apply Hframe; [done|].
      eapply valid_block_lt; [by eapply Hvalid|done].
    - intros k Hk Hk'.
      pose proof (valid_block_lt _ _ _ _ (Hvalid _ _ Ho) Hk').
      destruct (Hdata k Hk); [done|lia]. }
  unfold new_object, bind in Hend.
  destruct (ctor _) as [[] s1|e s1|] eqn:Hrun.
  - apply ends_in_Ok in Hend as ->.
    assert (steps_within (mkState (mkBuffer 0 0 nullptr) (m_heap m) (m_trace m)) s1) as H1
      by (apply Hctor; left; by exists tt).
    split; simpl.
    + intros o b Ho. apply lookup_app_Some in Ho as [Ho|[_ Ho]].
      * by apply (Hothers s1 (trace s1) H1 o b).
      * apply list_lookup_singleton_Some in Ho as [_ <-]. destruct H1 as [Hv1 _].
        by destruct s1.
    + intros o1 o2 b1 b2 k Hne Ho1 Ho2 Hk1 Hk2.
      apply lookup_app_Some in Ho1 as [Ho1|[Hl1 Ho1]];
        apply lookup_app_Some in Ho2 as [Ho2|[Hl2 Ho2]].
      * by apply (Hdisj o1 o2 b1 b2 k).
      * apply list_lookup_singleton_Some in Ho2 as [_ <-].
        by apply (proj2 (Hothers s1 (trace s1) H1 o1 b1 Ho1) k).
      * apply list_lookup_singleton_Some in Ho1 as [_ <-].
        by apply (proj2 (Hothers s1 (trace s1) H1 o2 b2 Ho2) k).
      * apply list_lookup_singleton_Some in Ho1 as [? _].
        apply list_lookup_singleton_Some in Ho2 as [? _]. lia.
  - assert (steps_within (mkState (mkBuffer 0 0 nullptr) (m_heap m) (m_trace m)) s1) as H1
      by (apply Hctor; right; by exists e).
    pose proof H1 as (Hv1 & Hlen & Hdata & Hframe).
    rewrite destructor_eq in Hend.
    2:{ destruct Hv1 as [Hsz Hown]. unfold owns in Hown.
        destruct (_data (this s1)) as [|k]; [lia|].
        destruct Hown as (_ & blk & Hk & Hl). exists blk. split; [done|lia]. }
    apply ends_in_Throw in Hend as ->.
    split; simpl; [|done].
    intros o b Ho.
    destruct (Hothers s1 (trace s1) H1 o b Ho) as [Hvb Hfresh].
    apply (valid_frame _ (heap s1) _ (trace s1)); [done|].
    intros k Hk. destruct (_data (this s1)) as [|k1] eqn:Hd1; simpl; [done|].
    apply list_lookup_insert_ne. intros ->. by apply (Hfresh k).
  - by apply ends_in_Undefined in Hend.
Qed.

Lemma valid_empty (h : heap_t T) t : valid (mkState (mkBuffer 0 0 nullptr) h t).
Proof. split; simpl; [lia|done]. Qed.

Lemma move_assign_preserves self ref (m m' : machine T) :
  well_formed m → ends_in (move_assign self ref m) m' → well_formed m'.
Proof.
  intros [Hvalid Hdisj] Hend.
  destruct (objects m !! ref) as [x_ref|] eqn:Href.
  2:{ unfold move_assign, bind, field in Hend. rewrite Href in Hend.
      by apply ends_in_Undefined in Hend. }
  destruct (objects m !! self) as [x_self|] eqn:Hself.
  2:{ unfold move_assign in Hend. erewrite bind_Ok in Hend by (by apply field_eq).
      unfold bind, assign in Hend. rewrite Hself in Hend.
      by apply ends_in_Undefined in Hend. }
  pose proof (lookup_lt_Some _ _ _ Href) as Hlr.
  pose proof (lookup_lt_Some _ _ _ Hself) as Hls.
  destruct (decide (self = ref)) as [->|Hne].
  - erewrite move_assign_self in Hend by done.
    apply ends_in_Ok in Hend as ->. split; simpl.
    + intros o b Ho. destruct (decide (o = ref)) as [->|Hno].
      * rewrite list_lookup_insert_eq in Ho by done. simplify_eq. apply valid_empty.
      * rewrite list_lookup_insert_ne in Ho by done. by eapply Hvalid.
    + intros o1 o2 b1 b2 k Hno H1 H2 Hk1 Hk2.
      destruct (decide (o1 = ref)) as [->|Hn1].
      { rewrite list_lookup_insert_eq in H1 by done. by simplify_eq. }
      destruct (decide (o2 = ref)) as [->|Hn2].
      { rewrite list_lookup_insert_eq in H2 by done. by simplify_eq. }
      rewrite list_lookup_insert_ne in H1, H2 by done.
      by apply (Hdisj o1 o2 b1 b2 k).
  - erewrite move_assign_eq in Hend by done.
    apply ends_in_Ok in Hend as ->.
    assert (∀ o b, <[ref:=mkBuffer 0 0 nullptr]> (<[self:=x_ref]> (objects m)) !! o = Some b →
              (o = ref ∧ b = mkBuffer 0 0 nullptr) ∨ (o = self ∧ b = x_ref)
              ∨ (o ≠ ref ∧ o ≠ self ∧ objects m !! o = Some b)) as Hcases.
    { intros o b Ho. destruct (decide (o = ref)) as [->|Hn1].
      { rewrite list_lookup_insert_eq in Ho by (by rewrite length_insert).
        left. by simplify_eq. }
      rewrite list_lookup_insert_ne in Ho by done.
      destruct (decide (o = self)) as [->|Hn2].
      { rewrite list_lookup_insert_eq in Ho by done. right. left. by simplify_eq. }
      rewrite list_lookup_insert_ne in Ho by done. by right; right. }
    split; simpl.
    + intros o b Ho. destruct (Hcases o b Ho) as [[-> ->]|[[-> ->]|(_ & _ & Ho')]].
      * apply valid_empty.
      * by eapply Hvalid.
      * by eapply Hvalid.
    + intros o1 o2 b1 b2 k Hno H1 H2 Hk1 Hk2.
      destruct (Hcases o1 b1 H1) as [[-> ->]|[[-> ->]|(Hr1 & Hs1 & Ho1)]];
        destruct (Hcases o2 b2 H2) as [[-> ->]|[[-> ->]|(Hr2 & Hs2 & Ho2)]];
        try done.
      all: eapply (Hdisj _ _ _ _ k); [| | |exact Hk1|exact Hk2]; [|eassumption..]; done.
Qed.

Lemma move_ctor_preserves ref (m m' : machine T) :
  well_formed m → ends_in (discard (move_ctor ref) m) m' → well_formed m'.
Proof.
  intros [Hvalid Hdisj] Hend. unfold discard in Hend.
  destruct (objects m !! ref) as [x_ref|] eqn:Href.
  2:{ unfold move_ctor, bind, field in Hend. rewrite Href in Hend.
      by apply ends_in_Undefined in Hend. }
  pose proof (lookup_lt_Some _ _ _ Href) as Hlr.
  erewrite bind_Ok in Hend by (by apply move_ctor_eq).
  apply ends_in_Ok in Hend as ->.
  assert (∀ o b, (<[ref:=mkBuffer 0 0 nullptr]> (objects m) ++ [x_ref]) !! o = Some b →
            (o = ref ∧ b = mkBuffer 0 0 nullptr) ∨ (o = length (objects m) ∧ b = x_ref)
            ∨ (o ≠ ref ∧ o ≠ length (objects m) ∧ objects m !! o = Some b)) as Hcases.
  { intros o b Ho. apply lookup_app_Some in Ho as [Ho|[Hl Ho]].
    - destruct (decide (o = ref)) as [->|Hn1].
      + rewrite list_lookup_insert_eq in Ho by done. left. by simplify_eq.
      + rewrite list_lookup_insert_ne in Ho by done. right. right.
        pose proof (lookup_lt_Some _ _ _ Ho). split; [done|]. split; [lia|done].
    - apply list_lookup_singleton_Some in Ho as [Hz <-].
      rewrite length_insert in Hl, Hz. right. left. split; [lia|done]. }
  split; simpl.
  - intros o b Ho. destruct (Hcases o b Ho) as [[-> ->]|[[-> ->]|(_ & _ & Ho')]].
    + apply valid_empty.
    + by eapply Hvalid.
    + by eapply Hvalid.
  - intros o1 o2 b1 b2 k Hno H1 H2 Hk1 Hk2.
    destruct (Hcases o1 b1 H1) as [[-> ->]|[[-> ->]|(Hr1 & Hs1 & Ho1)]];
      destruct (Hcases o2 b2 H2) as [[-> ->]|[[-> ->]|(Hr2 & Hs2 & Ho2)]];
      try done.
    all: eapply (Hdisj _ _ _ _ k); [| | |exact Hk1|exact Hk2]; [|eassumption..]; done.
Qed.

(** Every operation preserves well-formedness, whether it returns or throws. *)
Lemma perform_preserves op (m m' : machine T) :
  well_formed m →
  ends_in (perform next_capacity can_allocate op m) m' →
  well_formed m'.
Proof.
  intros Hwf Hend. destruct op; simpl in Hend.
  - eapply new_object_preserves; [done| |done].
    intros h t s' Hs. apply ends_in_Ok in Hs as ->. apply steps_refl, valid_empty.
  - eapply new_object_preserves; [done| |done].
    intros h t s'. apply Buffer_sized_steps.
  - eapply new_object_preserves; [done| |done].
    intros h t s'. apply Buffer_range_steps.
  - eapply new_object_preserves; [done| |done].
    intros h t s'. apply Buffer_list_steps.
  - by eapply move_ctor_preserves.
  - by eapply move_assign_preserves.
  - eapply call_preserves; [done| |done]. intros s s'. apply insert_steps.
  - eapply call_preserves; [done| |done]. intros s s'. apply reserve_steps.
  - eapply call_preserves; [done| |done]. intros s s'. apply resize_steps.
  - eapply call_preserves; [done| |done]. intros s s'. apply clear_steps.
Qed.

Lemma reachable_well_formed (m : machine T) :
  reachable next_capacity can_allocate m → well_formed m.
Proof.
  induction 1 as [|m op m' _ IH Hrun|m op e m' _ IH Hrun].
  - split; intros; simplify_eq/=.
  - eapply perform_preserves; [done|]. left. by exists tt.
  - eapply perform_preserves; [done|]. right. by exists e.
Qed.

(** *** Reuse after [clear()] *)

(** Insertions that fit the capacity call neither the allocator nor the
    growth policy and keep the storage. *)
Lemma inserts_with_room (ops : list (insertion (T:=T))) : ∀ s,
  valid s →
  _size (this s) + N.of_nat (length ops) <= _reserved (this s) →
  _size (this s) + N.of_nat (length ops) <= SIZE_MAX →
  ∃ s' delta,
    for_each ops (insert next_capacity can_allocate) s = Ok tt s'
    ∧ _reserved (this s') = _reserved (this s)
    ∧ _data (this s') = _data (this s)
    ∧ _size (this s') = _size (this s) + N.of_nat (length ops)
    ∧ trace s' = trace s ++ delta
    ∧ Forall (λ e, is_allocator_call e = false ∧ is_policy_call e = false) delta.
Proof.
  induction ops as [|op ops IH]; intros s Hv Hroom Hmax.
  - exists s, []. simpl. rewrite app_nil_r.
    repeat split; try done. lia.
  - simpl length in *.
    assert (_size (this s) < _reserved (this s)) as Hlt by lia.
    destruct (IH (appended (inserted op) s)) as (s' & delta & Hrun & Hcap & Hd & Hsz & Ht & Hall).
    { by apply appended_valid. }
    { rewrite appended_size by lia. simpl. lia. }
    { rewrite appended_size by lia. lia. }
    exists s', (EvConstruct (_data (this s)) (_size (this s)) :: delta).
    split; [simpl; by erewrite bind_Ok by (by apply insert_room)|].
    split; [done|]. split; [done|].
    split; [rewrite Hsz, appended_size by lia; lia|].
    split; [rewrite Ht; simpl; by rewrite <- app_assoc|].
    by constructor.
Qed.

(** After [clear()], as many insertions as there were elements reuse the
    storage: no allocator call, no growth-policy call. *)
Lemma clear_reuse (ops : list (insertion (T:=T))) s :
  valid s →
  _size (this s) <= SIZE_MAX →
  N.of_nat (length ops) <= _size (this s) →
  ∃ s' delta,
    (clear;; for_each ops (insert next_capacity can_allocate)) s = Ok tt s'
    ∧ _reserved (this s') = _reserved (this s)
    ∧ _data (this s') = _data (this s)
    ∧ _size (this s') = N.of_nat (length ops)
    ∧ trace s' = trace s ++ delta
    ∧ Forall (λ e, is_allocator_call e = false ∧ is_policy_call e = false) delta.
Proof.
  intros Hv Hmax Hlen.
  set (s0 := mkState (mkBuffer (_reserved (this s)) 0 (_data (this s))) (heap s) (trace s)).
  assert (steps_within s s0) as [Hv0 _].
  { apply clear_steps; [done|]. left. exists tt. apply clear_eq. }
  destruct (inserts_with_room ops s0) as (s' & delta & Hrun & Hrest); [done|..].
  { destruct Hv. simpl. lia. } { simpl. lia. }
  exists s', delta. split; [|done].
  by erewrite bind_Ok by apply clear_eq.
Qed.

(** A program whose operations all return ends in a reachable state. *)
Lemma reachable_program (ops : list (operation (T:=T))) : ∀ m m' : machine T,
  reachable next_capacity can_allocate m →
  for_each ops (perform next_capacity can_allocate) m = Ok tt m' →
  reachable next_capacity can_allocate m'.
Proof.
  induction ops as [|op ops IH]; intros m m' Hreach Hrun; simpl in Hrun.
  - unfold ret in Hrun. by simplify_eq.
  - unfold bind in Hrun.
    destruct (perform _ _ op m) as [[] m1| |] eqn:Hop; [|done..].
    apply (IH m1); [|done]. by eapply reach_return.
Qed.

(** *** Arguments that are elements of a buffer *)

Lemma load_frame p (i : N) (o : slot T) s s1 :
  load p i s = Ok o s → heap s1 = heap s → load p i s1 = Ok o s1.
Proof.
  unfold load. intros Hl ->. destruct p as [|k]; [done|].
  destruct (heap s !! k) as [[blk|]|]; try done.
  destruct (blk !! N.to_nat i); [|done]. by simplify_eq.
Qed.

Lemma load_Some p (i : N) (o : slot T) s :
  load p i s = Ok o s →
  ∃ k blk, p = Ptr k ∧ heap s !! k = Some (Some blk) ∧ blk !! N.to_nat i = Some o.
Proof.
  unfold load. intros Hl. destruct p as [|k]; [done|].
  destruct (heap s !! k) as [[blk|]|] eqn:Hk; try done.
  destruct (blk !! N.to_nat i) eqn:Hi; [|done]. simplify_eq. by exists k, blk.
Qed.

(** The constructor reads the element that lives in [p[i]]. *)
Lemma forward_stored cat p (i : N) v s :
  load p i s = Ok (Some v) s →
  forward cat (Stored p i) s = Ok v (moved_out cat p i v s).
Proof.
  intros Hl. unfold forward. erewrite bind_Ok by done.
  destruct cat; [done|]. simpl.
  apply load_Some in Hl as (k & blk & -> & Hk & Hi).
  erewrite bind_Ok by (apply store_eq; [done|by eapply lookup_lt_Some]).
  unfold written. by rewrite Hk.
Qed.

(** Where nothing can be read, the constructor's read is undefined. *)
Lemma forward_dangling cat p (i : N) s :
  load p i s = Undefined → forward cat (Stored p i) s = Undefined.
Proof. intros Hl. unfold forward, bind. by rewrite Hl. Qed.

(** An insertion that finds its argument alive in [p[i]] behaves as one
    with an argument of that value from outside, after the source was
    moved from (if it is). *)
Lemma push_no_checks_stored cat p (i : N) v s :
  load p i s = Ok (Some v) s →
  _push_no_checks cat (Stored p i) s
  = _push_no_checks cat (Outside v) (moved_out cat p i v s).
Proof.
  intros Hl. unfold _push_no_checks. rewrite !bind_get.
  erewrite bind_Ok by done.
  erewrite bind_Ok by (apply forward_stored; by eapply load_frame).
  by destruct cat.
Qed.

Lemma push_no_checks_dangling cat p (i : N) s :
  load p i s = Undefined → _push_no_checks cat (Stored p i) s = Undefined.
Proof.
  intros Hl. unfold _push_no_checks. rewrite !bind_get.
  erewrite bind_Ok by done.
  unfold bind at 1. rewrite forward_dangling; [done|]. revert Hl. unfold load. simpl.
  destruct p as [|k]; [done|]. destruct (heap s !! k) as [[blk|]|]; try done.
  by destruct (blk !! N.to_nat i).
Qed.

Lemma grow_steps s s1 :
  valid s → _grow_if_needed next_capacity can_allocate s = Ok tt s1 → steps_within s s1.
Proof.
  intros Hv Hrun.
  destruct (N.eq_dec (_size (this s)) (_reserved (this s))) as [Heq|Hne].
  - rewrite grow_full in Hrun by done.
    apply (steps_trans _ (noted (EvGrowth (_size (this s))) s)); [by apply steps_noted|].
    eapply reserve_steps; [done|]. left. by exists tt.
  - rewrite grow_room in Hrun by done. simplify_eq. by apply steps_refl.
Qed.

(** An element of a live block that is not the buffer's own storage stays
    where it is while the buffer grows: to pass it as an lvalue is to pass
    its value from outside, so what holds for arguments from outside holds
    for elements of other buffers. *)
Lemma push_elsewhere p (i : N) v s :
  valid s → load p i s = Ok (Some v) s → p ≠ _data (this s) →
  push next_capacity can_allocate (Stored p i) s
  = push next_capacity can_allocate (Outside v) s
  ∧ emplace next_capacity can_allocate (Element lvalue p i) s
    = push next_capacity can_allocate (Outside v) s.
Proof.
  intros Hv Hl Hp.
  assert (push next_capacity can_allocate (Stored p i) s
          = push next_capacity can_allocate (Outside v) s) as Heq.
  { unfold push, bind.
    destruct (_grow_if_needed _ _ s) as [[] s1| |] eqn:Hgrow; [|done..].
    apply (push_no_checks_stored lvalue).
    destruct (grow_steps s s1 Hv Hgrow) as (_ & _ & _ & Hframe).
    apply load_Some in Hl as (k & blk & -> & Hk & Hi).
    unfold load. rewrite Hframe, Hk, Hi; [done|done|by eapply lookup_lt_Some]. }
  split; [done|]. by rewrite <- Heq.
Qed.

Lemma moved_out_valid cat p (i : N) v s : valid s → valid (moved_out cat p i v s).
Proof.
  intros [Hsz Hown]. destruct cat; [done|]. split; [done|].
  simpl. unfold owns, written in *. simpl.
  destruct (_data (this s)) as [|k]; [done|].
  destruct Hown as (Hpos & blk & Hk & Hlen). split; [done|].
  destruct p as [|k']; [by exists blk|].
  destruct (heap s !! k') as [[blk'|]|] eqn:Hk'; try by exists blk.
  destruct (decide (k = k')) as [->|Hne].
  - simplify_eq. eexists. split.
    + apply list_lookup_insert_eq. by eapply lookup_lt_Some.
    + by rewrite length_insert.
  - exists blk. by rewrite list_lookup_insert_ne.
Qed.

Lemma alter_as_insert {A} (f : A → A) (l : list A) (i : nat) x :
  l !! i = Some x → alter f i l = <[i := f x]> l.
Proof.
  intros Hi. apply list_eq. intros j. destruct (decide (i = j)) as [->|Hne].
  - rewrite list_lookup_alter_eq, Hi. simpl. symmetry.
    apply list_lookup_insert_eq. by eapply lookup_lt_Some.
  - by rewrite list_lookup_alter_ne, list_lookup_insert_ne.
Qed.

(** The live elements as a plain list of values: its length is [_size]. *)
Lemma elements_values_length s (l : list T) :
  valid s → elements s = Some <$> l → N.of_nat (length l) = _size (this s).
Proof.
  intros Hv Hel. pose proof (elements_length s Hv) as Hlen.
  rewrite Hel, length_fmap in Hlen. lia.
Qed.

Lemma load_live (i : N) v s (l : list T) :
  valid s → elements s = Some <$> l → l !! N.to_nat i = Some v →
  load (_data (this s)) i s = Ok (Some v) s.
Proof.
  intros [Hsz Hown] Hel Hi. unfold elements, owns, load in *.
  destruct (_data (this s)) as [|k].
  { destruct l; [done|]. by simplify_eq/=. }
  destruct Hown as (_ & blk & Hk & Hlen). rewrite Hk in Hel |- *.
  assert (take (N.to_nat (_size (this s))) blk !! N.to_nat i = Some (Some v)) as Hv.
  { rewrite Hel, list_lookup_fmap, Hi. done. }
  apply lookup_take_Some in Hv as [-> _]. done.
Qed.

Lemma moved_out_elements cat (i : N) v s (l : list T) :
  valid s → elements s = Some <$> l → l !! N.to_nat i = Some v →
  elements (moved_out cat (_data (this s)) i v s)
  = Some <$> match cat with
             | lvalue => l
             | rvalue => alter moved_from (N.to_nat i) l
             end.
Proof.
  intros Hv Hel Hi. destruct cat; [done|].
  pose proof (elements_values_length s l Hv Hel) as Hlen.
  pose proof (lookup_lt_Some _ _ _ Hi) as Hlt.
  destruct Hv as [Hsz Hown]. unfold elements, owns, written in *. simpl.
  destruct (_data (this s)) as [|k]; [lia|].
  destruct Hown as (_ & blk & Hk & Hblk). unfold written. rewrite Hk in Hel |- *.
  rewrite list_lookup_insert_eq by (by eapply lookup_lt_Some).
  rewrite take_insert_lt by lia. rewrite Hel.
  by rewrite (alter_as_insert _ _ _ v), list_fmap_insert.
Qed.

Lemma index_op_eq (debug : bool) (i : N) s :
  i < _size (this s) → index_op debug i s = Ok (_data (this s), i) s.
Proof.
  intros Hi. unfold index_op. rewrite !bind_get.
  destruct (N.leb_spec (_size (this s)) i) as [|_]; [lia|].
  by rewrite andb_false_r.
Qed.

(** The four call forms with an element as argument run [_grow_if_needed]
    and then construct the new element from the reference. *)
Lemma execute_unfold (debug : bool) f cat (i : N) s :
  i < _size (this s) →
  execute next_capacity can_allocate debug (OfItself f cat i) s
  = (_grow_if_needed next_capacity can_allocate;;
     _push_no_checks cat (Stored (_data (this s)) i)) s.
Proof.
  intros Hi. unfold execute. erewrite bind_Ok by (by apply index_op_eq).
  by destruct f, cat.
Qed.

(** With room, an element of the buffer itself is a sound argument. *)
Lemma execute_own (debug : bool) f cat (i : N) v s (l : list T) :
  valid s → elements s = Some <$> l → l !! N.to_nat i = Some v →
  _size (this s) < _reserved (this s) →
  execute next_capacity can_allocate debug (OfItself f cat i) s
  = Ok tt (appended v (moved_out cat (_data (this s)) i v s)).
Proof.
  intros Hv Hel Hi Hroom.
  pose proof (elements_values_length s l Hv Hel) as Hlen.
  pose proof (lookup_lt_Some _ _ _ Hi) as Hlt.
  rewrite execute_unfold by lia.
  erewrite bind_Ok by (apply grow_room; lia).
  rewrite (push_no_checks_stored _ _ _ v) by (by eapply load_live).
  apply push_no_checks_eq; [by apply moved_out_valid|by destruct cat].
Qed.

(** Without room the storage is reallocated first, and the reference then
    points into the released block: reading through it is undefined. *)
Lemma execute_own_full (debug : bool) f cat (i : N) s :
  valid s → i < _size (this s) →
  _size (this s) = _reserved (this s) →
  _size (this s) < next_capacity (_size (this s)) →
  can_allocate (heap s) (next_capacity (_size (this s))) = true →
  execute next_capacity can_allocate debug (OfItself f cat i) s = Undefined.
Proof.
  intros Hv Hi Hfull Hpol Hal. rewrite execute_unfold by done.
  erewrite bind_Ok.
  2:{ rewrite grow_full by done. apply reserve_grow; simpl; [done|lia|done]. }
  apply push_no_checks_dangling.
  destruct Hv as [_ Hown]. unfold owns in Hown. unfold load. simpl.
  destruct (_data (this s)) as [|k]; [done|].
  destruct Hown as (_ & blk & Hk & _). apply lookup_lt_Some in Hk. simpl.
  rewrite list_lookup_insert_eq; [done|]. rewrite length_app. lia.
Qed.

(** One insertion whose argument stays where it is: it returns, and the
    buffer holds the elements that were there (one of them moved from, if
    it was passed as an rvalue) followed by the value passed. The policy's
    contract and the allocator's room are needed only when the buffer is
    full. *)
Lemma execute_spec (debug : bool) c s (l : list T) v :
  valid s → elements s = Some <$> l →
  _size (this s) < SIZE_MAX →
  (_size (this s) = _reserved (this s) →
   _size (this s) < next_capacity (_size (this s))
   ∧ can_allocate (heap s) (next_capacity (_size (this s))) = true) →
  argument_stays (_reserved (this s)) l c = true →
  passed l c = Some v →
  ∃ s', execute next_capacity can_allocate debug c s = Ok tt s'
        ∧ valid s'
        ∧ _size (this s') = _size (this s) + 1
        ∧ _reserved (this s')
          = capacity_after next_capacity (_reserved (this s)) (_size (this s))
        ∧ elements s' = Some <$> (left_behind l c ++ [v]).
Proof.
  intros Hv Hel Hmax Hfull Hstay Hpass. unfold capacity_after.
  destruct c as [op|f cat i]; simpl in Hstay, Hpass.
  - simplify_eq. simpl. rewrite fmap_app, <- Hel.
    destruct (N.eqb_spec (_size (this s)) (_reserved (this s))) as [Heq|Hne].
    + destruct (Hfull Heq) as [Hpol Hal].
      set (s1 := grown (next_capacity (_size (this s))) (noted (EvGrowth (_size (this s))) s)).
      assert (valid s1) as Hv1 by (apply grown_valid; simpl; [done|lia]).
      assert (_size (this s1) < _reserved (this s1)) as Hroom by done.
      exists (appended (inserted op) s1). split; [by apply insert_full|].
      split; [by apply appended_valid|]. split; [by rewrite appended_size|].
      split; [done|].
      rewrite appended_elements by done. f_equal.
      unfold s1. rewrite grown_elements; simpl; [done|done|lia].
    + assert (_size (this s) < _reserved (this s)) as Hroom by (destruct Hv; lia).
      exists (appended (inserted op) s). split; [by apply insert_room|].
      split; [by apply appended_valid|]. split; [by apply appended_size|].
      split; [done|]. by apply appended_elements.
  - pose proof (elements_values_length s l Hv Hel) as Hlen.
    apply N.ltb_lt in Hstay.
    assert (_size (this s) < _reserved (this s)) as Hroom by lia.
    set (s1 := moved_out cat (_data (this s)) i v s).
    assert (valid s1) as Hv1 by (by apply moved_out_valid).
    assert (this s1 = this s) as Hthis by (by destruct cat).
    exists (appended v s1). split; [by eapply execute_own|].
    split; [apply appended_valid; [done|by rewrite Hthis]|].
    split; [rewrite appended_size by (by rewrite Hthis); by rewrite Hthis|].
    split.
    + simpl. rewrite Hthis. by destruct (N.eqb_spec (_size (this s)) (_reserved (this s))); [lia|].
    + rewrite appended_elements by (by rewrite ?Hthis).
      unfold s1. rewrite (moved_out_elements cat i v s l) by done.
      rewrite fmap_app. by destruct cat.
Qed.



(** * The properties of the specification *)


(** C5: [reserve(n)] on a well-formed buffer returns or fails with the
    allocator's failure; in both cases capacity does not decrease, size is
    unchanged and the live elements [0, size) keep their values and order;
    when [n <= capacity] it returns and changes nothing at all. *)
Theorem C5_reserve_frame (n : N) s :
  valid s →
  ∃ s', (reserve' n s = Ok tt s' ∨ reserve' n s = Throw AllocationFailure s')
        ∧ capacity (this s) <= capacity (this s')
        ∧ size (this s') = size (this s)
        ∧ elements s' = elements s
        ∧ (n <= capacity (this s) → reserve' n s = Ok tt s ∧ s' = s).
Proof.
  intros Hv. unfold capacity, size.
  destruct (N.le_gt_cases n (_reserved (this s))) as [Hle|Hgt].
  - exists s. rewrite reserve_noop by done. repeat split; auto; lia.
  - destruct (can_allocate (heap s) n) eqn:Hal.
    + exists (grown n s). rewrite reserve_grow by done.
      split; [by left|]. split; [simpl; lia|]. split; [done|].
      split; [by apply grown_elements|]. lia.
    + exists s. rewrite reserve_fail by done.
      split; [by right|]. repeat split; try done; lia.
Qed.

(** C6: on a well-formed buffer, an insertion with [size < capacity] does not
    call the growth policy; an insertion with [size == capacity == K] calls it
    exactly once, with argument K, and (given [next_capacity(K) > K] and
    room in the allocator) leaves [capacity() == next_capacity(K)]; the
    relocation pass moves the elements [0, K) and the new element is
    constructed in slot K of the new storage after it. When the allocator
    has no room, the one policy call is all that happened. *)
Theorem C6_growth_policy_invocation (op : insertion (T:=T)) s :
  valid s →
  (size (this s) < capacity (this s) →
     ∃ s', insert next_capacity can_allocate op s = Ok tt s'
           ∧ trace s' = trace s ++ [EvConstruct (_data (this s)) (size (this s))]
           ∧ policy_calls (trace s') = policy_calls (trace s)
           ∧ capacity (this s') = capacity (this s))
  ∧ (∀ K, size (this s) = K → capacity (this s) = K →
     K < next_capacity K →
     can_allocate (heap s) (next_capacity K) = true →
     ∃ s', insert next_capacity can_allocate op s = Ok tt s'
           ∧ trace s' = trace s
               ++ [EvGrowth K; EvAllocate (next_capacity K) (data (this s'))]
               ++ (EvRelocate (data (this s)) (data (this s')) <$> indices K)
               ++ destroy_events (data (this s)) K
               ++ [EvDeallocate (data (this s)); EvConstruct (data (this s')) K]
           ∧ policy_calls (trace s') = policy_calls (trace s) ++ [K]
           ∧ capacity (this s') = next_capacity K)
  ∧ (∀ K, size (this s) = K → capacity (this s) = K →
     K < next_capacity K →
     can_allocate (heap s) (next_capacity K) = false →
     insert next_capacity can_allocate op s
     = Throw AllocationFailure (noted (EvGrowth K) s)).
Proof.
  intros Hv. unfold size, capacity, data. split; [|split].
  - intros Hroom. exists (appended (inserted op) s).
    split; [by apply insert_room|]. split; [done|]. split; [|done].
    simpl. rewrite policy_calls_app. apply app_nil_r.
  - intros K HK Hcap Hpol Hal. subst K.
    eexists. split; [by apply insert_full|]. simpl. split; [|split; [|done]].
    + rewrite <- !app_assoc. simpl. rewrite <- !app_assoc. done.
    + rewrite !policy_calls_app, !policy_calls_cons, !policy_calls_app.
      rewrite policy_calls_destroy, policy_calls_none by done.
      simpl. by rewrite !app_nil_r.
  - intros K HK Hcap Hpol Hal. subst K. rewrite insert_unfold.
    apply bind_Throw. rewrite grow_full by done.
    apply reserve_fail; simpl; [lia|done].
Qed.

(** C7: when [Allocator::allocate] fails during [reserve(n)], the failure
    reaches the caller as it is, and the buffer, the heap and the trace are
    those from before the call. *)
Theorem C7_reserve_allocation_failure (n : N) s :
  capacity (this s) < n →
  can_allocate (heap s) n = false →
  reserve' n s = Throw AllocationFailure s.
Proof. intros Hn Hfail. by apply reserve_fail. Qed.

(** C8: with [RDX_DEBUG] defined, [operator[]] (mutable and const) with
    [index >= size] throws the "index out of bounds" exception and leaves the
    state as it was; with [index < size] it returns the reference
    [_data[index]], and on a well-formed buffer that slot is the element at
    position [index] of the live range. *)
Theorem C8_debug_index_check (index : N) s :
  (size (this s) <= index →
     index_op true index s = Throw (Exception "index out of bounds") s
     ∧ index_op_const true index s = Throw (Exception "index out of bounds") s)
  ∧ (index < size (this s) →
     index_op true index s = Ok (data (this s), index) s
     ∧ index_op_const true index s = Ok (data (this s), index) s
     ∧ (valid s → ∃ v, elements s !! N.to_nat index = Some v
                       ∧ load (data (this s)) index s = Ok v s)).
Proof.
  unfold size, data, index_op, index_op_const. rewrite !bind_get. split.
  - intros Hge. simpl. by destruct (N.leb_spec (_size (this s)) index); [|lia].
  - intros Hlt. simpl. destruct (N.leb_spec (_size (this s)) index); [lia|].
    rewrite !bind_get. split; [done|split; [done|]].
    intros [Hsz Hown]. unfold elements, owns, load in *.
    destruct (_data (this s)) as [|k]; [lia|].
    destruct Hown as (_ & blk & Hk & Hlen). rewrite Hk.
    destruct (lookup_lt_is_Some_2 blk (N.to_nat index)) as [v Hv]; [lia|].
    exists v. rewrite Hv. split; [|done].
    rewrite lookup_take_lt by lia. done.
Qed.

(** C4: after move assignment [b2 = move(b1)] or move construction of a
    new [b2] from [b1] (two different objects), [b2] holds [b1]'s former
    size, capacity and storage, whose content is untouched; [b1] is in the
    empty state (size 0, capacity 0, null storage); and running [b1]'s
    destructor afterwards returns, destroys no element and releases no
    storage: its only call is [Allocator::deallocate(nullptr)]. *)
Theorem C4_move_transfers (m : machine T) (b1 b2 : nat) (x1 x2 : Buffer) :
  b1 ≠ b2 →
  objects m !! b1 = Some x1 →
  objects m !! b2 = Some x2 →
  (∃ m', move_assign b2 b1 m = Ok tt m'
     ∧ objects m' !! b2 = Some x1
     ∧ objects m' !! b1 = Some (mkBuffer 0 0 nullptr)
     ∧ m_heap m' = m_heap m ∧ m_trace m' = m_trace m
     ∧ ∃ m'', call b1 destructor m' = Ok tt m''
         ∧ objects m'' = objects m' ∧ m_heap m'' = m_heap m'
         ∧ m_trace m'' = m_trace m' ++ [EvDeallocate nullptr])
  ∧ (∃ m' (b3 : nat), move_ctor b1 m = Ok b3 m'
     ∧ b3 = length (objects m)
     ∧ objects m' !! b3 = Some x1
     ∧ objects m' !! b1 = Some (mkBuffer 0 0 nullptr)
     ∧ m_heap m' = m_heap m ∧ m_trace m' = m_trace m
     ∧ ∃ m'', call b1 destructor m' = Ok tt m''
         ∧ objects m'' = objects m' ∧ m_heap m'' = m_heap m'
         ∧ m_trace m'' = m_trace m' ++ [EvDeallocate nullptr]).
Proof.
  intros Hne H1 H2.
  pose proof (lookup_lt_Some _ _ _ H1) as Hl1.
  pose proof (lookup_lt_Some _ _ _ H2) as Hl2.
  assert (∀ m' : machine T, objects m' !! b1 = Some (mkBuffer 0 0 nullptr) →
            ∃ m'', call b1 destructor m' = Ok tt m''
              ∧ objects m'' = objects m' ∧ m_heap m'' = m_heap m'
              ∧ m_trace m'' = m_trace m' ++ [EvDeallocate nullptr]) as Hdtor.
  { intros m' Hb1. unfold call. rewrite Hb1, destructor_empty.
    eexists. split; [done|]. simpl. split; [|done].
    by apply list_insert_id. }
  split.
  - eexists. split; [by eapply move_assign_eq|].
    assert (<[b1:=mkBuffer 0 0 nullptr]> (<[b2:=x1]> (objects m)) !! b1
            = Some (mkBuffer 0 0 nullptr)) as Hb1
      by (by rewrite list_lookup_insert_eq by (by rewrite length_insert)).
    split; [|split; [done|split; [done|split; [done|by apply Hdtor]]]].
    simpl. rewrite list_lookup_insert_ne by done. by rewrite list_lookup_insert_eq.
  - eexists _, _. split; [by eapply move_ctor_eq|].
    assert ((<[b1:=mkBuffer 0 0 nullptr]> (objects m) ++ [x1]) !! b1
            = Some (mkBuffer 0 0 nullptr)) as Hb1.
    { rewrite lookup_app_l by (by rewrite length_insert).
      by rewrite list_lookup_insert_eq. }
    split; [done|split; [|split; [done|split; [done|split; [done|by apply Hdtor]]]]].
    simpl. rewrite <- (length_insert (objects m) b1 (mkBuffer 0 0 nullptr)).
    by rewrite list_lookup_middle.
Qed.

(** C10: move assignment onto a target that owns storage calls no element
    destructor and no allocator function (the trace is unchanged); the
    target's former block stays allocated in the heap with its content, and
    neither object points to it any more: it is abandoned, not released.
    When source and target are different objects, the target's three fields
    are overwritten with the source's and the source is reset. *)
Theorem C10_move_assign_abandons_storage (m : machine T) (self ref : nat)
    (x_self x_ref : Buffer) (k : nat) (blk : block T) :
  objects m !! self = Some x_self →
  objects m !! ref = Some x_ref →
  _data x_self = Ptr k →
  m_heap m !! k = Some (Some blk) →
  (self ≠ ref → _data x_ref ≠ Ptr k) →
  ∃ m', move_assign self ref m = Ok tt m'
     ∧ m_trace m' = m_trace m
     ∧ m_heap m' !! k = Some (Some blk)
     ∧ (∀ o b, o = self ∨ o = ref → objects m' !! o = Some b → _data b ≠ Ptr k)
     ∧ (self ≠ ref →
        objects m' !! self = Some x_ref
        ∧ objects m' !! ref = Some (mkBuffer 0 0 nullptr)).
Proof.
  intros Hs Hr Hd Hk Hother.
  pose proof (lookup_lt_Some _ _ _ Hs) as Hls.
  pose proof (lookup_lt_Some _ _ _ Hr) as Hlr.
  destruct (decide (self = ref)) as [->|Hne].
  - eexists. split; [by eapply move_assign_self|].
    split; [done|]. split; [done|]. split; [|done].
    intros o b Ho Hb. simpl in Hb.
    assert (o = ref) as -> by (by destruct Ho).
    rewrite list_lookup_insert_eq in Hb by done. by simplify_eq.
  - eexists. split; [by eapply move_assign_eq|]. simpl.
    assert (<[ref:=mkBuffer 0 0 nullptr]> (<[self:=x_ref]> (objects m)) !! self
            = Some x_ref) as Hself'.
    { rewrite list_lookup_insert_ne by done. by rewrite list_lookup_insert_eq. }
    assert (<[ref:=mkBuffer 0 0 nullptr]> (<[self:=x_ref]> (objects m)) !! ref
            = Some (mkBuffer 0 0 nullptr)) as Href'
      by (by rewrite list_lookup_insert_eq by (by rewrite length_insert)).
    split; [done|split; [done|split; [|done]]].
    intros o b [->| ->] Hb; rewrite ?Hself', ?Href' in Hb; simplify_eq; [by apply Hother|done].
Qed.

(** C9: in every machine state reachable through the public operations
    (the five constructors, [push]/[emplace], [reserve], [resize], [clear],
    move construction and move assignment, returning or throwing), every
    Buffer object has [capacity >= size] and a null storage pointer exactly
    when [capacity == 0]; and whatever operation comes next, both hold again
    for every object in the state it ends in. *)
Theorem C9_capacity_and_storage_invariants (m : machine T) :
  reachable next_capacity can_allocate m →
  (∀ o b, objects m !! o = Some b →
     size b <= capacity b ∧ (data b = nullptr ↔ capacity b = 0))
  ∧ (∀ op m', ends_in (perform next_capacity can_allocate op m) m' →
       ∀ o b, objects m' !! o = Some b →
         size b <= capacity b ∧ (data b = nullptr ↔ capacity b = 0)).
Proof.
  intros Hreach.
  assert (∀ m0 : machine T, well_formed m0 → ∀ o b, objects m0 !! o = Some b →
            size b <= capacity b ∧ (data b = nullptr ↔ capacity b = 0)) as Hinv.
  { intros m0 [Hvalid _] o b Ho. destruct (Hvalid o b Ho) as [Hsz Hown].
    unfold size, capacity, data, owns in *. simpl in *. split; [done|].
    destruct (_data b) as [|k]; [done|].
    destruct Hown as (Hpos & _). split; [done|lia]. }
  pose proof (reachable_well_formed m Hreach) as Hwf.
  split; [by apply Hinv|].
  intros op m' Hend. apply Hinv. by eapply perform_preserves.
Qed.

End BufferProperties.

(** * Buffer<i8>: the range constructor on bytes *)

Lemma concat_singletons (l : list byte) : concat ((λ b, [b]) <$> l) = l.
Proof. induction l as [|b l IH]; csimpl; [done|]. by rewrite IH. Qed.

Lemma block_of_bytes_i8 (l : list byte) :
  block_of_bytes (T:=byte) (length l) (Some <$> l) = Some <$> l.
Proof.
  induction l as [|b l IH]; csimpl; [done|].
  rewrite take_0, drop_0, IH. done.
Qed.

Lemma block_bytes_i8_fresh (n : nat) :
  block_bytes (T:=byte) (replicate n None) = replicate n None.
Proof.
  unfold block_bytes. induction n as [|n IH]; csimpl; [done|]. by rewrite IH.
Qed.

(** For byte elements the range constructor yields [size == length],
    [capacity == length] and the bytes of the source range. *)
Lemma Buffer_range_i8 (can_allocate : heap_t byte → N → bool)
    (start : list byte) (len : N) (raw : Buffer) (h : heap_t byte) (t : list event) :
  (N.to_nat len ≤ length start)%nat →
  can_allocate h len = true →
  ∃ s', Buffer_range can_allocate start len (mkState raw h t) = Ok tt s'
        ∧ size (this s') = len
        ∧ capacity (this s') = len
        ∧ elements s' = Some <$> take (N.to_nat len) start.
Proof.
  intros Hlen Hal. unfold Buffer_range.
  erewrite bind_Ok by done.
  set (s0 := mkState (mkBuffer 0 0 nullptr) h t).
  assert (valid s0) as Hv0 by (split; simpl; [lia|done]).
  change (to_bytes <$> start) with ((λ b : byte, [b]) <$> start).
  rewrite concat_singletons.
  destruct (N.eq_dec len 0) as [->|Hpos].
  - erewrite bind_Ok by (by apply reserve_noop).
    eexists. split; [done|]. done.
  - erewrite bind_Ok by (apply reserve_grow; [done|simpl; lia|done]).
    rewrite bind_get. unfold memcpy.
    destruct (N.eqb_spec len 0) as [|_]; [done|].
    unfold bind. simpl. rewrite list_lookup_middle by done.
    rewrite Nat.sub_0_r, block_bytes_i8_fresh, !length_replicate, drop_replicate.
    destruct (decide _) as [_|Hno]; [|lia].
    eexists. split; [done|]. simpl. split; [done|]. split; [done|].
    unfold elements. simpl.
    replace (length h) with (length h + 0)%nat at 2 by lia.
    rewrite insert_app_r. simpl.
    rewrite list_lookup_middle by done.
    rewrite Nat.sub_diag. simpl. rewrite app_nil_r.
    pose proof (block_of_bytes_i8 (take (N.to_nat len) start)) as Hblk.
    rewrite length_take_le in Hblk by done. rewrite Hblk.
    rewrite take_ge; [done|]. rewrite length_fmap, length_take. lia.
Qed.

(** The scenario of the specification: with the policy "double, minimum 4",
    five pushes onto an empty buffer see the capacities 4, 4, 4, 4, 8. *)
Example capacities_double_min4 :
  ∀ k s, for_each (take k (replicate 5 "x"%byte))
           (λ v, push double_min4 always_allocate (Outside v)) fresh
         = Ok tt s →
         k ∈ [1; 2; 3; 4; 5]%nat →
         capacity (this s) = if decide (k = 5%nat) then 8 else 4.
Proof.
  intros k s Hrun Hk.
  repeat (apply elem_of_cons in Hk as [->|Hk]; [vm_compute in Hrun; by simplify_eq|]).
  by apply elem_of_nil in Hk.
Qed.

(** * Where the code departs from the specification *)

(** C1 (code): [clear()] on a buffer of two live [Handle]s, a type with a
    destructor, sets [_size] to 0 and keeps the capacity, but calls no
    destructor: the trace is unchanged and both objects are still in their
    slots, because [_size = 0] runs before [_destruct()] iterates
    [begin(), end()). The destructor [~Buffer()] on the same buffer does
    destroy both elements. *)
Theorem C1_clear_calls_no_destructor :
  Buffer_list always_allocate [mkHandle x01; mkHandle x02] fresh = Ok tt two_handles
  ∧ elements two_handles = [Some (mkHandle x01); Some (mkHandle x02)]
  ∧ clear two_handles
    = Ok tt (mkState (mkBuffer 2 0 (Ptr 0)) (heap two_handles) (trace two_handles))
  ∧ destructor two_handles
    = Ok tt (mkState (mkBuffer 2 2 (Ptr 0)) [None]
               (trace two_handles
                  ++ [EvDestroy (Ptr 0) 0; EvDestroy (Ptr 0) 1; EvDeallocate (Ptr 0)])).
Proof. repeat split; reflexivity. Qed.

(** C2 (code): the range constructor on two 16-bit elements with
    [length == 2] reserves two slots and sets [size == 2], but [memcpy] is
    given [length] as its byte count: only the two bytes of the first
    element are copied and the second slot stays uninitialised, so the
    elements are not those of the source range. *)
Theorem C2_range_constructor_copies_length_bytes :
  ∃ s', Buffer_range always_allocate [mk_u16 x01 x02; mk_u16 x03 x04] 2 fresh = Ok tt s'
        ∧ size (this s') = 2
        ∧ capacity (this s') = 2
        ∧ elements s' = [Some (mk_u16 x01 x02); None]
        ∧ elements s' ≠ Some <$> [mk_u16 x01 x02; mk_u16 x03 x04].
Proof. eexists. repeat split; try reflexivity. vm_compute. discriminate. Qed.

(** * The theorems at concrete inputs *)



Ltac valid_here :=
  vm_compute; split; [discriminate|split; [reflexivity|eexists; split; reflexivity]].

Lemma C5_witness :
  ∃ s', (reserve always_allocate 8 full4 = Ok tt s'
         ∨ reserve always_allocate 8 full4 = Throw AllocationFailure s')
        ∧ capacity (this full4) <= capacity (this s')
        ∧ size (this s') = size (this full4)
        ∧ elements s' = elements full4
        ∧ (8 <= capacity (this full4) →
           reserve always_allocate 8 full4 = Ok tt full4 ∧ s' = full4).
Proof. apply (C5_reserve_frame always_allocate 8 full4). valid_here. Defined.

Lemma C6_witness :
  ∃ s', insert double_min4 always_allocate (ByCopy "e"%byte) full4 = Ok tt s'
        ∧ trace s' = trace full4
            ++ [EvGrowth 4; EvAllocate (double_min4 4) (data (this s'))]
            ++ (EvRelocate (data (this full4)) (data (this s')) <$> indices 4)
            ++ destroy_events (T:=byte) (data (this full4)) 4
            ++ [EvDeallocate (data (this full4)); EvConstruct (data (this s')) 4]
        ∧ policy_calls (trace s') = policy_calls (trace full4) ++ [4]
        ∧ capacity (this s') = double_min4 4.
Proof.
  apply (proj1 (proj2 (C6_growth_policy_invocation double_min4 always_allocate
                         (ByCopy "e"%byte) full4 ltac:(valid_here))) 4).
  - reflexivity.
  - reflexivity.
  - vm_compute. reflexivity.
  - reflexivity.
Defined.

Lemma C7_witness :
  reserve (allocate_upto 4) 8 full4 = Throw AllocationFailure full4.
Proof.
  apply (C7_reserve_allocation_failure (allocate_upto 4) 8 full4).
  - vm_compute. reflexivity.
  - reflexivity.
Defined.

Lemma C8_witness :
  (index_op true 4 full4 = Throw (Exception "index out of bounds") full4
   ∧ index_op_const true 4 full4 = Throw (Exception "index out of bounds") full4)
  ∧ (index_op true 2 full4 = Ok (data (this full4), 2) full4
     ∧ index_op_const true 2 full4 = Ok (data (this full4), 2) full4
     ∧ (valid full4 → ∃ v, elements full4 !! N.to_nat 2 = Some v
                           ∧ load (data (this full4)) 2 full4 = Ok v full4)).
Proof.
  split.
  - apply (proj1 (C8_debug_index_check 4 full4)). vm_compute. discriminate.
  - apply (proj2 (C8_debug_index_check 2 full4)). vm_compute. reflexivity.
Defined.

Lemma C4_witness :
  (∃ m', move_assign 1 0 two_buffers = Ok tt m'
     ∧ objects m' !! 1%nat = Some (mkBuffer 1 1 (Ptr 0))
     ∧ objects m' !! 0%nat = Some (mkBuffer 0 0 nullptr)
     ∧ m_heap m' = m_heap two_buffers ∧ m_trace m' = m_trace two_buffers
     ∧ ∃ m'', call 0 destructor m' = Ok tt m''
         ∧ objects m'' = objects m' ∧ m_heap m'' = m_heap m'
         ∧ m_trace m'' = m_trace m' ++ [EvDeallocate nullptr])
  ∧ (∃ m' (b3 : nat), move_ctor 0 two_buffers = Ok b3 m'
     ∧ b3 = length (objects two_buffers)
     ∧ objects m' !! b3 = Some (mkBuffer 1 1 (Ptr 0))
     ∧ objects m' !! 0%nat = Some (mkBuffer 0 0 nullptr)
     ∧ m_heap m' = m_heap two_buffers ∧ m_trace m' = m_trace two_buffers
     ∧ ∃ m'', call 0 destructor m' = Ok tt m''
         ∧ objects m'' = objects m' ∧ m_heap m'' = m_heap m'
         ∧ m_trace m'' = m_trace m' ++ [EvDeallocate nullptr]).
Proof.
  apply (C4_move_transfers two_buffers 0 1 (mkBuffer 1 1 (Ptr 0)) (mkBuffer 2 2 (Ptr 1))).
  - lia.
  - reflexivity.
  - reflexivity.
Defined.

Lemma C10_witness :
  ∃ m', move_assign 0 1 two_buffers = Ok tt m'
     ∧ m_trace m' = m_trace two_buffers
     ∧ m_heap m' !! 0%nat = Some (Some [Some "x"%byte])
     ∧ (∀ (o : nat) b, o = 0%nat ∨ o = 1%nat → objects m' !! o = Some b →
          _data b ≠ Ptr 0)
     ∧ (0%nat ≠ 1%nat →
        objects m' !! 0%nat = Some (mkBuffer 2 2 (Ptr 1))
        ∧ objects m' !! 1%nat = Some (mkBuffer 0 0 nullptr)).
Proof.
  apply (C10_move_assign_abandons_storage two_buffers 0 1
           (mkBuffer 1 1 (Ptr 0)) (mkBuffer 2 2 (Ptr 1)) 0 [Some "x"%byte]).
  - reflexivity.
  - reflexivity.
  - reflexivity.
  - reflexivity.
  - simpl. discriminate.
Defined.

Lemma C9_witness :
  (∀ (o : nat) b, objects after_program !! o = Some b →
     size b <= capacity b ∧ (data b = nullptr ↔ capacity b = 0))
  ∧ (∀ op m', ends_in (perform double_min4 always_allocate op after_program) m' →
       ∀ (o : nat) b, objects m' !! o = Some b →
         size b <= capacity b ∧ (data b = nullptr ↔ capacity b = 0)).
Proof.
  apply (C9_capacity_and_storage_invariants double_min4 always_allocate after_program).
  apply (reachable_program double_min4 always_allocate program (mkMachine [] [] [])).
  - apply reach_start.
  - vm_compute. reflexivity.
Defined.

(** * Further properties of the member functions *)

Section BufferLifetime.

Context {T : Type} `{VT : ValueType T}.
Variable next_capacity : N -> N.
Variable can_allocate : heap_t T -> N -> bool.

Implicit Types (s : state T) (b : Buffer) (h : heap_t T) (p : ptr) (blk : block T).

(** On a well-formed buffer every index below [_size] refers to a slot of
    the storage, the one iteration visits at that position. *)
Lemma load_elements (i : N) s :
  valid s → i < _size (this s) →
  ∃ v, elements s !! N.to_nat i = Some v ∧ load (_data (this s)) i s = Ok v s.
Proof.
  intros [Hsz Hown] Hi. unfold elements, owns, load in *.
  destruct (_data (this s)) as [|k]; [lia|].
  destruct Hown as (_ & blk & Hk & Hlen). rewrite Hk.
  destruct (lookup_lt_is_Some_2 blk (N.to_nat i)) as [v Hv]; [lia|].
  exists v. rewrite Hv. split; [|done].
  by rewrite lookup_take_lt by lia.
Qed.

(** A reallocation does not involve the growth policy. *)
Lemma grown_policy_calls (n : N) s :
  policy_calls (trace (grown n s)) = policy_calls (trace s).
Proof.
  simpl. rewrite policy_calls_app, policy_calls_cons, !policy_calls_app.
  rewrite policy_calls_destroy, policy_calls_none by done.
  simpl. by rewrite app_nil_r.
Qed.

(** [_push_no_checks] over a list of values that fit the capacity. *)
Lemma push_list_spec (values : list T) : ∀ s,
  valid s →
  _size (this s) + N.of_nat (length values) <= _reserved (this s) →
  _size (this s) + N.of_nat (length values) <= SIZE_MAX →
  ∃ s', for_each values (λ v, _push_no_checks lvalue (Outside v)) s = Ok tt s'
        ∧ valid s'
        ∧ _reserved (this s') = _reserved (this s)
        ∧ _data (this s') = _data (this s)
        ∧ _size (this s') = _size (this s) + N.of_nat (length values)
        ∧ elements s' = elements s ++ (Some <$> values)
        ∧ policy_calls (trace s') = policy_calls (trace s).
Proof.
  induction values as [|v values IH]; intros s Hv Hroom Hmax.
  - exists s. simpl. rewrite app_nil_r.
    split; [done|]. split; [done|]. split; [done|]. split; [done|].
    split; [lia|done].
  - simpl length in *.
    assert (_size (this s) < _reserved (this s)) as Hlt by lia.
    assert (_size (this s) < SIZE_MAX) as Hlt' by lia.
    destruct (IH (appended v s)) as (s' & Hrun & Hv' & Hcap & Hd & Hsz & Hel & Hpol).
    { by apply appended_valid. }
    { rewrite appended_size by done. simpl. lia. }
    { rewrite appended_size by done. lia. }
    exists s'. split.
    { simpl. by erewrite bind_Ok by (by apply push_no_checks_eq). }
    split; [done|]. split; [done|]. split; [done|].
    split; [rewrite Hsz, appended_size by done; lia|].
    split.
    + rewrite Hel, appended_elements by done. by rewrite <- app_assoc.
    + rewrite Hpol. simpl. rewrite policy_calls_app. apply app_nil_r.
Qed.

(** X1: the initializer-list constructor, given room in the allocator,
    returns a buffer with [size == capacity == values.size()] whose elements
    are the listed values in order; the growth policy is not consulted. *)
Theorem X1_list_constructor (values : list T) (raw : Buffer) (h : heap_t T)
    (t : list event) :
  can_allocate h (N.of_nat (length values)) = true →
  N.of_nat (length values) <= SIZE_MAX →
  ∃ s', Buffer_list can_allocate values (mkState raw h t) = Ok tt s'
        ∧ size (this s') = N.of_nat (length values)
        ∧ capacity (this s') = N.of_nat (length values)
        ∧ elements s' = Some <$> values
        ∧ policy_calls (trace s') = policy_calls t.
Proof.
  intros Hal Hmax. unfold Buffer_list, size, capacity.
  erewrite bind_Ok by done.
  set (s0 := mkState (mkBuffer 0 0 nullptr) h t).
  assert (valid s0) as Hv0 by apply valid_empty.
  set (n := N.of_nat (length values)) in *.
  assert (∃ s1, reserve can_allocate n s0 = Ok tt s1 ∧ valid s1
                ∧ _reserved (this s1) = n ∧ _size (this s1) = 0
                ∧ elements s1 = [] ∧ policy_calls (trace s1) = policy_calls t)
    as (s1 & Hres & Hv1 & Hcap1 & Hsz1 & Hel1 & Hpol1).
  { destruct (N.eq_dec n 0) as [Hz|Hnz].
    - exists s0. rewrite reserve_noop by (simpl; lia).
      split; [done|]. split; [done|]. split; [simpl; lia|done].
    - exists (grown n s0). rewrite reserve_grow by (simpl; try done; lia).
      split; [done|]. split; [apply grown_valid; simpl; [done|lia]|].
      split; [done|]. split; [done|].
      split; [rewrite grown_elements; simpl; [done|done|lia]|].
      by rewrite grown_policy_calls. }
  erewrite bind_Ok by done.
  destruct (push_list_spec values s1) as (s2 & Hrun & _ & Hcap & _ & Hsz & Hel & Hpol);
    [done|lia|lia|].
  exists s2. split; [done|]. split; [lia|]. split; [lia|].
  split; [by rewrite Hel, Hel1|]. by rewrite Hpol.
Qed.

(** The second half of [resize(n)] when it grows the live range. *)
Lemma resize_fill_spec (n : N) s :
  valid s → _size (this s) <= n → n <= _reserved (this s) →
  ∃ s', (old <- get _size;;
         d <- get _data;;
         for_range old (N.to_nat (n - old)) (λ elm, construct_at d elm default_value);;
         set_size n) s = Ok tt s'
        ∧ valid s'
        ∧ this s' = mkBuffer (_reserved (this s)) n (_data (this s))
        ∧ elements s' = elements s
            ++ replicate (N.to_nat (n - _size (this s))) (Some default_value)
        ∧ policy_calls (trace s') = policy_calls (trace s).
Proof.
  intros Hv Hge Hle. rewrite !bind_get. pose proof Hv as [Hsz Hown].
  unfold owns in Hown. unfold elements.
  destruct (_data (this s)) as [|k] eqn:Hd.
  - assert (n = 0) as -> by lia. assert (_size (this s) = 0) as Hz by lia.
    rewrite Hz. simpl. eexists. split; [done|]. simpl. rewrite Hd.
    split; [split; [simpl; lia|unfold owns; simpl; by rewrite ?Hd]|].
    split; [by rewrite ?Hown|done].
  - destruct Hown as (Hpos & blk & Hk & Hlen).
    eexists. split.
    { rewrite <- (N2Nat.id (_size (this s))) at 1.
      erewrite bind_Ok by (apply (construct_loop k); [done|lia]). done. }
    simpl. rewrite ?Hd, ?Hk.
    split; [|split; [done|split]].
    + split; simpl; [done|]. unfold owns. simpl. rewrite ?Hd. split; [done|].
      eexists. split; [apply list_lookup_insert_eq; by eapply lookup_lt_Some|].
      rewrite !length_app, length_take, length_replicate, length_drop. lia.
    + rewrite list_lookup_insert_eq by (by eapply lookup_lt_Some).
      rewrite app_assoc, take_app_length'; [done|].
      rewrite length_app, length_take, length_replicate. lia.
    + rewrite policy_calls_app, policy_calls_none by done. apply app_nil_r.
Qed.

Lemma resize_grow_spec (n : N) s :
  valid s → _size (this s) <= n →
  (_reserved (this s) < n → can_allocate (heap s) n = true) →
  ∃ s', resize can_allocate n s = Ok tt s'
        ∧ valid s'
        ∧ _size (this s') = n
        ∧ _reserved (this s') = N.max (_reserved (this s)) n
        ∧ elements s' = elements s
            ++ replicate (N.to_nat (n - _size (this s))) (Some default_value)
        ∧ policy_calls (trace s') = policy_calls (trace s).
Proof.
  intros Hv Hge Hal. unfold resize.
  assert (∃ s1, reserve can_allocate n s = Ok tt s1 ∧ valid s1
                ∧ _reserved (this s1) = N.max (_reserved (this s)) n
                ∧ _size (this s1) = _size (this s)
                ∧ elements s1 = elements s
                ∧ policy_calls (trace s1) = policy_calls (trace s))
    as (s1 & Hres & Hv1 & Hcap1 & Hsz1 & Hel1 & Hpol1).
  { destruct (N.le_gt_cases n (_reserved (this s))) as [Hle|Hgt].
    - exists s. rewrite reserve_noop by done.
      split; [done|]. split; [done|]. split; [lia|done].
    - exists (grown n s). rewrite reserve_grow by auto.
      split; [done|]. split; [by apply grown_valid|].
      split; [simpl; lia|]. split; [done|].
      split; [by apply grown_elements|]. apply grown_policy_calls. }
  erewrite bind_Ok by done.
  destruct (resize_fill_spec n s1) as (s2 & Hrun & Hv2 & Hthis & Hel & Hpol);
    [done|lia|lia|].
  exists s2. split; [done|]. split; [done|]. rewrite Hthis. simpl.
  split; [done|]. split; [done|].
  split; [by rewrite Hel, Hel1, Hsz1|]. by rewrite Hpol.
Qed.

(** X2: the sized constructor [Buffer(n)], given room in the allocator,
    returns a buffer of [n] default-constructed elements with
    [size == capacity == n]. *)
Theorem X2_sized_constructor (n : N) (raw : Buffer) (h : heap_t T) (t : list event) :
  can_allocate h n = true →
  ∃ s', Buffer_sized can_allocate n (mkState raw h t) = Ok tt s'
        ∧ size (this s') = n
        ∧ capacity (this s') = n
        ∧ elements s' = replicate (N.to_nat n) (Some default_value).
Proof.
  intros Hal. unfold Buffer_sized, size, capacity.
  erewrite bind_Ok by done.
  destruct (resize_grow_spec n (mkState (mkBuffer 0 0 nullptr) h t))
    as (s' & Hrun & _ & Hsz & Hcap & Hel & _); [apply valid_empty|simpl; lia|done|].
  exists s'. split; [done|]. split; [done|]. split; [simpl in Hcap; lia|].
  rewrite Hel. simpl. by rewrite N.sub_0_r.
Qed.

(** X3: [resize(n)] with [n >= size] on a well-formed buffer, given room
    in the allocator when [n > capacity], keeps the elements [0, size) as
    they are, default-constructs the slots [size, n), sets [size] to [n]
    and leaves the capacity at the larger of the old capacity and [n]; the
    growth policy is not consulted. *)
Theorem X3_resize_extends (n : N) s :
  valid s → size (this s) <= n →
  (capacity (this s) < n → can_allocate (heap s) n = true) →
  ∃ s', resize can_allocate n s = Ok tt s'
        ∧ size (this s') = n
        ∧ capacity (this s') = N.max (capacity (this s)) n
        ∧ elements s' = elements s
            ++ replicate (N.to_nat (n - size (this s))) (Some default_value)
        ∧ policy_calls (trace s') = policy_calls (trace s).
Proof.
  intros Hv Hge Hal.
  destruct (resize_grow_spec n s) as (s' & Hrun & _ & Hrest); [done..|].
  by exists s'.
Qed.

(** X4: [resize(n)] with [n <= size] only lowers [_size]: capacity and
    storage are kept, the heap is untouched (the elements [n, size) stay in
    their slots) and no destructor or allocator call is made; iteration then
    yields the first [n] elements. *)
Theorem X4_resize_shrinks_without_destroying (n : N) s :
  valid s → n <= size (this s) →
  ∃ s', resize can_allocate n s = Ok tt s'
        ∧ this s' = mkBuffer (capacity (this s)) n (data (this s))
        ∧ heap s' = heap s
        ∧ trace s' = trace s
        ∧ elements s' = take (N.to_nat n) (elements s).
Proof.
  intros [Hsz Hown] Hn. unfold size, capacity, data, resize in *.
  erewrite bind_Ok by (apply reserve_noop; lia).
  rewrite !bind_get.
  replace (N.to_nat (n - _size (this s))) with 0%nat by lia. simpl.
  eexists. split; [done|]. simpl. split; [done|]. split; [done|]. split; [done|].
  unfold elements. simpl. destruct (_data (this s)) as [|k]; [by rewrite take_nil|].
  destruct (heap s !! k) as [[blk|]|]; rewrite ?take_nil; try done.
  rewrite take_take. f_equal. lia.
Qed.

(** *** Counting events *)

Lemma count_events_app f t1 t2 :
  count_events f (t1 ++ t2) = (count_events f t1 + count_events f t2)%nat.
Proof. unfold count_events. by rewrite List.filter_app, length_app. Qed.

Lemma count_events_all {I} f (g : I → event) (l : list I) :
  (∀ i, f (g i) = true) → count_events f (g <$> l) = length l.
Proof.
  intros Hg. unfold count_events. induction l as [|i l IH]; [done|].
  csimpl. rewrite Hg. simpl. by rewrite IH.
Qed.

Lemma count_events_none {I} f (g : I → event) (l : list I) :
  (∀ i, f (g i) = false) → count_events f (g <$> l) = 0%nat.
Proof.
  intros Hg. unfold count_events. induction l as [|i l IH]; [done|].
  csimpl. by rewrite Hg.
Qed.

Lemma length_indices (n : N) : length (indices n) = N.to_nat n.
Proof. unfold indices. by rewrite length_fmap, length_seq. Qed.

Lemma destructions_destroy_events p (n : N) :
  destructions (destroy_events p n)
  = if is_trivially_destructible then 0%nat else N.to_nat n.
Proof.
  unfold destructions, destroy_events. destruct is_trivially_destructible; [done|].
  by rewrite count_events_all, length_indices.
Qed.

Lemma constructions_destroy_events p (n : N) :
  constructions (destroy_events p n) = 0%nat.
Proof.
  unfold constructions, destroy_events. destruct is_trivially_destructible; [done|].
  by rewrite count_events_none.
Qed.

(** X5: when the allocator has no room, the sized, range and list
    constructors with a positive request throw the allocation failure and
    leave no object behind: the program's objects and the heap are as
    before, and the only call made after the failed [allocate] is
    [deallocate(nullptr)] by the destructor of the delegated-to [Buffer()]. *)
Theorem X5_constructor_failure_leaves_nothing (m : machine T) (n : N)
    (start values : list T) :
  0 < n →
  can_allocate (m_heap m) n = false →
  N.of_nat (length values) = n →
  let m' := mkMachine (objects m) (m_heap m) (m_trace m ++ [EvDeallocate nullptr]) in
  new_object (Buffer_sized can_allocate n) m = Throw AllocationFailure m'
  ∧ new_object (Buffer_range can_allocate start n) m = Throw AllocationFailure m'
  ∧ new_object (Buffer_list can_allocate values) m = Throw AllocationFailure m'.
Proof.
  intros Hpos Hfail Hlen m'.
  set (s0 := mkState (mkBuffer 0 0 nullptr) (m_heap m) (m_trace m)).
  assert (reserve can_allocate n s0 = Throw AllocationFailure s0) as Hres
    by (by apply reserve_fail).
  assert (∀ ctor : M (state T) unit, ctor s0 = Throw AllocationFailure s0 →
            new_object ctor m = Throw AllocationFailure m') as Hnew.
  { intros ctor Hctor. unfold new_object. fold s0. rewrite Hctor.
    unfold s0. by rewrite destructor_empty. }
  split; [|split]; apply Hnew.
  - unfold Buffer_sized. erewrite bind_Ok by done. unfold resize. by apply bind_Throw.
  - unfold Buffer_range. erewrite bind_Ok by done. by apply bind_Throw.
  - unfold Buffer_list. erewrite bind_Ok by done. rewrite Hlen. by apply bind_Throw.
Qed.

(** X6: [~Buffer()] on a well-formed buffer returns; for an element type
    with a destructor it destroys the elements [0, size) once each, in index
    order, and none for a trivially destructible type; then it releases the
    storage with one [deallocate]. The storage block is gone from the heap
    and every other block is as before. *)
Theorem X6_destructor_releases s :
  valid s →
  ∃ s', destructor s = Ok tt s'
        ∧ trace s' = trace s ++ destroy_events (data (this s)) (size (this s))
                             ++ [EvDeallocate (data (this s))]
        ∧ destructions (trace s')
          = (destructions (trace s)
             + if is_trivially_destructible then 0 else N.to_nat (size (this s)))%nat
        ∧ (∀ k, data (this s) = Ptr k → heap s' !! k = Some None)
        ∧ (∀ k, data (this s) ≠ Ptr k → heap s' !! k = heap s !! k).
Proof.
  intros [Hsz Hown]. unfold size, data, owns in *.
  eexists. split.
  { apply destructor_eq. destruct (_data (this s)) as [|k]; [lia|].
    destruct Hown as (_ & blk & Hk & Hlen). exists blk. split; [done|lia]. }
  simpl. split; [done|]. split; [|split].
  - unfold destructions. rewrite !count_events_app.
    fold (destructions (destroy_events (_data (this s)) (_size (this s)))).
    rewrite destructions_destroy_events. unfold count_events. simpl. lia.
  - intros k Hk. rewrite Hk in *. simpl.
    destruct Hown as (_ & blk & Hb & _).
    apply list_lookup_insert_eq. by eapply lookup_lt_Some.
  - intros k Hk. destruct (_data (this s)) as [|k0]; simpl; [done|].
    apply list_lookup_insert_ne. congruence.
Qed.

(** One insertion into a well-formed buffer; the policy's contract and the
    allocator's room are needed only when the buffer is full. *)
Lemma insert_appends op s :
  valid s →
  _size (this s) < SIZE_MAX →
  (_size (this s) = _reserved (this s) →
   _size (this s) < next_capacity (_size (this s))
   ∧ can_allocate (heap s) (next_capacity (_size (this s))) = true) →
  ∃ s', insert next_capacity can_allocate op s = Ok tt s'
        ∧ valid s'
        ∧ _size (this s') = _size (this s) + 1
        ∧ elements s' = elements s ++ [Some (inserted op)].
Proof.
  intros Hv Hmax Hfull.
  destruct (N.eq_dec (_size (this s)) (_reserved (this s))) as [Heq|Hne].
  - destruct (Hfull Heq) as [Hpol Hal].
    set (s1 := grown (next_capacity (_size (this s))) (noted (EvGrowth (_size (this s))) s)).
    assert (valid s1) as Hv1 by (apply grown_valid; simpl; [done|lia]).
    assert (_size (this s1) < _reserved (this s1)) as Hroom by done.
    exists (appended (inserted op) s1). split; [by apply insert_full|].
    split; [by apply appended_valid|]. split.
    + by rewrite appended_size.
    + rewrite appended_elements by done. f_equal.
      unfold s1. rewrite grown_elements; simpl; [done|done|lia].
  - assert (_size (this s) < _reserved (this s)) as Hroom by (destruct Hv; lia).
    exists (appended (inserted op) s). split; [by apply insert_room|].
    split; [by apply appended_valid|]. split.
    + by apply appended_size.
    + by apply appended_elements.
Qed.

(** Reading through the reference that [operator[]] returns for an index
    below [size], in either build configuration and for both overloads. *)
Lemma index_then_load (debug : bool) (i : N) s v :
  valid s → i < _size (this s) → elements s !! N.to_nat i = Some v →
  (r <- index_op debug i;; load (fst r) (snd r)) s = Ok v s
  ∧ (r <- index_op_const debug i;; load (fst r) (snd r)) s = Ok v s.
Proof.
  intros Hv Hi Hel.
  destruct (load_elements i s Hv Hi) as (v' & Hel' & Hload).
  assert (v' = v) as -> by congruence.
  assert (index_op debug i s = Ok (_data (this s), i) s
          ∧ index_op_const debug i s = Ok (_data (this s), i) s) as [H1 H2].
  { unfold index_op, index_op_const. rewrite !bind_get.
    destruct (N.leb_spec (_size (this s)) i) as [|_]; [lia|].
    rewrite andb_false_r. by rewrite !bind_get. }
  by rewrite (bind_Ok _ _ _ _ _ H1), (bind_Ok _ _ _ _ _ H2).
Qed.

(** X7: insert, then index. An insertion into a well-formed buffer whose
    live slots hold objects, with an argument from outside the heap or with
    an element of the buffer itself (under the policy's contract and with
    room in the allocator when the buffer is full). When the argument stays
    where it is (it lies outside, or the buffer has room), [operator[]] at
    the former [size] then refers to the value passed, and at every index
    below it to the element that was there, moved from if it was passed as
    an rvalue; whether the storage was reallocated or not, in the debug and
    in the release build, and for both overloads. When the argument is an
    element of the full buffer, the storage is reallocated before the
    constructor reads through the reference, and the call is undefined. *)
Theorem X7_insert_then_index (debug : bool) c s (l : list T) v :
  valid s →
  elements s = Some <$> l →
  size (this s) < SIZE_MAX →
  (size (this s) = capacity (this s) →
   size (this s) < next_capacity (size (this s))
   ∧ can_allocate (heap s) (next_capacity (size (this s))) = true) →
  passed l c = Some v →
  (argument_stays (capacity (this s)) l c = true →
   ∃ s', execute next_capacity can_allocate debug c s = Ok tt s'
         ∧ (r <- index_op debug (size (this s));; load (fst r) (snd r)) s'
           = Ok (Some v) s'
         ∧ (r <- index_op_const debug (size (this s));; load (fst r) (snd r)) s'
           = Ok (Some v) s'
         ∧ ∀ i x, left_behind l c !! N.to_nat i = Some x →
             (r <- index_op debug i;; load (fst r) (snd r)) s' = Ok (Some x) s'
             ∧ (r <- index_op_const debug i;; load (fst r) (snd r)) s' = Ok (Some x) s')
  ∧ (argument_stays (capacity (this s)) l c = false →
     execute next_capacity can_allocate debug c s = Undefined).
Proof.
  intros Hv Hel Hmax Hfull Hpass. unfold size, capacity in *.
  pose proof (elements_values_length s l Hv Hel) as Hlen.
  split; intros Hstay.
  - destruct (execute_spec next_capacity can_allocate debug c s l v)
      as (s' & Hrun & Hv' & Hsz & _ & Hel'); try done.
    exists s'. split; [done|].
    assert (length (left_behind l c) = length l) as Hkept.
    { destruct c as [op|f [] i]; simpl; by rewrite ?length_alter. }
    assert (elements s' !! N.to_nat (_size (this s)) = Some (Some v)) as Hlast.
    { rewrite Hel', fmap_app. apply list_lookup_middle.
      rewrite length_fmap, Hkept. lia. }
    destruct (index_then_load debug (_size (this s)) s' _ Hv' ltac:(lia) Hlast) as [H1 H2].
    split; [done|]. split; [done|].
    intros i x Hi. pose proof (lookup_lt_Some _ _ _ Hi) as Hlt.
    apply index_then_load; [done|lia|].
    rewrite Hel', fmap_app. apply lookup_app_l_Some.
    by rewrite list_lookup_fmap, Hi.
  - destruct c as [op|f cat i]; [done|]. simpl in *.
    apply N.ltb_ge in Hstay. pose proof (lookup_lt_Some _ _ _ Hpass) as Hlt.
    assert (_size (this s) = _reserved (this s)) as Heq by (destruct Hv; lia).
    destruct (Hfull Heq) as [Hpol Hal].
    apply execute_own_full; try done. lia.
Qed.

(** X8: self-move-assignment [b = std::move(b)] leaves [b] empty (size 0,
    capacity 0, null storage); the heap and the trace are unchanged, so the
    elements are lost with their storage still allocated, and the
    destructor of [b] afterwards does not release it either. *)
Theorem X8_self_move_assignment (m : machine T) (o : nat) (x : Buffer)
    (k : nat) (blk : block T) :
  objects m !! o = Some x →
  _data x = Ptr k →
  m_heap m !! k = Some (Some blk) →
  ∃ m', move_assign o o m = Ok tt m'
        ∧ objects m' !! o = Some (mkBuffer 0 0 nullptr)
        ∧ m_heap m' = m_heap m
        ∧ m_trace m' = m_trace m
        ∧ ∃ m'', call o destructor m' = Ok tt m''
                 ∧ m_heap m'' !! k = Some (Some blk)
                 ∧ m_trace m'' = m_trace m ++ [EvDeallocate nullptr].
Proof.
  intros Ho Hd Hk. pose proof (lookup_lt_Some _ _ _ Ho) as Hlt.
  eexists. split; [by eapply move_assign_self|]. simpl.
  assert (<[o:=mkBuffer 0 0 nullptr]> (objects m) !! o = Some (mkBuffer 0 0 nullptr))
    as Ho' by (by apply list_lookup_insert_eq).
  split; [done|]. split; [done|]. split; [done|].
  unfold call. simpl. rewrite Ho', destructor_empty.
  eexists. split; [done|]. by split.
Qed.

(** X9: [reserve(n)] with [n > capacity] on a well-formed buffer, given
    room in the allocator, sets the capacity to exactly [n] without
    consulting the growth policy. The storage moves to a fresh block, so
    the data pointer changes; the calls are one [allocate(n)], the
    relocation of the elements [0, size) in index order, their destruction
    in the old storage, and one [deallocate] of the old storage, which is
    gone from the heap afterwards; no other block changes. *)
Theorem X9_reserve_reallocates (n : N) s :
  valid s →
  capacity (this s) < n →
  can_allocate (heap s) n = true →
  ∃ s', reserve can_allocate n s = Ok tt s'
        ∧ capacity (this s') = n
        ∧ data (this s') = Ptr (length (heap s))
        ∧ data (this s') ≠ data (this s)
        ∧ trace s' = trace s
            ++ [EvAllocate n (data (this s'))]
            ++ (EvRelocate (data (this s)) (data (this s')) <$> indices (size (this s)))
            ++ destroy_events (data (this s)) (size (this s))
            ++ [EvDeallocate (data (this s))]
        ∧ policy_calls (trace s') = policy_calls (trace s)
        ∧ (∀ k, data (this s) = Ptr k → heap s' !! k = Some None)
        ∧ (∀ k, data (this s) ≠ Ptr k → (k < length (heap s))%nat →
                heap s' !! k = heap s !! k).
Proof.
  intros Hv Hn Hal. unfold capacity, data, size in *.
  exists (grown n s). split; [by apply reserve_grow|].
  split; [done|]. split; [done|].
  pose proof Hv as [Hsz Hown]. unfold owns in Hown.
  split; [|split; [done|split; [apply grown_policy_calls|split]]].
  - simpl. intros Heq. rewrite <- Heq in Hown.
    destruct Hown as (_ & blk & Hk & _). apply lookup_lt_Some in Hk. lia.
  - intros k Hk. simpl. rewrite Hk in *. simpl.
    destruct Hown as (_ & blk & Hb & _). apply lookup_lt_Some in Hb.
    apply list_lookup_insert_eq. rewrite length_app. lia.
  - intros k Hk Hlt. by apply (steps_grown n s Hv Hn).
Qed.

(** *** A buffer's whole life: construct, insert, destroy *)

Lemma counts_appended v s :
  constructions (trace (appended v s)) = S (constructions (trace s))
  ∧ destructions (trace (appended v s)) = destructions (trace s).
Proof.
  unfold constructions, destructions. simpl. rewrite !count_events_app.
  unfold count_events. simpl. lia.
Qed.

Lemma counts_grown (n : N) s :
  constructions (trace (grown n s))
  = (constructions (trace s) + N.to_nat (_size (this s)))%nat
  ∧ destructions (trace (grown n s))
    = (destructions (trace s)
       + if is_trivially_destructible then 0 else N.to_nat (_size (this s)))%nat.
Proof.
  simpl. split.
  - unfold constructions.
    change (EvAllocate ?a ?b :: ?l) with ([EvAllocate a b] ++ l).
    rewrite !count_events_app, count_events_all, length_indices by done.
    fold (constructions (destroy_events (_data (this s)) (_size (this s)))).
    rewrite constructions_destroy_events. unfold count_events. simpl. lia.
  - unfold destructions.
    change (EvAllocate ?a ?b :: ?l) with ([EvAllocate a b] ++ l).
    rewrite !count_events_app, count_events_none by done.
    fold (destructions (destroy_events (_data (this s)) (_size (this s)))).
    rewrite destructions_destroy_events. unfold count_events. simpl. lia.
Qed.

Lemma confined_appended (h0 : heap_t T) v s :
  valid s → confined h0 (this s) (heap s) →
  confined h0 (this (appended v s)) (heap (appended v s)).
Proof.
  intros [_ Hown] (l & Hh & Hd & Hlive). unfold confined, owns in *. simpl.
  unfold written.
  destruct (_data (this s)) as [|k] eqn:Hk.
  { exists l. split; [done|]. split; [done|]. intros i blk Hi. by apply (Hlive i blk). }
  destruct Hown as (_ & blk & Hb & _). rewrite Hb.
  pose proof (Hd k eq_refl) as Hge.
  exists (<[(k - length h0)%nat := Some (<[N.to_nat (_size (this s)) := Some v]> blk)]> l).
  split; [|split; [done|]].
  - rewrite Hh. by rewrite insert_app_r_alt.
  - intros i blk' Hi.
    destruct (decide (i = (k - length h0)%nat)) as [->|Hne]; [f_equal; lia|].
    rewrite list_lookup_insert_ne in Hi by done. by apply (Hlive i blk').
Qed.

Lemma confined_grown (h0 : heap_t T) (n : N) s :
  valid s → confined h0 (this s) (heap s) →
  confined h0 (this (grown n s)) (heap (grown n s)).
Proof.
  intros [_ Hown] (l & Hh & Hd & Hlive). unfold confined, owns in *. simpl.
  set (new := Some (elements s ++ replicate (N.to_nat n - N.to_nat (_size (this s))) None)
              : option (block T)).
  assert (length (heap s) = (length h0 + length l)%nat) as Hlen
    by (by rewrite Hh, length_app).
  destruct (_data (this s)) as [|k] eqn:Hk; simpl.
  - exists (l ++ [new]). split; [by rewrite Hh, <- app_assoc|].
    split; [intros k [= <-]; lia|].
    intros i blk Hi. apply lookup_app_Some in Hi as [Hi|[Hge Hi]].
    + by specialize (Hlive i blk Hi).
    + apply list_lookup_singleton_Some in Hi as [Hz _]. f_equal. lia.
  - destruct Hown as (_ & blk & Hb & _). pose proof (Hd k eq_refl) as Hge.
    pose proof (lookup_lt_Some _ _ _ Hb) as Hlt.
    exists (<[(k - length h0)%nat := None]> (l ++ [new])).
    split; [|split; [intros k' [= <-]; lia|]].
    + rewrite Hh, <- app_assoc. by rewrite insert_app_r_alt.
    + intros i blk' Hi.
      destruct (decide (i = (k - length h0)%nat)) as [->|Hne].
      { rewrite list_lookup_insert_eq in Hi; [done|]. rewrite length_app. simpl. lia. }
      rewrite list_lookup_insert_ne in Hi by done.
      apply lookup_app_Some in Hi as [Hi|[Hge' Hi]].
      * specialize (Hlive i blk' Hi). simplify_eq. lia.
      * apply list_lookup_singleton_Some in Hi as [Hz _]. f_equal. lia.
Qed.

(** One insertion keeps the buffer's blocks confined and the counts of
    constructions and destructions in step with [size]. *)
Lemma insert_lifetime (h0 : heap_t T) op s :
  valid s → confined h0 (this s) (heap s) →
  _size (this s) < SIZE_MAX →
  _size (this s) < next_capacity (_size (this s)) →
  (∀ h n, can_allocate h n = true) →
  ∃ s', insert next_capacity can_allocate op s = Ok tt s'
        ∧ valid s' ∧ confined h0 (this s') (heap s')
        ∧ _size (this s') = _size (this s) + 1
        ∧ (is_trivially_destructible = false →
           (constructions (trace s') + destructions (trace s)
            = constructions (trace s) + destructions (trace s') + 1)%nat)
        ∧ (is_trivially_destructible = true →
           destructions (trace s') = destructions (trace s)).
Proof.
  intros Hv Hconf Hmax Hpol Hal.
  destruct (N.eq_dec (_size (this s)) (_reserved (this s))) as [Heq|Hne].
  - set (s0 := noted (EvGrowth (_size (this s))) s).
    set (s1 := grown (next_capacity (_size (this s))) s0).
    assert (valid s1) as Hv1 by (apply grown_valid; simpl; [done|lia]).
    assert (_size (this s1) < _reserved (this s1)) as Hroom by done.
    exists (appended (inserted op) s1). split; [by apply insert_full|].
    split; [by apply appended_valid|].
    split; [apply confined_appended; [done|]; by apply confined_grown|].
    split; [by rewrite appended_size|].
    destruct (counts_appended (inserted op) s1) as [-> ->].
    destruct (counts_grown (next_capacity (_size (this s))) s0) as [Hc Hd].
    fold s1 in Hc, Hd. rewrite Hc, Hd.
    assert (constructions (trace s0) = constructions (trace s)
            ∧ destructions (trace s0) = destructions (trace s)) as [-> ->].
    { unfold constructions, destructions, s0. simpl. rewrite !count_events_app.
      unfold count_events. simpl. lia. }
    split; intros ->; simpl; lia.
  - assert (_size (this s) < _reserved (this s)) as Hroom by (destruct Hv; lia).
    exists (appended (inserted op) s). split; [by apply insert_room|].
    split; [by apply appended_valid|].
    split; [by apply confined_appended|].
    split; [by apply appended_size|].
    destruct (counts_appended (inserted op) s) as [-> ->]. split; intros _; lia.
Qed.

Lemma inserts_lifetime (h0 : heap_t T) (ops : list (insertion (T:=T))) : ∀ s,
  valid s → confined h0 (this s) (heap s) →
  _size (this s) + N.of_nat (length ops) <= SIZE_MAX →
  (∀ n, _size (this s) <= n < _size (this s) + N.of_nat (length ops) →
        n < next_capacity n) →
  (∀ h n, can_allocate h n = true) →
  ∃ s', for_each ops (insert next_capacity can_allocate) s = Ok tt s'
        ∧ valid s' ∧ confined h0 (this s') (heap s')
        ∧ (is_trivially_destructible = false →
           (constructions (trace s') + destructions (trace s)
              + N.to_nat (_size (this s))
            = constructions (trace s) + destructions (trace s')
              + N.to_nat (_size (this s')))%nat)
        ∧ (is_trivially_destructible = true →
           destructions (trace s') = destructions (trace s)).
Proof.
  induction ops as [|op ops IH]; intros s Hv Hconf Hmax Hpol Hal.
  - exists s. split; [done|]. split; [done|]. split; [done|]. split; [lia|done].
  - simpl length in *.
    destruct (insert_lifetime h0 op s) as (s1 & Hrun & Hv1 & Hc1 & Hsz1 & Hn1 & Ht1);
      try done.
    { lia. } { apply Hpol. lia. }
    destruct (IH s1) as (s2 & Hrun2 & Hv2 & Hc2 & Hn2 & Ht2); try done.
    { lia. } { intros n Hn. apply Hpol. lia. }
    exists s2. split; [simpl; by erewrite bind_Ok|].
    split; [done|]. split; [done|]. split.
    + intros Hnt. specialize (Hn1 Hnt). specialize (Hn2 Hnt). lia.
    + intros Ht. by rewrite (Ht2 Ht), (Ht1 Ht).
Qed.

(** A buffer's life from [Buffer()] through insertions to [~Buffer()]. *)
Lemma lifetime_spec (ops : list (insertion (T:=T))) (raw : Buffer) (h0 : heap_t T)
    (t0 : list event) :
  (∀ h n, can_allocate h n = true) →
  (∀ n, n < N.of_nat (length ops) → n < next_capacity n) →
  N.of_nat (length ops) <= SIZE_MAX →
  ∃ s', (Buffer_default;;
         for_each ops (insert next_capacity can_allocate);;
         destructor) (mkState raw h0 t0) = Ok tt s'
        ∧ (∃ j, heap s' = h0 ++ replicate j None)
        ∧ (is_trivially_destructible = false →
           (constructions (trace s') + destructions t0
            = constructions t0 + destructions (trace s'))%nat)
        ∧ (is_trivially_destructible = true →
           destructions (trace s') = destructions t0).
Proof.
  intros Hal Hpol Hmax.
  set (s0 := mkState (mkBuffer 0 0 nullptr) h0 t0).
  assert (confined h0 (this s0) (heap s0)) as Hc0.
  { exists []. simpl. split; [by rewrite app_nil_r|]. split; [done|].
    intros i blk Hi. by rewrite lookup_nil in Hi. }
  destruct (inserts_lifetime h0 ops s0) as (s1 & Hrun & Hv1 & Hc1 & Hn1 & Ht1);
    [apply valid_empty|done|simpl; lia|intros n Hn; apply Hpol; simpl in Hn; lia|done|].
  pose proof Hv1 as [Hsz1 Hown1]. unfold owns in Hown1.
  eexists. split.
  { erewrite bind_Ok by done. erewrite bind_Ok by done.
    apply destructor_eq. destruct (_data (this s1)) as [|k]; [lia|].
    destruct Hown1 as (_ & blk & Hk & Hlen). exists blk. split; [done|lia]. }
  simpl. split; [|split].
  - destruct Hc1 as (l & Hh & Hd & Hlive). rewrite Hh.
    assert (∀ l' : list (option (block T)),
              (∀ i blk, l' !! i = Some (Some blk) → False) →
              l' = replicate (length l') None) as Hnone.
    { intros l' Hl'. apply list_eq_same_length with (length l');
        [by rewrite length_replicate|done|].
      intros i x y Hi Hx Hy. rewrite lookup_replicate_2 in Hy by done.
      simplify_eq. destruct x as [blk|]; [|done]. by destruct (Hl' i blk). }
    destruct (_data (this s1)) as [|k] eqn:Hk; simpl.
    + exists (length l). f_equal. apply Hnone.
      intros i blk Hi. by specialize (Hlive i blk Hi).
    + pose proof (Hd k eq_refl) as Hge.
      exists (length l). rewrite insert_app_r_alt by done. f_equal.
      rewrite <- (length_insert l (k - length h0) None). apply Hnone.
      intros i blk Hi.
      destruct (decide (i = (k - length h0)%nat)) as [->|Hne].
      * destruct Hown1 as (_ & blk1 & Hb & _). rewrite Hh in Hb.
        rewrite lookup_app_r in Hb by done. apply lookup_lt_Some in Hb.
        by rewrite list_lookup_insert_eq in Hi.
      * rewrite list_lookup_insert_ne in Hi by done.
        specialize (Hlive i blk Hi). simplify_eq. lia.
  - intros Hnt. specialize (Hn1 Hnt). simpl in Hn1.
    unfold constructions, destructions in *. rewrite !count_events_app.
    fold (constructions (destroy_events (_data (this s1)) (_size (this s1)))).
    fold (destructions (destroy_events (_data (this s1)) (_size (this s1)))).
    rewrite constructions_destroy_events, destructions_destroy_events, Hnt.
    unfold count_events in *. simpl in *. lia.
  - intros Ht. specialize (Ht1 Ht). simpl in Ht1.
    unfold destructions in *. rewrite !count_events_app.
    fold (destructions (destroy_events (_data (this s1)) (_size (this s1)))).
    rewrite destructions_destroy_events, Ht.
    unfold count_events in *. simpl in *. lia.
Qed.

(** *** The history of each slot over a buffer's life *)

Lemma history_app p (i : N) t1 t2 :
  history p i (t1 ++ t2) = history p i t1 ++ history p i t2.
Proof. apply List.filter_app. Qed.

(** A loop that touches slot [j] of [q] in its [j]-th round touches the
    slot [p[i]] once if [q = p] and [i] is in range, and else not at all. *)
Lemma history_indices (f : N → event) (q p : ptr) (i n : N) :
  (∀ j, constructs_at p i (f j) || destroys_at p i (f j) = bool_decide (q = p ∧ j = i)) →
  history p i (f <$> indices n) = if bool_decide (q = p ∧ i < n) then [f i] else [].
Proof.
  intros Hf. unfold indices. induction n as [|n IH] using N.peano_ind.
  - simpl. by case_bool_decide; [lia|].
  - rewrite N2Nat.inj_succ, seq_S, !fmap_app, history_app, IH. simpl.
    rewrite N2Nat.id. unfold history. simpl. rewrite Hf.
    destruct (decide (q = p)) as [->|Hne].
    2:{ by rewrite !bool_decide_eq_false_2 by (by intros [? _]). }
    destruct (N.lt_trichotomy i n) as [Hlt|[->|Hgt]].
    + rewrite (bool_decide_eq_true_2 (p = p ∧ i < n)) by done.
      rewrite (bool_decide_eq_false_2 (p = p ∧ n = i)) by (intros [_ ?]; lia).
      by rewrite bool_decide_eq_true_2 by (split; [done|lia]).
    + rewrite (bool_decide_eq_false_2 (p = p ∧ n < n)) by (intros [_ ?]; lia).
      rewrite (bool_decide_eq_true_2 (p = p ∧ n = n)) by done.
      by rewrite bool_decide_eq_true_2 by (split; [done|lia]).
    + rewrite (bool_decide_eq_false_2 (p = p ∧ i < n)) by (intros [_ ?]; lia).
      rewrite (bool_decide_eq_false_2 (p = p ∧ n = i)) by (intros [_ ?]; lia).
      by rewrite bool_decide_eq_false_2 by (intros [_ ?]; lia).
Qed.

Lemma history_relocations src q (n : N) p (i : N) :
  history p i (EvRelocate src q <$> indices n)
  = if bool_decide (q = p ∧ i < n) then [EvRelocate src q i] else [].
Proof. apply history_indices. intros j. simpl. by rewrite orb_false_r. Qed.

Lemma history_destroy_events q (n : N) p (i : N) :
  is_trivially_destructible = false →
  history p i (destroy_events q n)
  = if bool_decide (q = p ∧ i < n) then [EvDestroy q i] else [].
Proof. intros Hnt. unfold destroy_events. rewrite Hnt. by apply history_indices. Qed.

Lemma history_construct q (j : N) p (i : N) :
  history p i [EvConstruct q j]
  = if bool_decide (q = p ∧ j = i) then [EvConstruct q j] else [].
Proof. unfold history. simpl. by rewrite orb_false_r. Qed.

Lemma settled_later p (i : N) t1 t2 :
  history p i t2 = [] → settled p i t1 → settled p i (t1 ++ t2).
Proof. intros H2 H1. unfold settled. by rewrite history_app, H2, app_nil_r. Qed.

Lemma accounted_later b (h : heap_t T) d t :
  (∀ p i, history p i t = []) → accounted b h d → accounted b h (d ++ t).
Proof.
  intros Ht (Hlive & Hfree & Hnew & Hnull & Hrest).
  unfold accounted. setoid_rewrite history_app. setoid_rewrite Ht.
  setoid_rewrite app_nil_r. repeat split; try done.
  intros p i Hp. apply settled_later; [done|by apply Hrest].
Qed.

Lemma length_written p (i : N) (v : slot T) (h : heap_t T) :
  length (written p i v h) = length h.
Proof.
  unfold written. destruct p as [|k]; [done|].
  destruct (h !! k) as [[blk|]|]; try done. by rewrite length_insert.
Qed.

(** The storage of a well-formed buffer with capacity is a block of the heap. *)
Lemma valid_data s :
  valid s → 0 < _reserved (this s) →
  ∃ k, _data (this s) = Ptr k ∧ (k < length (heap s))%nat.
Proof.
  intros [_ Hown] Hpos. unfold owns in Hown.
  destruct (_data (this s)) as [|k]; [lia|].
  destruct Hown as (_ & blk & Hk & _). exists k. split; [done|by eapply lookup_lt_Some].
Qed.

Lemma accounted_appended v s d :
  valid s → _size (this s) < _reserved (this s) → _size (this s) < SIZE_MAX →
  accounted (this s) (heap s) d →
  accounted (this (appended v s)) (heap (appended v s))
    (d ++ [EvConstruct (_data (this s)) (_size (this s))]).
Proof.
  intros Hv Hroom Hmax (Hlive & Hfree & Hnew & Hnull & Hrest).
  destruct (valid_data s Hv) as (k0 & Hk0 & Hlt0); [lia|].
  pose proof (appended_size v s Hmax) as Hsz.
  unfold accounted. rewrite Hsz. simpl. rewrite length_written.
  setoid_rewrite history_app. setoid_rewrite history_construct.
  split; [|split; [|split; [|split]]].
  - intros i Hi. destruct (decide (i = _size (this s))) as [->|Hne].
    + rewrite Hfree by lia. rewrite bool_decide_eq_true_2 by done.
      eexists. split; [|done]. simpl. by apply bool_decide_eq_true_2.
    + destruct (Hlive i) as (c & Hc & Hh); [lia|].
      rewrite Hh, bool_decide_eq_false_2 by (by intros [_ ?]). by exists c.
  - intros i Hi. rewrite Hfree by lia.
    by rewrite bool_decide_eq_false_2 by (intros [_ ?]; lia).
  - intros k i Hk. rewrite Hnew by done.
    by rewrite bool_decide_eq_false_2 by (rewrite Hk0; intros [[= ?] _]; lia).
  - intros i. rewrite Hnull.
    by rewrite bool_decide_eq_false_2 by (rewrite Hk0; by intros [? _]).
  - intros p i Hp. apply settled_later; [|by apply Hrest].
    rewrite history_construct. by rewrite bool_decide_eq_false_2 by (intros [? _]; congruence).
Qed.

Lemma accounted_grown (n : N) s d :
  is_trivially_destructible = false →
  valid s →
  accounted (this s) (heap s) d →
  accounted (this (grown n s)) (heap (grown n s))
    (d ++ [EvAllocate n (Ptr (length (heap s)))]
       ++ (EvRelocate (_data (this s)) (Ptr (length (heap s))) <$> indices (_size (this s)))
       ++ destroy_events (_data (this s)) (_size (this s))
       ++ [EvDeallocate (_data (this s))]).
Proof.
  intros Hnt Hv (Hlive & Hfree & Hnew & Hnull & Hrest).
  set (old := _data (this s)) in *. set (count := _size (this s)) in *.
  set (new := Ptr (length (heap s))).
  assert (old ≠ new) as Hfresh.
  { destruct Hv as [_ Hown]. unfold owns in Hown. fold old in Hown.
    destruct old as [|k]; [done|]. destruct Hown as (_ & blk & Hk & _).
    apply lookup_lt_Some in Hk. intros [= ?]. lia. }
  assert (old = nullptr → count = 0) as Hempty.
  { intros Hold. destruct Hv as [Hsz Hown]. unfold owns in Hown. fold old in Hown.
    rewrite Hold in Hown. unfold count. lia. }
  assert (∀ k, (length (heap s) ≤ k)%nat → old ≠ Ptr k) as Hold.
  { intros k Hk Heq. destruct Hv as [_ Hown]. unfold owns in Hown. fold old in Hown.
    rewrite Heq in Hown. destruct Hown as (_ & blk & Hb & _).
    apply lookup_lt_Some in Hb. lia. }
  assert (length (heap (grown n s)) = S (length (heap s))) as Hlen.
  { simpl. fold old. destruct old; simpl; rewrite ?length_insert, length_app; simpl; lia. }
  assert (∀ p i, history p i ([EvAllocate n new]
                   ++ (EvRelocate old new <$> indices count)
                   ++ destroy_events old count ++ [EvDeallocate old])
                 = (if bool_decide (new = p ∧ i < count) then [EvRelocate old new i] else [])
                   ++ (if bool_decide (old = p ∧ i < count) then [EvDestroy old i] else []))
    as Hdelta.
  { intros p i. rewrite !history_app, history_relocations, history_destroy_events by done.
    by rewrite app_nil_r. }
  assert (∀ i, history new i d = []) as Hunused by (intros i; by apply Hnew).
  unfold accounted. rewrite Hlen. simpl _data. simpl _size. fold old count new.
  setoid_rewrite history_app. setoid_rewrite Hdelta.
  split; [|split; [|split; [|split]]].
  - intros i Hi. rewrite Hunused.
    rewrite bool_decide_eq_true_2 by done.
    rewrite bool_decide_eq_false_2 by (intros [? _]; congruence).
    eexists. split; [|done]. simpl. by apply bool_decide_eq_true_2.
  - intros i Hi. rewrite Hunused.
    by rewrite !bool_decide_eq_false_2 by (intros [_ ?]; lia).
  - intros k i Hk. rewrite Hnew by lia.
    rewrite bool_decide_eq_false_2 by (intros [[= ?] _]; lia).
    by rewrite bool_decide_eq_false_2 by (intros [? _]; by apply (Hold k); [lia|]).
  - intros i. rewrite Hnull.
    rewrite bool_decide_eq_false_2 by (by intros [? _]).
    by rewrite bool_decide_eq_false_2 by (intros [? ?]; specialize (Hempty ltac:(done)); lia).
  - intros p i Hp. unfold settled. rewrite history_app, Hdelta.
    rewrite bool_decide_eq_false_2 by (intros [? _]; congruence). simpl.
    destruct (decide (old = p)) as [<-|Hne].
    + destruct (N.lt_ge_cases i count) as [Hi|Hi].
      * destruct (Hlive i Hi) as (c & Hc & Hh).
        rewrite bool_decide_eq_true_2 by done. right. exists c. by rewrite Hh.
      * rewrite bool_decide_eq_false_2 by (intros [_ ?]; lia).
        left. rewrite app_nil_r. by apply Hfree.
    + rewrite bool_decide_eq_false_2 by (intros [? _]; congruence).
      rewrite app_nil_r. apply Hrest. congruence.
Qed.

(** One insertion extends the trace and, for an element type with a
    destructor, keeps the slots accounted for. *)
Lemma insert_accounted (t0 : list event) op s d :
  valid s → trace s = t0 ++ d →
  (is_trivially_destructible = false → accounted (this s) (heap s) d) →
  _size (this s) < SIZE_MAX →
  _size (this s) < next_capacity (_size (this s)) →
  (∀ h n, can_allocate h n = true) →
  ∃ s' d', insert next_capacity can_allocate op s = Ok tt s'
           ∧ valid s' ∧ _size (this s') = _size (this s) + 1
           ∧ trace s' = t0 ++ d'
           ∧ (is_trivially_destructible = false → accounted (this s') (heap s') d').
Proof.
  intros Hv Ht Hacc Hmax Hpol Hal.
  destruct (N.eq_dec (_size (this s)) (_reserved (this s))) as [Heq|Hne].
  - set (s0 := noted (EvGrowth (_size (this s))) s).
    set (s1 := grown (next_capacity (_size (this s))) s0).
    assert (valid s1) as Hv1 by (apply grown_valid; simpl; [done|lia]).
    assert (_size (this s1) < _reserved (this s1)) as Hroom by done.
    eexists _, _. split; [by apply insert_full|].
    split; [by apply appended_valid|]. split; [by rewrite appended_size|].
    split; [unfold appended, s1, grown, s0, noted; cbn [trace];
            rewrite Ht, <- !app_assoc; reflexivity|].
    intros Hnt.
    assert (accounted (this s0) (heap s0) (d ++ [EvGrowth (_size (this s))])) as H0
      by (apply accounted_later; [done|by apply Hacc]).
    pose proof (accounted_grown (next_capacity (_size (this s))) s0 _ Hnt Hv H0) as H1.
    pose proof (accounted_appended (inserted op) s1 _ Hv1 Hroom Hmax H1) as H2.
    rewrite <- !app_assoc in H2. exact H2.
  - assert (_size (this s) < _reserved (this s)) as Hroom by (destruct Hv; lia).
    eexists _, _. split; [by apply insert_room|].
    split; [by apply appended_valid|]. split; [by apply appended_size|].
    split; [simpl; rewrite Ht, <- !app_assoc; reflexivity|].
    intros Hnt. apply accounted_appended; try done. by apply Hacc.
Qed.

Lemma inserts_accounted (t0 : list event) (ops : list (insertion (T:=T))) : ∀ s d,
  valid s → trace s = t0 ++ d →
  (is_trivially_destructible = false → accounted (this s) (heap s) d) →
  _size (this s) + N.of_nat (length ops) <= SIZE_MAX →
  (∀ n, _size (this s) <= n < _size (this s) + N.of_nat (length ops) →
        n < next_capacity n) →
  (∀ h n, can_allocate h n = true) →
  ∃ s' d', for_each ops (insert next_capacity can_allocate) s = Ok tt s'
           ∧ valid s' ∧ trace s' = t0 ++ d'
           ∧ (is_trivially_destructible = false → accounted (this s') (heap s') d').
Proof.
  induction ops as [|op ops IH]; intros s d Hv Ht Hacc Hmax Hpol Hal.
  - by exists s, d.
  - simpl length in *.
    destruct (insert_accounted t0 op s d) as (s1 & d1 & Hrun & Hv1 & Hsz1 & Ht1 & Hacc1);
      try done.
    { lia. } { apply Hpol. lia. }
    destruct (IH s1 d1) as (s2 & d2 & Hrun2 & Hrest); try done.
    { lia. } { intros n Hn. apply Hpol. lia. }
    exists s2, d2. split; [simpl; by erewrite bind_Ok|done].
Qed.

(** Over the whole life the trace is extended and, for an element type
    with a destructor, every slot ends up settled. *)
Lemma lifetime_settled (ops : list (insertion (T:=T))) (raw : Buffer) (h0 : heap_t T)
    (t0 : list event) :
  (∀ h n, can_allocate h n = true) →
  (∀ n, n < N.of_nat (length ops) → n < next_capacity n) →
  N.of_nat (length ops) <= SIZE_MAX →
  ∃ s' d, (Buffer_default;;
           for_each ops (insert next_capacity can_allocate);;
           destructor) (mkState raw h0 t0) = Ok tt s'
          ∧ trace s' = t0 ++ d
          ∧ (is_trivially_destructible = false → ∀ p i, settled p i d).
Proof.
  intros Hal Hpol Hmax.
  set (s0 := mkState (mkBuffer 0 0 nullptr) h0 t0).
  assert (accounted (this s0) (heap s0) []) as Hacc0.
  { split; [intros i Hi; simpl in Hi; lia|]. repeat split; try done. by left. }
  destruct (inserts_accounted t0 ops s0 []) as (s1 & d1 & Hrun & Hv1 & Ht1 & Hacc1);
    [apply valid_empty|by rewrite app_nil_r|done|simpl; lia
    |intros n Hn; apply Hpol; simpl in Hn; lia|done|].
  pose proof Hv1 as [Hsz1 Hown1]. unfold owns in Hown1.
  eexists _, _. split.
  { erewrite bind_Ok by done. erewrite bind_Ok by done.
    apply destructor_eq. destruct (_data (this s1)) as [|k]; [lia|].
    destruct Hown1 as (_ & blk & Hk & Hlen). exists blk. split; [done|lia]. }
  simpl. split; [rewrite Ht1, <- !app_assoc; reflexivity|].
  intros Hnt p i. destruct (Hacc1 Hnt) as (Hlive & Hfree & _ & _ & Hrest).
  unfold settled.
  rewrite !history_app, history_destroy_events by done.
  change (history p i [EvDeallocate (_data (this s1))]) with (@nil event).
  rewrite app_nil_r.
  destruct (decide (_data (this s1) = p)) as [<-|Hne].
  - destruct (N.lt_ge_cases i (_size (this s1))) as [Hi|Hi].
    + destruct (Hlive i Hi) as (c & Hc & Hh).
      rewrite bool_decide_eq_true_2 by done. right. exists c. by rewrite Hh.
    + rewrite bool_decide_eq_false_2 by (intros [_ ?]; lia).
      left. rewrite app_nil_r. by apply Hfree.
  - rewrite bool_decide_eq_false_2 by (intros [? _]; congruence).
    rewrite app_nil_r. apply Hrest. congruence.
Qed.

(** X10: a buffer that is default-constructed, filled by any sequence of
    [push]/[emplace] and then destroyed gives back every block it
    allocated: afterwards the heap is the one from before the constructor
    followed by released blocks only, so nothing leaks and no block of
    another owner is touched. *)
Theorem X10_lifetime_releases_every_block (ops : list (insertion (T:=T)))
    (raw : Buffer) (h0 : heap_t T) (t0 : list event) :
  (∀ h n, can_allocate h n = true) →
  (∀ n, n < N.of_nat (length ops) → n < next_capacity n) →
  N.of_nat (length ops) <= SIZE_MAX →
  ∃ s', (Buffer_default;;
         for_each ops (insert next_capacity can_allocate);;
         destructor) (mkState raw h0 t0) = Ok tt s'
        ∧ ∃ j, heap s' = h0 ++ replicate j None.
Proof.
  intros Hal Hpol Hmax.
  destruct (lifetime_spec ops raw h0 t0 Hal Hpol Hmax) as (s' & Hrun & Hheap & _).
  by exists s'.
Qed.

(** X11: over the same life, for an element type with a destructor, every
    placement construction (of a new element or of a relocated one) is
    matched by exactly one destructor call: in the calls the buffer made,
    each slot of each block either does not occur at all, or occurs twice,
    first as the place of one construction and then as the object of one
    destructor call. Hence there are as many destructor calls as
    constructions. For a trivially destructible type no destructor is
    called at all. *)
Theorem X11_lifetime_balances_constructions (ops : list (insertion (T:=T)))
    (raw : Buffer) (h0 : heap_t T) (t0 : list event) :
  (∀ h n, can_allocate h n = true) →
  (∀ n, n < N.of_nat (length ops) → n < next_capacity n) →
  N.of_nat (length ops) <= SIZE_MAX →
  ∃ s' d, (Buffer_default;;
           for_each ops (insert next_capacity can_allocate);;
           destructor) (mkState raw h0 t0) = Ok tt s'
          ∧ trace s' = t0 ++ d
          ∧ (is_trivially_destructible = false →
             (∀ p i, settled p i d)
             ∧ (constructions (trace s') + destructions t0
                = constructions t0 + destructions (trace s'))%nat)
          ∧ (is_trivially_destructible = true →
             destructions (trace s') = destructions t0).
Proof.
  intros Hal Hpol Hmax.
  destruct (lifetime_spec ops raw h0 t0 Hal Hpol Hmax) as (s' & Hrun & _ & Hcount & Hnone).
  destruct (lifetime_settled ops raw h0 t0 Hal Hpol Hmax)
    as (s2 & d & Hrun2 & Ht & Hsettled).
  rewrite Hrun in Hrun2. simplify_eq.
  exists s2, d. split; [done|]. split; [done|].
  split; [|done]. intros Hnt. split; [by apply Hsettled|by apply Hcount].
Qed.

Lemma written_other p (i : N) (v : slot T) h (k : nat) :
  p ≠ Ptr k → written p i v h !! k = h !! k.
Proof.
  intros Hne. unfold written. destruct p as [|k']; [done|].
  destruct (h !! k') as [[b|]|]; try done.
  apply list_lookup_insert_ne. congruence.
Qed.

(** X12: a growing insertion invalidates what pointed into the old
    storage. When [size == capacity] and the storage is the block [k], then
    after the insertion the data pointer is another block and a read
    through [k], at any index, is undefined: the block has been released. *)
Theorem X12_growth_invalidates_old_storage op s (k : nat) :
  valid s →
  size (this s) = capacity (this s) →
  data (this s) = Ptr k →
  size (this s) < next_capacity (size (this s)) →
  can_allocate (heap s) (next_capacity (size (this s))) = true →
  ∃ s', insert next_capacity can_allocate op s = Ok tt s'
        ∧ data (this s') ≠ Ptr k
        ∧ heap s' !! k = Some None
        ∧ ∀ i, load (Ptr k) i s' = Undefined.
Proof.
  intros Hv Hfull Hd Hpol Hal. unfold size, capacity, data in *.
  set (s1 := grown (next_capacity (_size (this s))) (noted (EvGrowth (_size (this s))) s)).
  set (s' := appended (inserted op) s1).
  exists s'. split; [by apply insert_full|].
  pose proof Hv as [_ Hown]. unfold owns in Hown. rewrite Hd in Hown.
  destruct Hown as (_ & blk & Hk & _). pose proof (lookup_lt_Some _ _ _ Hk) as Hlt.
  assert (heap s1 !! k = Some None) as Hgone1.
  { unfold s1. simpl. rewrite Hd. simpl.
    apply list_lookup_insert_eq. rewrite length_app. lia. }
  assert (heap s' !! k = Some None) as Hgone.
  { change (heap s') with (written (Ptr (length (heap s))) (_size (this s))
                             (Some (inserted op)) (heap s1)).
    rewrite written_other; [done|]. intros [= Heq]. lia. }
  split; [simpl; intros [= Heq]; lia|]. split; [done|].
  intros i. unfold load. by rewrite Hgone.
Qed.

(** X13: in the release build (no [RDX_DEBUG]) [operator[]] never throws and
    never changes the state, whatever the index: it returns the reference
    [_data[index]] unchecked. On a well-formed buffer a read through it
    returns the slot's content for [index < capacity] and is undefined for
    [index >= capacity]. *)
Theorem X13_release_build_index_is_unchecked (index : N) s :
  index_op false index s = Ok (data (this s), index) s
  ∧ index_op_const false index s = Ok (data (this s), index) s
  ∧ (valid s → capacity (this s) <= index →
     load (data (this s)) index s = Undefined)
  ∧ (valid s → index < capacity (this s) →
     ∃ v, load (data (this s)) index s = Ok v s).
Proof.
  unfold data, capacity. split; [done|]. split; [done|].
  split; intros [_ Hown] Hi; unfold owns, load in *;
    (destruct (_data (this s)) as [|k]; [try done; lia|]);
    destruct Hown as (_ & blk & -> & Hlen).
  - by rewrite lookup_ge_None_2 by lia.
  - destruct (lookup_lt_is_Some_2 blk (N.to_nat index)) as [v ->]; [lia|]. by exists v.
Qed.

(** Insertions that fit the capacity: storage and capacity are kept, the
    new elements follow the old ones, and neither the allocator nor the
    growth policy is called. *)
Lemma inserts_reuse (ops : list (insertion (T:=T))) : ∀ s,
  valid s →
  _size (this s) + N.of_nat (length ops) <= _reserved (this s) →
  _size (this s) + N.of_nat (length ops) <= SIZE_MAX →
  ∃ s' delta,
    for_each ops (insert next_capacity can_allocate) s = Ok tt s'
    ∧ _reserved (this s') = _reserved (this s)
    ∧ _data (this s') = _data (this s)
    ∧ _size (this s') = _size (this s) + N.of_nat (length ops)
    ∧ elements s' = elements s ++ (Some ∘ inserted <$> ops)
    ∧ trace s' = trace s ++ delta
    ∧ Forall (λ e, is_allocator_call e = false ∧ is_policy_call e = false) delta.
Proof.
  induction ops as [|op ops IH]; intros s Hv Hroom Hmax.
  - exists s, []. simpl. rewrite !app_nil_r.
    split; [done|]. split; [done|]. split; [done|]. split; [lia|done].
  - simpl length in *.
    assert (_size (this s) < _reserved (this s)) as Hlt by lia.
    assert (_size (this s) < SIZE_MAX) as Hlt' by lia.
    destruct (IH (appended (inserted op) s))
      as (s' & delta & Hrun & Hcap & Hd & Hsz & Hel & Ht & Hall).
    { by apply appended_valid. }
    { rewrite appended_size by done. simpl. lia. }
    { rewrite appended_size by done. lia. }
    exists s', (EvConstruct (_data (this s)) (_size (this s)) :: delta).
    split; [simpl; by erewrite bind_Ok by (by apply insert_room)|].
    split; [done|]. split; [done|].
    split; [rewrite Hsz, appended_size by done; lia|].
    split; [rewrite Hel, appended_elements by done; by rewrite <- app_assoc|].
    split; [rewrite Ht; simpl; by rewrite <- app_assoc|].
    by constructor.
Qed.

(** X14: [clear()] keeps the storage for reuse. After [clear()] on a
    well-formed buffer, up to as many insertions as it held elements return
    with the same data pointer and capacity, make no allocator call and no
    growth-policy call, and leave exactly the newly inserted elements. *)
Theorem X14_clear_then_reuse (ops : list (insertion (T:=T))) s :
  valid s →
  size (this s) <= SIZE_MAX →
  N.of_nat (length ops) <= size (this s) →
  ∃ s' delta,
    (clear;; for_each ops (insert next_capacity can_allocate)) s = Ok tt s'
    ∧ capacity (this s') = capacity (this s)
    ∧ data (this s') = data (this s)
    ∧ size (this s') = N.of_nat (length ops)
    ∧ elements s' = Some ∘ inserted <$> ops
    ∧ trace s' = trace s ++ delta
    ∧ Forall (λ e, is_allocator_call e = false ∧ is_policy_call e = false) delta.
Proof.
  intros Hv Hmax Hlen. unfold size, capacity, data in *.
  set (s0 := mkState (mkBuffer (_reserved (this s)) 0 (_data (this s))) (heap s) (trace s)).
  assert (steps_within s s0) as [Hv0 _].
  { apply clear_steps; [done|]. left. exists tt. apply clear_eq. }
  destruct (inserts_reuse ops s0) as (s' & delta & Hrun & Hcap & Hd & Hsz & Hel & Ht & Hall);
    [done|destruct Hv; simpl; lia|simpl; lia|].
  exists s', delta. split; [by erewrite bind_Ok by apply clear_eq|].
  split; [done|]. split; [done|]. split; [done|]. split; [|done].
  rewrite Hel. unfold elements. simpl.
  destruct (_data (this s)) as [|k]; [done|]. by destruct (heap s !! k) as [[blk|]|].
Qed.

(** X15: [reserve(n)] pre-allocates. After a [reserve(n)] that returns on
    a well-formed buffer, any insertions that keep [size <= n] reuse that
    storage: same data pointer and capacity as right after [reserve], no
    allocator call, no growth-policy call, and the new elements follow the
    old ones. *)
Theorem X15_reserve_then_insert (n : N) (ops : list (insertion (T:=T))) s :
  valid s →
  size (this s) + N.of_nat (length ops) <= n →
  n <= SIZE_MAX →
  (capacity (this s) < n → can_allocate (heap s) n = true) →
  ∃ s1 s' delta,
    reserve can_allocate n s = Ok tt s1
    ∧ for_each ops (insert next_capacity can_allocate) s1 = Ok tt s'
    ∧ data (this s') = data (this s1)
    ∧ capacity (this s') = capacity (this s1)
    ∧ size (this s') = size (this s) + N.of_nat (length ops)
    ∧ elements s' = elements s ++ (Some ∘ inserted <$> ops)
    ∧ trace s' = trace s1 ++ delta
    ∧ Forall (λ e, is_allocator_call e = false ∧ is_policy_call e = false) delta.
Proof.
  intros Hv Hfit Hmax Hal. unfold size, capacity, data in *.
  assert (∃ s1, reserve can_allocate n s = Ok tt s1 ∧ valid s1
                ∧ n <= _reserved (this s1)
                ∧ _size (this s1) = _size (this s)
                ∧ elements s1 = elements s)
    as (s1 & Hres & Hv1 & Hcap1 & Hsz1 & Hel1).
  { destruct (N.le_gt_cases n (_reserved (this s))) as [Hle|Hgt].
    - exists s. by rewrite reserve_noop by done.
    - exists (grown n s). rewrite reserve_grow by auto.
      split; [done|]. split; [by apply grown_valid|].
      split; [simpl; lia|]. split; [done|]. by apply grown_elements. }
  destruct (inserts_reuse ops s1) as (s' & delta & Hrun & Hcap & Hd & Hsz & Hel & Ht & Hall);
    [done|lia|lia|].
  exists s1, s', delta. split; [done|]. split; [done|]. split; [done|].
  split; [done|]. split; [lia|]. split; [by rewrite Hel, Hel1|done].
Qed.

(** *** Two objects after a move *)

Lemma call_Ok {A} (o : nat) (method : M (state T) A) (m : machine T) b a s' :
  objects m !! o = Some b →
  method (mkState b (m_heap m) (m_trace m)) = Ok a s' →
  call o method m
  = Ok a (mkMachine (<[o := this s']> (objects m)) (heap s') (trace s')).
Proof. intros Ho Hrun. unfold call. by rewrite Ho, Hrun. Qed.

Lemma elements_frame b (h h' : heap_t T) t t' :
  (∀ k, _data b = Ptr k → h' !! k = h !! k) →
  elements (mkState b h' t') = elements (mkState b h t).
Proof.
  intros Hsame. unfold elements. simpl.
  destruct (_data b) as [|k]; [done|]. by rewrite Hsame.
Qed.

(** X16: after move construction, destroying the moved-from object and
    then the new one returns both times; the elements are destroyed once
    each and the storage is released once, by the new owner: the only
    allocator calls are [deallocate(nullptr)] and one [deallocate] of the
    storage. *)
Theorem X16_move_then_destroy_both (m : machine T) (b1 : nat) (x1 : Buffer) :
  objects m !! b1 = Some x1 →
  valid (mkState x1 (m_heap m) (m_trace m)) →
  ∃ m', (b3 <- move_ctor b1;; call b1 destructor;; call b3 destructor) m = Ok tt m'
        ∧ m_heap m' = release (data x1) (m_heap m)
        ∧ m_trace m' = m_trace m
            ++ [EvDeallocate nullptr]
            ++ destroy_events (data x1) (size x1)
            ++ [EvDeallocate (data x1)].
Proof.
  intros H1 [Hsz Hown]. unfold data, size, owns in *. simpl in *.
  pose proof (lookup_lt_Some _ _ _ H1) as Hlt.
  set (objs1 := <[b1:=mkBuffer 0 0 nullptr]> (objects m) ++ [x1]).
  assert (objs1 !! b1 = Some (mkBuffer 0 0 nullptr)) as Hb1.
  { unfold objs1. rewrite lookup_app_l by (by rewrite length_insert).
    by apply list_lookup_insert_eq. }
  assert (objs1 !! length (objects m) = Some x1) as Hb3.
  { unfold objs1. rewrite <- (length_insert (objects m) b1 (mkBuffer 0 0 nullptr)).
    by apply list_lookup_middle. }
  eexists. split.
  { erewrite bind_Ok by (by apply move_ctor_eq). fold objs1.
    erewrite bind_Ok.
    2:{ eapply call_Ok; [exact Hb1|]. apply destructor_empty. }
    simpl. rewrite (list_insert_id objs1 b1) by done.
    eapply call_Ok; [exact Hb3|]. simpl.
    apply destructor_eq. simpl. destruct (_data x1) as [|k]; [lia|].
    destruct Hown as (_ & blk & Hk & Hlen). exists blk. split; [done|lia]. }
  simpl. split; [done|]. by rewrite <- app_assoc.
Qed.

(** X17: a moved-from buffer can be used again. After move construction
    from [b1], an insertion into [b1] (with [next_capacity(0) > 0] and room
    in the allocator) returns; [b1] then holds that one element in storage
    of its own, and the new object still holds what [b1] held before, in
    the storage [b1] had. *)
Theorem X17_moved_from_is_reusable (m : machine T) (b1 : nat) (x1 : Buffer) op :
  objects m !! b1 = Some x1 →
  valid (mkState x1 (m_heap m) (m_trace m)) →
  0 < next_capacity 0 →
  can_allocate (m_heap m) (next_capacity 0) = true →
  ∃ m' (b3 : nat) (y1 : Buffer),
    (b <- move_ctor b1;; call b1 (insert next_capacity can_allocate op);; ret b) m
    = Ok b3 m'
    ∧ objects m' !! b1 = Some y1
    ∧ objects m' !! b3 = Some x1
    ∧ b3 ≠ b1
    ∧ size y1 = 1
    ∧ elements (mkState y1 (m_heap m') (m_trace m')) = [Some (inserted op)]
    ∧ elements (mkState x1 (m_heap m') (m_trace m'))
      = elements (mkState x1 (m_heap m) (m_trace m))
    ∧ data y1 ≠ nullptr
    ∧ data y1 ≠ data x1.
Proof.
  intros H1 Hv1 Hpol Hal. unfold size, data.
  pose proof (lookup_lt_Some _ _ _ H1) as Hlt.
  set (objs1 := <[b1:=mkBuffer 0 0 nullptr]> (objects m) ++ [x1]).
  assert (objs1 !! b1 = Some (mkBuffer 0 0 nullptr)) as Hb1.
  { unfold objs1. rewrite lookup_app_l by (by rewrite length_insert).
    by apply list_lookup_insert_eq. }
  assert (objs1 !! length (objects m) = Some x1) as Hb3.
  { unfold objs1. rewrite <- (length_insert (objects m) b1 (mkBuffer 0 0 nullptr)).
    by apply list_lookup_middle. }
  set (s0 := mkState (mkBuffer 0 0 nullptr) (m_heap m) (m_trace m)).
  destruct (insert_appends op s0) as (s' & Hrun & Hv' & Hsz & Hel);
    [apply valid_empty|done|done|].
  assert (steps_within s0 s') as (_ & _ & Hdata & Hframe).
  { apply (insert_steps next_capacity can_allocate op); [apply valid_empty|].
    left. by exists tt. }
  assert (length objs1 = S (length (objects m))) as Hlen1
    by (unfold objs1; rewrite length_app, length_insert; simpl; lia).
  exists (mkMachine (<[b1 := this s']> objs1) (heap s') (trace s')),
         (length (objects m)), (this s').
  split.
  { erewrite bind_Ok by (by apply move_ctor_eq). fold objs1.
    erewrite bind_Ok; [done|]. eapply call_Ok; [exact Hb1|]. exact Hrun. }
  simpl. split; [apply list_lookup_insert_eq; lia|].
  split; [by rewrite list_lookup_insert_ne by lia|].
  split; [lia|]. split; [simpl in Hsz; lia|].
  split; [by destruct s'|].
  pose proof Hv' as [Hsz' Hown']. unfold owns in Hown'.
  assert (_data (this s') ≠ nullptr) as Hnn.
  { intros Hnull. rewrite Hnull in Hown'. simpl in Hsz. lia. }
  assert (∀ k, _data x1 = Ptr k → (k < length (m_heap m))%nat) as Hx1
    by (intros k Hk; by eapply valid_block_lt).
  split; [|split; [done|]].
  - apply elements_frame. intros k Hk. by apply Hframe; [|apply Hx1].
  - destruct (_data (this s')) as [|k'] eqn:Hd'; [done|].
    intros Heq. symmetry in Heq. specialize (Hx1 k' Heq).
    destruct (Hdata k' eq_refl) as [Hold|Hnew]; [done|]. simpl in Hnew. lia.
Qed.

(** X19: when [resize(n)] needs more capacity and the allocator has no
    room, it throws the allocation failure before anything is written:
    buffer, heap and trace are those from before the call, so size and
    elements are unchanged. *)
Theorem X19_resize_allocation_failure (n : N) s :
  capacity (this s) < n →
  can_allocate (heap s) n = false →
  resize can_allocate n s = Throw AllocationFailure s.
Proof.
  intros Hn Hfail. unfold resize, capacity in *.
  apply bind_Throw. by apply reserve_fail.
Qed.

(** X20: the storage that move assignment abandons is never released. After
    [self = std::move(ref)] onto a target that owned the block [k], and the
    destruction of both objects, both destructors have returned, the
    storage that came from [ref] is released, and block [k] is still
    allocated with its content. *)
Theorem X20_move_assign_leak_outlives_both (m : machine T) (self ref : nat)
    (x_self x_ref : Buffer) (k : nat) (blk : block T) :
  self ≠ ref →
  objects m !! self = Some x_self →
  objects m !! ref = Some x_ref →
  _data x_self = Ptr k →
  m_heap m !! k = Some (Some blk) →
  _data x_ref ≠ Ptr k →
  valid (mkState x_ref (m_heap m) (m_trace m)) →
  ∃ m', (move_assign self ref;; call ref destructor;; call self destructor) m = Ok tt m'
        ∧ m_heap m' = release (data x_ref) (m_heap m)
        ∧ m_heap m' !! k = Some (Some blk)
        ∧ m_trace m' = m_trace m
            ++ [EvDeallocate nullptr]
            ++ destroy_events (data x_ref) (size x_ref)
            ++ [EvDeallocate (data x_ref)].
Proof.
  intros Hne Hs Hr Hd Hk Hother [Hsz Hown]. unfold data, size, owns in *. simpl in *.
  pose proof (lookup_lt_Some _ _ _ Hs) as Hls.
  pose proof (lookup_lt_Some _ _ _ Hr) as Hlr.
  set (objs1 := <[ref:=mkBuffer 0 0 nullptr]> (<[self:=x_ref]> (objects m))).
  assert (objs1 !! ref = Some (mkBuffer 0 0 nullptr)) as Href'
    by (unfold objs1; by rewrite list_lookup_insert_eq by (by rewrite length_insert)).
  assert (objs1 !! self = Some x_ref) as Hself'.
  { unfold objs1. rewrite list_lookup_insert_ne by done. by rewrite list_lookup_insert_eq. }
  eexists. split.
  { erewrite bind_Ok by (by eapply move_assign_eq). fold objs1.
    erewrite bind_Ok.
    2:{ eapply call_Ok; [exact Href'|]. apply destructor_empty. }
    simpl. rewrite (list_insert_id objs1 ref) by done.
    eapply call_Ok; [exact Hself'|]. simpl.
    apply destructor_eq. simpl. destruct (_data x_ref) as [|k']; [lia|].
    destruct Hown as (_ & blk' & Hk' & Hlen). exists blk'. split; [done|lia]. }
  simpl. split; [done|]. split; [|by rewrite <- app_assoc].
  destruct (_data x_ref) as [|k']; simpl; [done|].
  rewrite list_lookup_insert_ne; [done|]. congruence.
Qed.

End BufferLifetime.

(** X18: for byte elements ([Buffer<i8>], as [io::File::read] returns and
    [Shader] takes) the range constructor from a source of at least
    [length] bytes, given room in the allocator, returns a buffer with
    [size == capacity == length] whose elements are the first [length]
    bytes of the source, in order; with [length == 0] the storage stays
    null. *)
Theorem X18_range_constructor_on_bytes (can_allocate : heap_t byte → N → bool)
    (start : list byte) (len : N) (raw : Buffer) (h : heap_t byte) (t : list event) :
  (N.to_nat len ≤ length start)%nat →
  can_allocate h len = true →
  ∃ s', Buffer_range can_allocate start len (mkState raw h t) = Ok tt s'
        ∧ size (this s') = len
        ∧ capacity (this s') = len
        ∧ elements s' = Some <$> take (N.to_nat len) start
        ∧ (len = 0 → data (this s') = nullptr).
Proof.
  intros Hlen Hal.
  destruct (Buffer_range_i8 can_allocate start len raw h t Hlen Hal)
    as (s' & Hrun & Hsz & Hcap & Hel).
  exists s'. split; [done|]. split; [done|]. split; [done|]. split; [done|].
  intros ->.
  assert (Buffer_range can_allocate start 0 (mkState raw h t)
          = Ok tt (mkState (mkBuffer 0 0 nullptr) h t)) as Heq by reflexivity.
  rewrite Heq in Hrun. by simplify_eq.
Qed.

(** * The further theorems at concrete inputs *)

Lemma X1_witness :
  ∃ s', Buffer_list always_allocate ["a"; "b"]%byte fresh = Ok tt s'
        ∧ size (this s') = N.of_nat (length ["a"; "b"]%byte)
        ∧ capacity (this s') = N.of_nat (length ["a"; "b"]%byte)
        ∧ elements s' = Some <$> ["a"; "b"]%byte
        ∧ policy_calls (trace s') = policy_calls [].
Proof.
  apply (X1_list_constructor always_allocate ["a"; "b"]%byte (mkBuffer 0 0 nullptr) [] []).
  - reflexivity.
  - vm_compute. discriminate.
Defined.

Lemma X2_witness :
  ∃ s', Buffer_sized always_allocate 3 fresh = Ok tt s'
        ∧ size (this s') = 3
        ∧ capacity (this s') = 3
        ∧ elements s' = replicate (N.to_nat 3) (Some (default_value : byte)).
Proof.
  apply (X2_sized_constructor always_allocate 3 (mkBuffer 0 0 nullptr) [] []).
  reflexivity.
Defined.

Lemma X3_witness :
  ∃ s', resize always_allocate 6 full4 = Ok tt s'
        ∧ size (this s') = 6
        ∧ capacity (this s') = N.max (capacity (this full4)) 6
        ∧ elements s' = elements full4
            ++ replicate (N.to_nat (6 - size (this full4))) (Some default_value)
        ∧ policy_calls (trace s') = policy_calls (trace full4).
Proof.
  apply (X3_resize_extends always_allocate 6 full4).
  - valid_here.
  - vm_compute. discriminate.
  - reflexivity.
Defined.

Lemma X4_witness :
  ∃ s', resize always_allocate 2 full4 = Ok tt s'
        ∧ this s' = mkBuffer (capacity (this full4)) 2 (data (this full4))
        ∧ heap s' = heap full4
        ∧ trace s' = trace full4
        ∧ elements s' = take (N.to_nat 2) (elements full4).
Proof.
  apply (X4_resize_shrinks_without_destroying always_allocate 2 full4).
  - valid_here.
  - vm_compute. discriminate.
Defined.

Lemma X5_witness :
  let m' := mkMachine (objects two_buffers) (m_heap two_buffers)
              (m_trace two_buffers ++ [EvDeallocate nullptr]) in
  new_object (Buffer_sized (allocate_upto 2) 3) two_buffers = Throw AllocationFailure m'
  ∧ new_object (Buffer_range (allocate_upto 2) ["a"; "b"; "c"]%byte 3) two_buffers
    = Throw AllocationFailure m'
  ∧ new_object (Buffer_list (allocate_upto 2) ["p"; "q"; "r"]%byte) two_buffers
    = Throw AllocationFailure m'.
Proof.
  apply (X5_constructor_failure_leaves_nothing (allocate_upto 2) two_buffers 3
           ["a"; "b"; "c"]%byte ["p"; "q"; "r"]%byte).
  - reflexivity.
  - reflexivity.
  - reflexivity.
Defined.

Lemma X6_witness :
  ∃ s', destructor two_handles = Ok tt s'
        ∧ trace s' = trace two_handles
            ++ destroy_events (T:=Handle) (data (this two_handles)) (size (this two_handles))
            ++ [EvDeallocate (data (this two_handles))]
        ∧ destructions (trace s')
          = (destructions (trace two_handles)
             + if is_trivially_destructible (T:=Handle) then 0
               else N.to_nat (size (this two_handles)))%nat
        ∧ (∀ k : nat, data (this two_handles) = Ptr k → heap s' !! k = Some None)
        ∧ (∀ k : nat, data (this two_handles) ≠ Ptr k →
             heap s' !! k = heap two_handles !! k).
Proof. apply (X6_destructor_releases two_handles). valid_here. Defined.

Lemma X7_witness :
  (∃ s', execute double_min4 always_allocate true (Detached (ByCopy "e"%byte)) full4
         = Ok tt s'
         ∧ (r <- index_op true 4;; load (fst r) (snd r)) s' = Ok (Some "e"%byte) s'
         ∧ (r <- index_op true 0;; load (fst r) (snd r)) s' = Ok (Some "a"%byte) s')
  ∧ execute double_min4 always_allocate true (OfItself Push lvalue 0) full4 = Undefined.
Proof.
  split.
  - destruct (X7_insert_then_index double_min4 always_allocate true
                (Detached (ByCopy "e"%byte)) full4 ["a"; "b"; "c"; "d"]%byte "e"%byte)
      as [Hstays _].
    + valid_here.
    + reflexivity.
    + vm_compute. reflexivity.
    + intros _. split; [vm_compute|]; reflexivity.
    + reflexivity.
    + destruct (Hstays eq_refl) as (s' & Hrun & Hlast & _ & Hbelow).
      exists s'. split; [exact Hrun|]. split; [exact Hlast|].
      exact (proj1 (Hbelow 0 "a"%byte eq_refl)).
  - apply (X7_insert_then_index double_min4 always_allocate true
             (OfItself Push lvalue 0) full4 ["a"; "b"; "c"; "d"]%byte "a"%byte).
    + valid_here.
    + reflexivity.
    + vm_compute. reflexivity.
    + intros _. split; [vm_compute|]; reflexivity.
    + reflexivity.
    + reflexivity.
Defined.

Lemma X8_witness :
  ∃ m', move_assign 0 0 two_buffers = Ok tt m'
        ∧ objects m' !! 0%nat = Some (mkBuffer 0 0 nullptr)
        ∧ m_heap m' = m_heap two_buffers
        ∧ m_trace m' = m_trace two_buffers
        ∧ ∃ m'', call 0 destructor m' = Ok tt m''
                 ∧ m_heap m'' !! 0%nat = Some (Some [Some "x"%byte])
                 ∧ m_trace m'' = m_trace two_buffers ++ [EvDeallocate nullptr].
Proof.
  apply (X8_self_move_assignment two_buffers 0 (mkBuffer 1 1 (Ptr 0)) 0 [Some "x"%byte]).
  - reflexivity.
  - reflexivity.
  - reflexivity.
Defined.

Lemma X9_witness :
  ∃ s', reserve always_allocate 8 full4 = Ok tt s'
        ∧ capacity (this s') = 8
        ∧ data (this s') = Ptr (length (heap full4))
        ∧ data (this s') ≠ data (this full4)
        ∧ trace s' = trace full4
            ++ [EvAllocate 8 (data (this s'))]
            ++ (EvRelocate (data (this full4)) (data (this s'))
                  <$> indices (size (this full4)))
            ++ destroy_events (T:=byte) (data (this full4)) (size (this full4))
            ++ [EvDeallocate (data (this full4))]
        ∧ policy_calls (trace s') = policy_calls (trace full4)
        ∧ (∀ k : nat, data (this full4) = Ptr k → heap s' !! k = Some None)
        ∧ (∀ k : nat, data (this full4) ≠ Ptr k → (k < length (heap full4))%nat →
             heap s' !! k = heap full4 !! k).
Proof.
  apply (X9_reserve_reallocates always_allocate 8 full4).
  - valid_here.
  - vm_compute. reflexivity.
  - reflexivity.
Defined.

Lemma X10_witness :
  ∃ s', (Buffer_default;;
         for_each abc (insert double_min4 always_allocate);;
         destructor) (mkState (mkBuffer 0 0 nullptr) (heap full4) []) = Ok tt s'
        ∧ ∃ j, heap s' = heap full4 ++ replicate j None.
Proof.
  apply (X10_lifetime_releases_every_block double_min4 always_allocate abc
           (mkBuffer 0 0 nullptr) (heap full4) []).
  - reflexivity.
  - intros n Hn. unfold double_min4. simpl in Hn. lia.
  - vm_compute. discriminate.
Defined.

Lemma X11_witness :
  ∃ s' d, (Buffer_default;;
           for_each three_handles (insert double_min4 always_allocate);;
           destructor) fresh = Ok tt s'
          ∧ trace s' = [] ++ d
          ∧ (is_trivially_destructible (T:=Handle) = false →
             (∀ p i, settled p i d)
             ∧ (constructions (trace s') + destructions []
                = constructions [] + destructions (trace s'))%nat)
          ∧ (is_trivially_destructible (T:=Handle) = true →
             destructions (trace s') = destructions []).
Proof.
  apply (X11_lifetime_balances_constructions double_min4 always_allocate three_handles
           (mkBuffer 0 0 nullptr) [] []).
  - reflexivity.
  - intros n Hn. unfold double_min4. simpl in Hn. lia.
  - vm_compute. discriminate.
Defined.

Lemma X12_witness :
  ∃ s', insert double_min4 always_allocate (ByCopy "e"%byte) full4 = Ok tt s'
        ∧ data (this s') ≠ Ptr 0
        ∧ heap s' !! 0%nat = Some None
        ∧ ∀ i, load (Ptr 0) i s' = Undefined.
Proof.
  apply (X12_growth_invalidates_old_storage double_min4 always_allocate
           (ByCopy "e"%byte) full4 0).
  - valid_here.
  - reflexivity.
  - reflexivity.
  - vm_compute. reflexivity.
  - reflexivity.
Defined.

Lemma X13_witness :
  index_op false 9 full4 = Ok (data (this full4), 9) full4
  ∧ load (data (this full4)) 9 full4 = Undefined.
Proof.
  destruct (X13_release_build_index_is_unchecked 9 full4) as (Hidx & _ & Hload & _).
  split; [exact Hidx|]. apply Hload.
  - valid_here.
  - vm_compute. discriminate.
Defined.

Lemma X14_witness :
  ∃ s' delta,
    (clear;; for_each abc (insert double_min4 always_allocate)) full4 = Ok tt s'
    ∧ capacity (this s') = capacity (this full4)
    ∧ data (this s') = data (this full4)
    ∧ size (this s') = N.of_nat (length abc)
    ∧ elements s' = Some ∘ inserted <$> abc
    ∧ trace s' = trace full4 ++ delta
    ∧ Forall (λ e, is_allocator_call e = false ∧ is_policy_call e = false) delta.
Proof.
  apply (X14_clear_then_reuse double_min4 always_allocate abc full4).
  - valid_here.
  - vm_compute. discriminate.
  - vm_compute. discriminate.
Defined.

Lemma X15_witness :
  ∃ s1 s' delta,
    reserve always_allocate 8 full4 = Ok tt s1
    ∧ for_each abc (insert double_min4 always_allocate) s1 = Ok tt s'
    ∧ data (this s') = data (this s1)
    ∧ capacity (this s') = capacity (this s1)
    ∧ size (this s') = size (this full4) + N.of_nat (length abc)
    ∧ elements s' = elements full4 ++ (Some ∘ inserted <$> abc)
    ∧ trace s' = trace s1 ++ delta
    ∧ Forall (λ e, is_allocator_call e = false ∧ is_policy_call e = false) delta.
Proof.
  apply (X15_reserve_then_insert double_min4 always_allocate 8 abc full4).
  - valid_here.
  - vm_compute. discriminate.
  - vm_compute. discriminate.
  - reflexivity.
Defined.

Lemma X16_witness :
  ∃ m', (b3 <- move_ctor 0;; call 0 destructor;; call b3 destructor) two_buffers
        = Ok tt m'
        ∧ m_heap m' = release (Ptr 0) (m_heap two_buffers)
        ∧ m_trace m' = m_trace two_buffers
            ++ [EvDeallocate nullptr]
            ++ destroy_events (T:=byte) (Ptr 0) 1
            ++ [EvDeallocate (Ptr 0)].
Proof.
  apply (X16_move_then_destroy_both two_buffers 0 (mkBuffer 1 1 (Ptr 0))).
  - reflexivity.
  - valid_here.
Defined.

Lemma X17_witness :
  ∃ m' (b3 : nat) (y1 : Buffer),
    (b <- move_ctor 0;;
     call 0 (insert double_min4 always_allocate (ByCopy "n"%byte));; ret b) two_buffers
    = Ok b3 m'
    ∧ objects m' !! 0%nat = Some y1
    ∧ objects m' !! b3 = Some (mkBuffer 1 1 (Ptr 0))
    ∧ b3 ≠ 0%nat
    ∧ size y1 = 1
    ∧ elements (mkState y1 (m_heap m') (m_trace m')) = [Some "n"%byte]
    ∧ elements (mkState (mkBuffer 1 1 (Ptr 0)) (m_heap m') (m_trace m'))
      = elements (mkState (mkBuffer 1 1 (Ptr 0)) (m_heap two_buffers) (m_trace two_buffers))
    ∧ data y1 ≠ nullptr
    ∧ data y1 ≠ Ptr 0.
Proof.
  apply (X17_moved_from_is_reusable double_min4 always_allocate two_buffers 0
           (mkBuffer 1 1 (Ptr 0)) (ByCopy "n"%byte)).
  - reflexivity.
  - valid_here.
  - vm_compute. reflexivity.
  - reflexivity.
Defined.

Lemma X18_witness :
  ∃ s', Buffer_range always_allocate ["a"; "b"; "c"]%byte 2 fresh = Ok tt s'
        ∧ size (this s') = 2
        ∧ capacity (this s') = 2
        ∧ elements s' = Some <$> take (N.to_nat 2) ["a"; "b"; "c"]%byte
        ∧ (2 = 0 → data (this s') = nullptr).
Proof.
  apply (X18_range_constructor_on_bytes always_allocate ["a"; "b"; "c"]%byte 2
           (mkBuffer 0 0 nullptr) [] []).
  - vm_compute. lia.
  - reflexivity.
Defined.

Lemma X19_witness :
  resize (allocate_upto 4) 8 full4 = Throw AllocationFailure full4.
Proof.
  apply (X19_resize_allocation_failure (allocate_upto 4) 8 full4).
  - vm_compute. reflexivity.
  - reflexivity.
Defined.

Lemma X20_witness :
  ∃ m', (move_assign 0 1;; call 1 destructor;; call 0 destructor) two_buffers = Ok tt m'
        ∧ m_heap m' = release (Ptr 1) (m_heap two_buffers)
        ∧ m_heap m' !! 0%nat = Some (Some [Some "x"%byte])
        ∧ m_trace m' = m_trace two_buffers
            ++ [EvDeallocate nullptr]
            ++ destroy_events (T:=byte) (Ptr 1) 2
            ++ [EvDeallocate (Ptr 1)].
Proof.
  apply (X20_move_assign_leak_outlives_both two_buffers 0 1
           (mkBuffer 1 1 (Ptr 0)) (mkBuffer 2 2 (Ptr 1)) 0 [Some "x"%byte]).
  - lia.
  - reflexivity.
  - reflexivity.
  - reflexivity.
  - reflexivity.
  - simpl. discriminate.
  - valid_here.
Defined.
